(** * Grid wanderer: pathfinding, diplomacy, supply, combat and AI scoring

    A shallow embedding of the simulation core of the repository
    (src/lib/gridUtils.ts, src/models/*.ts, src/services/*.ts) together
    with the properties stated about it.

    Conventions of the embedding.
    - A JavaScript [number] that the program only ever uses as an integer
      (coordinates, costs, health, fuel, ammunition, relation scores) is a
      [Z]; a fractional quantity (AI weights, combat multipliers, utility
      scores) is an exact rational [Q].  Rounding error of IEEE doubles is
      therefore not part of the model.
    - Reading a property of [undefined] raises a [TypeError]; functions that
      index the tile matrix return an [outcome] whose [Thrown] case stands
      for that exception.
    - [while] loops are bounded by an explicit iteration budget computed from
      the size of the map; [OutOfFuel] is the case where that budget would
      be exhausted.
    - Units are JavaScript objects passed by reference; where a function
      receives two of them the embedding passes references into a store.
    - A quotient of two integers that the program only compares (health
      and supply ratios) is a [JsNumber.t], which has the infinities and
      the NaN that a zero divisor gives.
    - The diplomacy ledger is embedded twice: [DiplomacySystem] at integer
      scores and deltas, which is what every caller in the repository
      passes, and [DiplomacyNumbers] at every value of the type [number],
      NaN included.  The first is the restriction of the second
      ([performAll_ofIntegers]). *)

From Stdlib Require Import ZArith QArith Qround Qminmax Lia String Ascii Sorted.
From stdpp Require Import base gmap strings list fin_maps functions pretty.

Set Warnings "-register-all".
Local Open Scope Z_scope.

(** ** Results of possibly failing, possibly long-running calls *)

Inductive outcome (A : Type) : Type :=
  | Returned (a : A)
  | Thrown
  | OutOfFuel.
Arguments Returned {A} a.
Arguments Thrown {A}.
Arguments OutOfFuel {A}.

(** ** src/lib/gridUtils.ts *)

Module GridUtils.

Record GridPosition := mkPos { x : Z; y : Z }.

#[global] Instance GridPosition_eq_dec : EqDecision GridPosition.
Proof. solve_decision. Defined.

Definition manhattanDistance (a b : GridPosition) : Z :=
  Z.abs (x a - x b) + Z.abs (y a - y b).

Definition arePositionsEqual (a b : GridPosition) : bool :=
  (x a =? x b) && (y a =? y b).

Definition directions : list GridPosition :=
  [ mkPos 0 (-1); mkPos 1 0; mkPos 0 1; mkPos (-1) 0 ].

Definition getNeighbors (position : GridPosition) (width height : Z)
  : list GridPosition :=
  List.filter
    (fun newPos =>
       (0 <=? x newPos) && (x newPos <? width) &&
       (0 <=? y newPos) && (y newPos <? height))
    (List.map
       (fun dir => mkPos (x position + x dir) (y position + y dir))
       directions).

(** [`${pos.x},${pos.y}`]: the decimal rendering of both coordinates
    separated by a comma. *)
Definition posToKey (pos : GridPosition) : string :=
  pretty (x pos) +:+ "," +:+ pretty (y pos).

End GridUtils.
Import GridUtils.

(** ** src/models/TerrainTypes.ts *)

Module TerrainType.
Inductive t := WATER | PLAINS | FOREST | MOUNTAIN.
#[global] Instance eq_dec : EqDecision t.
Proof. solve_decision. Defined.
End TerrainType.

Module ResourceType.
Inductive t := NONE | MINERALS | FUEL.
End ResourceType.

Record TerrainData := {
  type : TerrainType.t;
  movementCost : Z;
  isWalkable : bool;
  isFlyable : bool;
  resourceType : ResourceType.t
}.

Definition TerrainTiles (k : TerrainType.t) : TerrainData :=
  match k with
  | TerrainType.WATER =>
      {| type := TerrainType.WATER; movementCost := 99;
         isWalkable := false; isFlyable := true;
         resourceType := ResourceType.NONE |}
  | TerrainType.PLAINS =>
      {| type := TerrainType.PLAINS; movementCost := 1;
         isWalkable := true; isFlyable := true;
         resourceType := ResourceType.NONE |}
  | TerrainType.FOREST =>
      {| type := TerrainType.FOREST; movementCost := 2;
         isWalkable := true; isFlyable := true;
         resourceType := ResourceType.NONE |}
  | TerrainType.MOUNTAIN =>
      {| type := TerrainType.MOUNTAIN; movementCost := 3;
         isWalkable := true; isFlyable := true;
         resourceType := ResourceType.NONE |}
  end.

(** ** src/services/MapGenerator.ts (the map interface only) *)

Record Tile := {
  tilePosition : GridPosition;
  terrain : TerrainData;
  resource : ResourceType.t
}.

Record GameMap := {
  width : Z;
  height : Z;
  tiles : list (list Tile)
}.

(** [map.tiles[pos.y][pos.x]] followed by a property read: [None] when the
    row or the tile is [undefined], which makes the property read throw. *)
Definition tileAt (map : GameMap) (pos : GridPosition) : option Tile :=
  if (0 <=? y pos) && (0 <=? x pos)
  then tiles map !! Z.to_nat (y pos) ≫= fun row => row !! Z.to_nat (x pos)
  else None.

(** A rectangular map whose tiles all come from [TerrainTiles], as
    [generateMap] builds it, given the terrain kind of every cell. *)
Definition mapOfTerrain (rows : list (list TerrainType.t)) : GameMap :=
  {| width := Z.of_nat (length (List.hd [] rows));
     height := Z.of_nat (length rows);
     tiles :=
       imap (fun j row =>
               imap (fun i k =>
                       {| tilePosition := mkPos (Z.of_nat i) (Z.of_nat j);
                          terrain := TerrainTiles k;
                          resource := ResourceType.NONE |}) row) rows |}.

(** ** src/models/UnitTypes.ts *)

Module MovementType.
Inductive t := GROUND | AIR.
#[global] Instance eq_dec : EqDecision t.
Proof. solve_decision. Defined.
End MovementType.

Module UnitClass.
Inductive t := INFANTRY | VEHICLE | AIRCRAFT.
#[global] Instance eq_dec : EqDecision t.
Proof. solve_decision. Defined.
End UnitClass.

Module Faction.
Inductive t := PLAYER | ENEMY | NEUTRAL.
#[global] Instance eq_dec : EqDecision t.
Proof. solve_decision. Defined.

(** The string value of each enum member. *)
Definition value (f : t) : string :=
  match f with
  | PLAYER => "player"
  | ENEMY => "enemy"
  | NEUTRAL => "neutral"
  end.
End Faction.

Record UnitData := {
  unitId : string;
  unitName : string;
  unitClass : UnitClass.t;
  movementType : MovementType.t;
  movementPoints : Z;
  faction : Faction.t;
  health : Z;
  maxHealth : Z;
  attackPower : Z;
  attackRange : Z;
  defense : Z;
  detectionRange : Z;
  aggressiveness : Q;
  sensorWeight : Q;
  healthWeight : Q;
  allyWeight : Q;
  fuelCurrent : Z;
  fuelMax : Z;
  fuelConsumptionRate : Z;
  ammunitionCurrent : Z;
  ammunitionMax : Z;
  ammunitionConsumptionRate : Z
}.

(** In-place assignments to the two supply fields that the program writes. *)
Definition set_fuelCurrent (v : Z) (u : UnitData) : UnitData :=
  {| unitId := unitId u; unitName := unitName u; unitClass := unitClass u;
     movementType := movementType u; movementPoints := movementPoints u;
     faction := faction u; health := health u; maxHealth := maxHealth u;
     attackPower := attackPower u; attackRange := attackRange u;
     defense := defense u; detectionRange := detectionRange u;
     aggressiveness := aggressiveness u; sensorWeight := sensorWeight u;
     healthWeight := healthWeight u; allyWeight := allyWeight u;
     fuelCurrent := v; fuelMax := fuelMax u;
     fuelConsumptionRate := fuelConsumptionRate u;
     ammunitionCurrent := ammunitionCurrent u;
     ammunitionMax := ammunitionMax u;
     ammunitionConsumptionRate := ammunitionConsumptionRate u |}.

Definition set_ammunitionCurrent (v : Z) (u : UnitData) : UnitData :=
  {| unitId := unitId u; unitName := unitName u; unitClass := unitClass u;
     movementType := movementType u; movementPoints := movementPoints u;
     faction := faction u; health := health u; maxHealth := maxHealth u;
     attackPower := attackPower u; attackRange := attackRange u;
     defense := defense u; detectionRange := detectionRange u;
     aggressiveness := aggressiveness u; sensorWeight := sensorWeight u;
     healthWeight := healthWeight u; allyWeight := allyWeight u;
     fuelCurrent := fuelCurrent u; fuelMax := fuelMax u;
     fuelConsumptionRate := fuelConsumptionRate u;
     ammunitionCurrent := v;
     ammunitionMax := ammunitionMax u;
     ammunitionConsumptionRate := ammunitionConsumptionRate u |}.

(** Two entries of the [UnitTypes] roster, used by the worked examples. *)
Definition UnitTypes_infantry : UnitData :=
  {| unitId := "infantry"; unitName := "Infantry";
     unitClass := UnitClass.INFANTRY; movementType := MovementType.GROUND;
     movementPoints := 4; faction := Faction.PLAYER;
     health := 100; maxHealth := 100; attackPower := 30; attackRange := 2;
     defense := 10; detectionRange := 5;
     aggressiveness := 0.5; sensorWeight := 0.7;
     healthWeight := 0.5; allyWeight := 0.3;
     fuelCurrent := 50; fuelMax := 50; fuelConsumptionRate := 1;
     ammunitionCurrent := 30; ammunitionMax := 30;
     ammunitionConsumptionRate := 5 |}.

Definition UnitTypes_enemy_infantry : UnitData :=
  {| unitId := "enemy-infantry"; unitName := "Enemy Infantry";
     unitClass := UnitClass.INFANTRY; movementType := MovementType.GROUND;
     movementPoints := 4; faction := Faction.ENEMY;
     health := 90; maxHealth := 90; attackPower := 25; attackRange := 2;
     defense := 8; detectionRange := 4;
     aggressiveness := 0.8; sensorWeight := 0.7;
     healthWeight := 0.4; allyWeight := 0.6;
     fuelCurrent := 50; fuelMax := 50; fuelConsumptionRate := 1;
     ammunitionCurrent := 25; ammunitionMax := 25;
     ammunitionConsumptionRate := 5 |}.

(** ** src/services/PathFinder.ts *)

Module PathFinder.

(** A search node.  [parent] points at a node that has already left the
    open list and is never written again, so the link is modelled by the
    value of the parent node. *)
Inductive PathNode := mkNode {
  position : GridPosition;
  gCost : Z;
  hCost : Z;
  fCost : Z;
  parent : option PathNode
}.

Record Path := mkPath { path : list GridPosition; cost : Z }.

(** The guard shared by both searches:
    [(movementType === GROUND && !isWalkable) ||
     (movementType === AIR && !isFlyable)]. *)
Definition notTraversable (movementType : MovementType.t) (t : Tile) : bool :=
  (bool_decide (movementType = MovementType.GROUND)
     && negb (isWalkable (terrain t)))
  || (bool_decide (movementType = MovementType.AIR)
        && negb (isFlyable (terrain t))).

(** [movementType === AIR ? 1 : neighborTile.terrain.movementCost] *)
Definition stepCost (movementType : MovementType.t) (t : Tile) : Z :=
  if bool_decide (movementType = MovementType.AIR) then 1
  else movementCost (terrain t).

(** [openSet.sort((a, b) => a.fCost - b.fCost)]: the sort is stable, so
    its result is the one of a stable insertion sort. *)
Fixpoint insertByFCost (n : PathNode) (l : list PathNode) : list PathNode :=
  match l with
  | [] => [n]
  | m :: l' =>
      if fCost n <=? fCost m then n :: l else m :: insertByFCost n l'
  end.

Definition sortByFCost (l : list PathNode) : list PathNode :=
  foldr insertByFCost [] l.

(** [reconstructPath]: the positions from the start node to [endNode],
    and the accumulated cost of [endNode]. *)
Fixpoint parentChain (n : PathNode) : list GridPosition :=
  match n with
  | mkNode pos _ _ _ par =>
      match par with
      | None => [pos]
      | Some p => parentChain p ++ [pos]
      end
  end.

Definition reconstructPath (endNode : PathNode) : Path :=
  {| path := parentChain endNode; cost := gCost endNode |}.

Section Search.
Variable map : GameMap.
Variable movementType : MovementType.t.

(** The body of [for (const neighborPos of neighbors)] in [findPath];
    [None] is a thrown [TypeError]. *)
Definition visitNeighbor (endPos : GridPosition)
    (maxMovementPoints : option Z)
    (closedSet : gmap string PathNode) (currentNode : PathNode)
    (openSet : list PathNode) (neighborPos : GridPosition)
  : option (list PathNode) :=
  match tileAt map neighborPos with
  | None => None
  | Some neighborTile =>
      if notTraversable movementType neighborTile
         || bool_decide (is_Some (closedSet !! posToKey neighborPos))
      then Some openSet
      else
        let movementCost := stepCost movementType neighborTile in
        let gCost' := gCost currentNode + movementCost in
        if match maxMovementPoints with
           | Some limit => limit <? gCost'
           | None => false
           end
        then Some openSet
        else
          match list_find (fun node => position node = neighborPos) openSet with
          | None =>
              let hCost' := manhattanDistance neighborPos endPos in
              Some (openSet ++
                      [ {| position := neighborPos; gCost := gCost';
                           hCost := hCost'; fCost := gCost' + hCost';
                           parent := Some currentNode |} ])
          | Some (i, existingOpenNode) =>
              if gCost' <? gCost existingOpenNode
              then Some (<[ i :=
                             {| position := position existingOpenNode;
                                gCost := gCost';
                                hCost := hCost existingOpenNode;
                                fCost := gCost' + hCost existingOpenNode;
                                parent := Some currentNode |} ]> openSet)
              else Some openSet
          end
  end.

Fixpoint visitNeighbors (endPos : GridPosition)
    (maxMovementPoints : option Z)
    (closedSet : gmap string PathNode) (currentNode : PathNode)
    (openSet : list PathNode) (neighbors : list GridPosition)
  : option (list PathNode) :=
  match neighbors with
  | [] => Some openSet
  | neighborPos :: rest =>
      match visitNeighbor endPos maxMovementPoints closedSet currentNode
              openSet neighborPos with
      | None => None
      | Some openSet' =>
          visitNeighbors endPos maxMovementPoints closedSet currentNode
            openSet' rest
      end
  end.

(** [while (openSet.length > 0) { ... }] of [findPath]. *)
Fixpoint findPathLoop (fuel : nat) (endPos : GridPosition)
    (maxMovementPoints : option Z)
    (openSet : list PathNode) (closedSet : gmap string PathNode)
  : outcome (option Path) :=
  match fuel with
  | O => OutOfFuel
  | S fuel' =>
      match sortByFCost openSet with
      | [] => Returned None
      | currentNode :: openSet1 =>
          if bool_decide (position currentNode = endPos)
          then Returned (Some (reconstructPath currentNode))
          else
            let closedSet' :=
              <[ posToKey (position currentNode) := currentNode ]> closedSet in
            match visitNeighbors endPos maxMovementPoints closedSet'
                    currentNode openSet1
                    (getNeighbors (position currentNode)
                       (width map) (height map)) with
            | None => Thrown
            | Some openSet2 =>
                findPathLoop fuel' endPos maxMovementPoints openSet2 closedSet'
            end
      end
  end.

(** Every iteration closes a position that was not closed before, and
    only the start and the cells of the grid are ever opened. *)
Definition findPathFuel : nat :=
  S (S (Z.to_nat (width map) * Z.to_nat (height map))).

Definition findPath (startPos endPos : GridPosition)
    (maxMovementPoints : option Z) : outcome (option Path) :=
  if bool_decide (startPos = endPos)
  then Returned (Some {| path := []; cost := 0 |})
  else
    let hCost0 := manhattanDistance startPos endPos in
    let startNode :=
      {| position := startPos; gCost := 0; hCost := hCost0;
         fCost := 0 + hCost0; parent := None |} in
    findPathLoop findPathFuel endPos maxMovementPoints [startNode] ∅.

(** The body of [for (const neighborPos of neighbors)] in
    [findMovementRange], on the pair of the cost table and the queue.
    [reachableTiles.get(posToKey(pos))!] of a missing key is
    [undefined]; the sum is then [NaN] and both comparisons fail. *)
Definition expandNeighbor (movementPoints : Z) (pos : GridPosition)
    (st : gmap string Z * list (GridPosition * Z))
    (neighborPos : GridPosition)
  : option (gmap string Z * list (GridPosition * Z)) :=
  let '(reachableTiles, queue) := st in
  match tileAt map neighborPos with
  | None => None
  | Some neighborTile =>
      if notTraversable movementType neighborTile then Some st
      else
        let movementCost := stepCost movementType neighborTile in
        match reachableTiles !! posToKey pos with
        | None => Some st
        | Some costHere =>
            let costToEnter := costHere + movementCost in
            let neighborKey := posToKey neighborPos in
            if match reachableTiles !! neighborKey with
               | None => true
               | Some known => costToEnter <? known
               end && (costToEnter <=? movementPoints)
            then
              let newRemainingPoints := movementPoints - costToEnter in
              Some (<[ neighborKey := costToEnter ]> reachableTiles,
                    if 0 <? newRemainingPoints
                    then queue ++ [ (neighborPos, newRemainingPoints) ]
                    else queue)
            else Some st
        end
  end.

Fixpoint expandNeighbors (movementPoints : Z) (pos : GridPosition)
    (st : gmap string Z * list (GridPosition * Z))
    (neighbors : list GridPosition)
  : option (gmap string Z * list (GridPosition * Z)) :=
  match neighbors with
  | [] => Some st
  | neighborPos :: rest =>
      match expandNeighbor movementPoints pos st neighborPos with
      | None => None
      | Some st' => expandNeighbors movementPoints pos st' rest
      end
  end.

(** [while (queue.length > 0) { ... }] of [findMovementRange]. *)
Fixpoint movementRangeLoop (fuel : nat) (movementPoints : Z)
    (reachableTiles : gmap string Z) (queue : list (GridPosition * Z))
  : outcome (gmap string Z) :=
  match fuel with
  | O => OutOfFuel
  | S fuel' =>
      match queue with
      | [] => Returned reachableTiles
      | (pos, remainingPoints) :: queue1 =>
          match expandNeighbors movementPoints pos (reachableTiles, queue1)
                  (getNeighbors pos (width map) (height map)) with
          | None => Thrown
          | Some (reachableTiles', queue2) =>
              movementRangeLoop fuel' movementPoints reachableTiles' queue2
          end
      end
  end.

(** Every queue entry is paid for by a strict decrease of some cell's
    recorded cost, which lies between 0 and [movementPoints]. *)
Definition movementRangeFuel (movementPoints : Z) : nat :=
  S (S (Z.to_nat (width map) * Z.to_nat (height map)
        * Z.to_nat (movementPoints + 1))).

Definition findMovementRange (position : GridPosition) (movementPoints : Z)
  : outcome (gmap string Z) :=
  movementRangeLoop (movementRangeFuel movementPoints) movementPoints
    (<[ posToKey position := 0 ]> ∅) [ (position, movementPoints) ].

End Search.

End PathFinder.

(** ** src/services/DiplomacySystem.ts *)

Module RelationshipStatus.
Inductive t := WAR | HOSTILE | NEUTRAL | FRIENDLY | ALLIED.
#[global] Instance eq_dec : EqDecision t.
Proof. solve_decision. Defined.
End RelationshipStatus.

(** Scores, values and deltas are integers in this module;
    [DiplomacyNumbers] below has the same methods at every JavaScript
    number. *)
Module DiplomacySystem.

Record DiplomaticAction := {
  actionType : string;
  description : string;
  value : Z;
  origin : Faction.t;
  target : Faction.t
}.

(** The private fields [relations] and [actionHistory].  The registered
    listeners are callbacks of the user interface: they receive each
    recorded action and have no access to [relations] other than through
    the public methods below, so they are not part of the state. *)
Record t := {
  relations : gmap string Z;
  actionHistory : list DiplomaticAction
}.

(** [[factionA, factionB].sort()] compares the enum strings by code unit
    and swaps the pair only when the second is strictly smaller. *)
Definition getRelationKey (factionA factionB : Faction.t) : string :=
  let a := Faction.value factionA in
  let b := Faction.value factionB in
  let sorted := if String.ltb b a then (b, a) else (a, b) in
  sorted.1 +:+ "_" +:+ sorted.2.

Definition setRelation (ds : t) (factionA factionB : Faction.t) (v : Z) : t :=
  let clampedValue := Z.max (-100) (Z.min 100 v) in
  {| relations := <[ getRelationKey factionA factionB := clampedValue ]> (relations ds);
     actionHistory := actionHistory ds |}.

Definition getRelation (ds : t) (factionA factionB : Faction.t) : Z :=
  if bool_decide (factionA = factionB) then 100
  else
    match relations ds !! getRelationKey factionA factionB with
    | Some relation => relation
    | None => 0
    end.

Definition modifyRelation (ds : t) (factionA factionB : Faction.t)
    (delta : Z) (actionType description : string) : t :=
  let currentRelation := getRelation ds factionA factionB in
  let newRelation := Z.max (-100) (Z.min 100 (currentRelation + delta)) in
  let ds' := setRelation ds factionA factionB newRelation in
  let action :=
    {| actionType := actionType; description := description;
       value := delta; origin := factionA; target := factionB |} in
  {| relations := relations ds';
     actionHistory := actionHistory ds' ++ [action] |}.

Definition getRelationshipStatus (ds : t) (factionA factionB : Faction.t)
  : RelationshipStatus.t :=
  let score := getRelation ds factionA factionB in
  if score <=? -60 then RelationshipStatus.WAR
  else if score <=? -20 then RelationshipStatus.HOSTILE
  else if score <? 20 then RelationshipStatus.NEUTRAL
  else if score <? 60 then RelationshipStatus.FRIENDLY
  else RelationshipStatus.ALLIED.

(** The constructor. *)
Definition new : t :=
  let ds0 := {| relations := ∅; actionHistory := [] |} in
  let ds1 := setRelation ds0 Faction.PLAYER Faction.ENEMY (-80) in
  let ds2 := setRelation ds1 Faction.PLAYER Faction.NEUTRAL 0 in
  setRelation ds2 Faction.ENEMY Faction.NEUTRAL (-10).

(** A call of one of the two mutating methods, and a program that is a
    sequence of such calls. *)
Inductive call :=
  | SetRelation (factionA factionB : Faction.t) (v : Z)
  | ModifyRelation (factionA factionB : Faction.t) (delta : Z)
      (actionType description : string).

Definition perform (ds : t) (c : call) : t :=
  match c with
  | SetRelation a b v => setRelation ds a b v
  | ModifyRelation a b delta ty descr => modifyRelation ds a b delta ty descr
  end.

Definition performAll (ds : t) (calls : list call) : t :=
  foldl perform ds calls.

(** [getRelativeColor], called with both arguments (the second defaults
    to the player's faction). *)
Definition getRelativeColor (ds : t) (faction relativeTo : Faction.t) : string :=
  if bool_decide (faction = relativeTo) then "#14e314"
  else
    match getRelationshipStatus ds faction relativeTo with
    | RelationshipStatus.WAR => "#e31414"
    | RelationshipStatus.HOSTILE => "#f97316"
    | RelationshipStatus.NEUTRAL => "#888888"
    | RelationshipStatus.FRIENDLY => "#3b82f6"
    | RelationshipStatus.ALLIED => "#14e314"
    end.

(** [getActionHistory] hands out a copy of the history. *)
Definition getActionHistory (ds : t) : list DiplomaticAction :=
  actionHistory ds.

End DiplomacySystem.

(** ** src/services/SupplySystem.ts *)

Module SupplySystem.

Record SupplyBase := {
  baseId : string;
  basePosition : GridPosition;
  baseFaction : Faction.t;
  baseName : string;
  fuelProduction : Z;
  ammunitionProduction : Z;
  supplyRange : Z;
  capturable : bool
}.

(** [{ ...base, faction: newFaction }] *)
Definition withFaction (newFaction : Faction.t) (b : SupplyBase) : SupplyBase :=
  {| baseId := baseId b; basePosition := basePosition b;
     baseFaction := newFaction; baseName := baseName b;
     fuelProduction := fuelProduction b;
     ammunitionProduction := ammunitionProduction b;
     supplyRange := supplyRange b; capturable := capturable b |}.

(** The private field [bases]; the cached routes are only written by
    [calculateSupplyRoutes] and read by nothing modelled here. *)
Record t := { bases : list SupplyBase }.

Definition addBase (ss : t) (base : SupplyBase) : t :=
  {| bases := bases ss ++ [base] |}.

(** The constructor, for a map of the given size. *)
Definition new (map : GameMap) : t :=
  let ss0 := {| bases := [] |} in
  let ss1 := addBase ss0
    {| baseId := "player-hq"; basePosition := mkPos 2 2;
       baseFaction := Faction.PLAYER; baseName := "Player HQ";
       fuelProduction := 20; ammunitionProduction := 15;
       supplyRange := 8; capturable := false |} in
  let ss2 := addBase ss1
    {| baseId := "enemy-hq";
       basePosition := mkPos (width map - 3) (height map - 3);
       baseFaction := Faction.ENEMY; baseName := "Enemy HQ";
       fuelProduction := 20; ammunitionProduction := 15;
       supplyRange := 8; capturable := false |} in
  let ss3 := addBase ss2
    {| baseId := "outpost-1";
       basePosition := mkPos (width map / 2) (height map / 2);
       baseFaction := Faction.NEUTRAL; baseName := "Central Outpost";
       fuelProduction := 15; ammunitionProduction := 10;
       supplyRange := 6; capturable := true |} in
  let ss4 := addBase ss3
    {| baseId := "outpost-2";
       basePosition := mkPos (width map / 3) (height map * 2 / 3);
       baseFaction := Faction.NEUTRAL; baseName := "West Outpost";
       fuelProduction := 10; ammunitionProduction := 5;
       supplyRange := 5; capturable := true |} in
  addBase ss4
    {| baseId := "outpost-3";
       basePosition := mkPos (width map * 2 / 3) (height map / 3);
       baseFaction := Faction.NEUTRAL; baseName := "East Outpost";
       fuelProduction := 5; ammunitionProduction := 10;
       supplyRange := 5; capturable := true |}.

Definition getBasesByFaction (ss : t) (f : Faction.t) : list SupplyBase :=
  List.filter (fun base => bool_decide (baseFaction base = f)) (bases ss).

(** Returns the flag together with the updated system. *)
Definition captureBase (ss : t) (id : string) (newFaction : Faction.t)
  : bool * t :=
  match list_find (fun base => baseId base = id) (bases ss) with
  | None => (false, ss)
  | Some (baseIndex, base) =>
      if negb (capturable base) then (false, ss)
      else (true, {| bases := <[ baseIndex := withFaction newFaction base ]> (bases ss) |})
  end.

Record UnitSupply := {
  inSupplyRange : bool;
  nearestBase : option SupplyBase;
  supplyDistance : option Z;
  canReceiveFuel : bool;
  canReceiveAmmo : bool
}.

(** One iteration of the scan in [calculateUnitSupply].  The accumulator
    holds [nearestBase] and [minDistance] together: they are assigned
    together, and [None] is the initial [undefined] / [Infinity]. *)
Definition nearerBase (unitPosition : GridPosition)
    (acc : option (SupplyBase * Z)) (base : SupplyBase)
  : option (SupplyBase * Z) :=
  let distance := manhattanDistance unitPosition (basePosition base) in
  if (distance <=? supplyRange base)
     && match acc with
        | None => true
        | Some (_, minDistance) => distance <? minDistance
        end
  then Some (base, distance)
  else acc.

Definition calculateUnitSupply (ss : t) (unit : UnitData)
    (unitPosition : GridPosition) : UnitSupply :=
  let factionalBases := getBasesByFaction ss (faction unit) in
  let found := foldl (nearerBase unitPosition) None factionalBases in
  {| inSupplyRange := bool_decide (is_Some found);
     nearestBase := fst <$> found;
     supplyDistance := snd <$> found;
     canReceiveFuel :=
       match found with
       | Some (b, _) => 0 <? fuelProduction b
       | None => false
       end;
     canReceiveAmmo :=
       match found with
       | Some (b, _) => 0 <? ammunitionProduction b
       | None => false
       end |}.

Record ResourceConsumption := {
  fuelConsumed : Z;
  ammunitionConsumed : Z
}.

Definition calculateCombatConsumption (unit : UnitData) : ResourceConsumption :=
  {| fuelConsumed := 0; ammunitionConsumed := ammunitionConsumptionRate unit |}.

(** [canUnitAttack]: the flag and the optional reason. *)
Definition canUnitAttack (unit : UnitData) : bool * option string :=
  let consumption := calculateCombatConsumption unit in
  if ammunitionCurrent unit <? ammunitionConsumed consumption
  then (false, Some "Not enough ammunition")
  else (true, None).

Record Resupply := {
  fuelAdded : Z;
  ammoAdded : Z;
  resupplied : bool
}.

(** [resupplyUnit] writes both supply fields of the unit it is given;
    the updated unit is returned next to the report. *)
Definition resupplyUnit (ss : t) (unit : UnitData) (position : GridPosition)
  : Resupply * UnitData :=
  let supplyInfo := calculateUnitSupply ss unit position in
  match inSupplyRange supplyInfo, nearestBase supplyInfo with
  | true, Some base =>
      let fuelNeeded := fuelMax unit - fuelCurrent unit in
      let ammoNeeded := ammunitionMax unit - ammunitionCurrent unit in
      let fuelAdded := Z.min fuelNeeded (fuelProduction base) in
      let ammoAdded := Z.min ammoNeeded (ammunitionProduction base) in
      let unit1 := set_fuelCurrent (fuelCurrent unit + fuelAdded) unit in
      let unit2 :=
        set_ammunitionCurrent (ammunitionCurrent unit1 + ammoAdded) unit1 in
      ({| fuelAdded := fuelAdded; ammoAdded := ammoAdded;
          resupplied := (0 <? fuelAdded) || (0 <? ammoAdded) |}, unit2)
  | _, _ =>
      ({| fuelAdded := 0; ammoAdded := 0; resupplied := false |}, unit)
  end.

(** [getBases] hands out a copy of the array. *)
Definition getBases (ss : t) : list SupplyBase := bases ss.

(** [getBaseAtPosition]: the first base standing on the position. *)
Definition getBaseAtPosition (ss : t) (position : GridPosition)
  : option SupplyBase :=
  List.find
    (fun base => (x (basePosition base) =? x position)
                 && (y (basePosition base) =? y position))
    (bases ss).

Definition calculateMovementConsumption (unit : UnitData)
    (path : list GridPosition) : ResourceConsumption :=
  let tilesCount := Z.max 0 (Z.of_nat (length path) - 1) in
  {| fuelConsumed := tilesCount * fuelConsumptionRate unit;
     ammunitionConsumed := 0 |}.

(** [canUnitMove]: the flag and the optional reason. *)
Definition canUnitMove (unit : UnitData) (path : list GridPosition)
  : bool * option string :=
  let consumption := calculateMovementConsumption unit path in
  if fuelCurrent unit <? fuelConsumed consumption
  then (false, Some "Not enough fuel")
  else (true, None).

(** The [type] tag of a route: ['fuel' | 'ammo' | 'both']. *)
Inductive SupplyRouteType := FUEL | AMMO | BOTH.

Record SupplyRoute := {
  routeStart : SupplyBase;
  routeEnd : GridPosition;
  routePath : list GridPosition;
  routeCost : Z;
  routeType : SupplyRouteType
}.

(** The pairs [(l[i], l[j])] with [i < j], in the order of the two nested
    [for] loops of [calculateSupplyRoutes]. *)
Fixpoint orderedPairs {A} (l : list A) : list (A * A) :=
  match l with
  | [] => []
  | a :: rest => List.map (pair a) rest ++ orderedPairs rest
  end.

(** The body of the inner loop, on the routes collected so far. *)
Definition addRoute (map : GameMap) (routes : outcome (list SupplyRoute))
    (pair : SupplyBase * SupplyBase) : outcome (list SupplyRoute) :=
  match routes with
  | Returned routes =>
      let start := pair.1 in
      let end_ := basePosition pair.2 in
      match PathFinder.findPath map MovementType.GROUND
              (basePosition start) end_ None with
      | Returned (Some pathResult) =>
          Returned (routes ++
                      [ {| routeStart := start; routeEnd := end_;
                           routePath := PathFinder.path pathResult;
                           routeCost := PathFinder.cost pathResult;
                           routeType := BOTH |} ])
      | Returned None => Returned routes
      | Thrown => Thrown
      | OutOfFuel => OutOfFuel
      end
  | Thrown => Thrown
  | OutOfFuel => OutOfFuel
  end.

(** [calculateSupplyRoutes]: the routes it returns, which it also
    caches.  [map] is the map that the system was constructed with, over
    which its path finder searches. *)
Definition calculateSupplyRoutes (ss : t) (map : GameMap) (f : Faction.t)
  : outcome (list SupplyRoute) :=
  foldl (addRoute map) (Returned []) (orderedPairs (getBasesByFaction ss f)).

End SupplySystem.

(** ** src/services/CombatSystem.ts *)

(** [Math.round]: the nearest integer, halves going up. *)
Definition Math_round (q : Q) : Z := Qfloor (q + (1 # 2)).

Module CombatSystem.

(** Units are objects shared with the caller: a unit argument is a
    reference into the store of all unit objects. *)
Abbreviation unitRef := nat.
Abbreviation UnitStore := (nat -> UnitData).

Record DiplomaticConsequence := {
  consequenceType : string;
  consequenceValue : Z;
  consequenceDescription : string
}.

Record CombatResult := {
  attacker : unitRef;
  defender : unitRef;
  damage : Z;
  isKill : bool;
  defenderRemainingHealth : Z;
  ammunitionConsumed : Z;
  diplomaticConsequence : option DiplomaticConsequence
}.

Record TerrainModifiers := {
  attackModifier : Q;
  defenseModifier : Q
}.

(** The private fields of the class; the two optional collaborators are
    objects that [resolveCombat] may write, so they travel with it. *)
Record t := {
  map : GameMap;
  diplomacySystem : option DiplomacySystem.t;
  supplySystem : option SupplySystem.t
}.

Definition classAdvantage (a d : UnitClass.t) : Q :=
  match a, d with
  | UnitClass.INFANTRY, UnitClass.INFANTRY => 1.0
  | UnitClass.INFANTRY, UnitClass.VEHICLE => 0.7
  | UnitClass.INFANTRY, UnitClass.AIRCRAFT => 0.4
  | UnitClass.VEHICLE, UnitClass.INFANTRY => 1.5
  | UnitClass.VEHICLE, UnitClass.VEHICLE => 1.0
  | UnitClass.VEHICLE, UnitClass.AIRCRAFT => 0.6
  | UnitClass.AIRCRAFT, UnitClass.INFANTRY => 1.8
  | UnitClass.AIRCRAFT, UnitClass.VEHICLE => 1.4
  | UnitClass.AIRCRAFT, UnitClass.AIRCRAFT => 1.0
  end%Q.

Definition getTerrainModifiers (terrainType : TerrainType.t) : TerrainModifiers :=
  match terrainType with
  | TerrainType.PLAINS => {| attackModifier := 1.0; defenseModifier := 1.0 |}
  | TerrainType.FOREST => {| attackModifier := 0.9; defenseModifier := 1.2 |}
  | TerrainType.MOUNTAIN => {| attackModifier := 1.1; defenseModifier := 1.3 |}
  | TerrainType.WATER => {| attackModifier := 0.8; defenseModifier := 0.7 |}
  end%Q.

(** [resolveCombat], on the unit store.  The result carries the combat
    system (whose diplomacy ledger may have been written) and the store
    (in which the attacker's ammunition may have been written). *)
Definition resolveCombat (cs : t) (units : UnitStore)
    (attacker : unitRef) (attackerPos : GridPosition)
    (defender : unitRef) (defenderPos : GridPosition)
  : outcome (CombatResult * t * UnitStore) :=
  (* Check if attacker has enough ammunition *)
  let ammoCheck : option (Z * UnitStore) :=
    match supplySystem cs with
    | Some ss =>
        let supplyCheck := SupplySystem.canUnitAttack (units attacker) in
        if negb supplyCheck.1 then None
        else
          let ammunitionConsumed := ammunitionConsumptionRate (units attacker) in
          Some (ammunitionConsumed,
                <[ attacker :=
                     set_ammunitionCurrent
                       (ammunitionCurrent (units attacker) - ammunitionConsumed)
                       (units attacker) ]> units)
    | None => Some (0, units)
    end in
  match ammoCheck with
  | None =>
      Returned
        ({| attacker := attacker; defender := defender;
            damage := 1;
            isKill := health (units defender) <=? 1;
            defenderRemainingHealth := Z.max 0 (health (units defender) - 1);
            ammunitionConsumed := 0;
            diplomaticConsequence := None |}, cs, units)
  | Some (ammunitionConsumed, units1) =>
      match tileAt (map cs) attackerPos, tileAt (map cs) defenderPos with
      | Some attackerTile, Some defenderTile =>
          let attackerMods := getTerrainModifiers (type (terrain attackerTile)) in
          let defenderMods := getTerrainModifiers (type (terrain defenderTile)) in
          let damage0 := inject_Z (attackPower (units1 attacker)) in
          let damage1 :=
            (damage0 * classAdvantage (unitClass (units1 attacker))
                                      (unitClass (units1 defender)))%Q in
          let damage2 := (damage1 * attackModifier attackerMods)%Q in
          let effectiveDefense :=
            (inject_Z (defense (units1 defender)) * defenseModifier defenderMods)%Q in
          let damage3 :=
            match supplySystem cs with
            | Some ss =>
                let defenderSupply :=
                  SupplySystem.calculateUnitSupply ss (units1 defender) defenderPos in
                if negb (SupplySystem.inSupplyRange defenderSupply)
                then (damage2 * 1.2)%Q
                else damage2
            | None => damage2
            end in
          let finalDamage := Z.max 1 (Math_round (damage3 - effectiveDefense)) in
          let remainingHealth := Z.max 0 (health (units1 defender) - finalDamage) in
          let isKill := remainingHealth <=? 0 in
          let '(diplomacy', consequence) :=
            match diplomacySystem cs with
            | Some ds =>
                if bool_decide (faction (units1 attacker) ≠ faction (units1 defender))
                then
                  let actionType := if isKill then "DESTROY_UNIT" else "ATTACK_UNIT" in
                  let actionValue := if isKill then -25 else -15 in
                  (Some (DiplomacySystem.modifyRelation ds
                           (faction (units1 attacker)) (faction (units1 defender))
                           actionValue actionType
                           (unitName (units1 attacker) +:+ " "
                              +:+ (if isKill then "destroyed" else "attacked")
                              +:+ " " +:+ unitName (units1 defender))),
                   Some {| consequenceType := actionType;
                           consequenceValue := actionValue;
                           consequenceDescription :=
                             (if isKill then "Destroying" else "Attacking")
                               +:+ " enemy units decreases diplomatic relations" |})
                else (Some ds, None)
            | None => (None, None)
            end in
          Returned
            ({| attacker := attacker; defender := defender;
                damage := finalDamage;
                isKill := isKill;
                defenderRemainingHealth := remainingHealth;
                ammunitionConsumed := ammunitionConsumed;
                diplomaticConsequence := consequence |},
             {| map := map cs; diplomacySystem := diplomacy';
                supplySystem := supplySystem cs |},
             units1)
      | _, _ => Thrown
      end
  end.

End CombatSystem.

(** ** JavaScript numbers *)

(** Quotients of JavaScript numbers.  The numbers of the program are
    integers and exact rationals; a division can besides give an
    infinity or NaN, when its divisor is zero. *)
Module JsNumber.

Inductive t := Finite (q : Q) | PlusInfinity | MinusInfinity | NotANumber.

(** [a / b] for integers [a] and [b]. *)
Definition divide (a b : Z) : t :=
  if b =? 0
  then if 0 <? a then PlusInfinity
       else if a <? 0 then MinusInfinity
       else NotANumber
  else Finite (inject_Z a / inject_Z b).

(** [a - b] *)
Definition minus (a b : t) : t :=
  match a, b with
  | NotANumber, _ | _, NotANumber => NotANumber
  | Finite p, Finite q => Finite (p - q)
  | PlusInfinity, PlusInfinity => NotANumber
  | MinusInfinity, MinusInfinity => NotANumber
  | PlusInfinity, _ => PlusInfinity
  | MinusInfinity, _ => MinusInfinity
  | Finite _, PlusInfinity => MinusInfinity
  | Finite _, MinusInfinity => PlusInfinity
  end.

(** [a < b]; a comparison with NaN is false. *)
Definition less (a b : t) : bool :=
  match a, b with
  | NotANumber, _ | _, NotANumber => false
  | Finite p, Finite q => negb (Qle_bool q p)
  | _, MinusInfinity => false
  | MinusInfinity, _ => true
  | PlusInfinity, _ => false
  | Finite _, PlusInfinity => true
  end.

(** [a <= b] *)
Definition lessEq (a b : t) : bool :=
  match a, b with
  | NotANumber, _ | _, NotANumber => false
  | Finite p, Finite q => Qle_bool p q
  | MinusInfinity, _ => true
  | _, PlusInfinity => true
  | _, MinusInfinity => false
  | PlusInfinity, _ => false
  end.

(** An integer as a number. *)
Definition ofInteger (z : Z) : t := Finite (inject_Z z).

(** [a + b]; a finite sum is the exact one. *)
Definition plus (a b : t) : t :=
  match a, b with
  | NotANumber, _ | _, NotANumber => NotANumber
  | Finite p, Finite q => Finite (p + q)
  | PlusInfinity, MinusInfinity => NotANumber
  | MinusInfinity, PlusInfinity => NotANumber
  | PlusInfinity, _ => PlusInfinity
  | MinusInfinity, _ => MinusInfinity
  | Finite _, PlusInfinity => PlusInfinity
  | Finite _, MinusInfinity => MinusInfinity
  end.

(** [Math.max(a, b)]: NaN when either argument is NaN, else the larger. *)
Definition max (a b : t) : t :=
  match a, b with
  | NotANumber, _ | _, NotANumber => NotANumber
  | _, _ => if less a b then b else a
  end.

(** [Math.min(a, b)]: NaN when either argument is NaN, else the smaller. *)
Definition min (a b : t) : t :=
  match a, b with
  | NotANumber, _ | _, NotANumber => NotANumber
  | _, _ => if less b a then b else a
  end.

(** [Number.isNaN(a)] *)
Definition isNaN (a : t) : bool :=
  match a with
  | NotANumber => true
  | _ => false
  end.

End JsNumber.

(** ** src/services/DiplomacySystem.ts, at every JavaScript number *)

(** [setRelation] and [modifyRelation] take a [number], and the map
    stores what [Math.max(-100, Math.min(100, value))] gives.  This module
    has the methods of [DiplomacySystem] with scores, values and deltas
    ranging over [JsNumber.t]: integers, fractions, both infinities and
    NaN.  A finite sum is exact here, where the program rounds it to a
    double; the sum is clamped next, and rounding moves no number across
    -100 or 100. *)
Module DiplomacyNumbers.

Record DiplomaticAction := {
  actionType : string;
  description : string;
  value : JsNumber.t;
  origin : Faction.t;
  target : Faction.t
}.

Record t := {
  relations : gmap string JsNumber.t;
  actionHistory : list DiplomaticAction
}.

Definition setRelation (ds : t) (factionA factionB : Faction.t)
    (v : JsNumber.t) : t :=
  let clampedValue :=
    JsNumber.max (JsNumber.Finite (-100))
      (JsNumber.min (JsNumber.Finite 100) v) in
  {| relations :=
       <[ DiplomacySystem.getRelationKey factionA factionB := clampedValue ]>
         (relations ds);
     actionHistory := actionHistory ds |}.

Definition getRelation (ds : t) (factionA factionB : Faction.t) : JsNumber.t :=
  if bool_decide (factionA = factionB) then JsNumber.Finite 100
  else
    match relations ds !! DiplomacySystem.getRelationKey factionA factionB with
    | Some relation => relation
    | None => JsNumber.Finite 0
    end.

Definition modifyRelation (ds : t) (factionA factionB : Faction.t)
    (delta : JsNumber.t) (actionType description : string) : t :=
  let currentRelation := getRelation ds factionA factionB in
  let newRelation :=
    JsNumber.max (JsNumber.Finite (-100))
      (JsNumber.min (JsNumber.Finite 100)
         (JsNumber.plus currentRelation delta)) in
  let ds' := setRelation ds factionA factionB newRelation in
  let action :=
    {| actionType := actionType; description := description;
       value := delta; origin := factionA; target := factionB |} in
  {| relations := relations ds';
     actionHistory := actionHistory ds' ++ [action] |}.

Definition getRelationshipStatus (ds : t) (factionA factionB : Faction.t)
  : RelationshipStatus.t :=
  let score := getRelation ds factionA factionB in
  if JsNumber.lessEq score (JsNumber.Finite (-60)) then RelationshipStatus.WAR
  else if JsNumber.lessEq score (JsNumber.Finite (-20))
  then RelationshipStatus.HOSTILE
  else if JsNumber.less score (JsNumber.Finite 20)
  then RelationshipStatus.NEUTRAL
  else if JsNumber.less score (JsNumber.Finite 60)
  then RelationshipStatus.FRIENDLY
  else RelationshipStatus.ALLIED.

(** The constructor. *)
Definition new : t :=
  let ds0 := {| relations := ∅; actionHistory := [] |} in
  let ds1 :=
    setRelation ds0 Faction.PLAYER Faction.ENEMY (JsNumber.Finite (-80)) in
  let ds2 :=
    setRelation ds1 Faction.PLAYER Faction.NEUTRAL (JsNumber.Finite 0) in
  setRelation ds2 Faction.ENEMY Faction.NEUTRAL (JsNumber.Finite (-10)).

(** A call of one of the two mutating methods, and a sequence of calls. *)
Inductive call :=
  | SetRelation (factionA factionB : Faction.t) (v : JsNumber.t)
  | ModifyRelation (factionA factionB : Faction.t) (delta : JsNumber.t)
      (actionType description : string).

Definition perform (ds : t) (c : call) : t :=
  match c with
  | SetRelation a b v => setRelation ds a b v
  | ModifyRelation a b delta ty descr => modifyRelation ds a b delta ty descr
  end.

Definition performAll (ds : t) (calls : list call) : t :=
  foldl perform ds calls.

End DiplomacyNumbers.

(** ** src/services/UtilityAI.ts *)

Module AIAction.
Inductive t := IDLE | MOVE_TO_ENEMY | ATTACK | RETREAT | PATROL.
End AIAction.

Module UtilityAI.

Record AIContext := {
  unit : UnitData;
  position : GridPosition;
  enemies : list (UnitData * GridPosition);
  allies : list (UnitData * GridPosition)
}.

Record UtilityResult := {
  action : AIAction.t;
  score : Q;
  targetPosition : option GridPosition;
  targetUnit : option UnitData
}.

(** [a > b] on rationals. *)
Definition Qgtb (a b : Q) : bool := negb (Qle_bool a b).

(** One iteration of the loop over [enemies] in [evaluateMoveToEnemy]; the
    accumulator is [highestScore], [targetEnemy], [targetPosition].  The
    two quotients are rationals: this is the loop for a unit whose
    [maxHealth] and [detectionRange] are not zero. *)
Definition considerPursuit (unit : UnitData) (position : GridPosition)
    (acc : Q * option UnitData * option GridPosition)
    (enemy : UnitData * GridPosition)
  : Q * option UnitData * option GridPosition :=
  let '(highestScore, targetEnemy, targetPosition) := acc in
  let distance := manhattanDistance position enemy.2 in
  if (attackRange unit <? distance) && (distance <=? detectionRange unit)
  then
    let healthRatio := (inject_Z (health unit) / inject_Z (maxHealth unit))%Q in
    let score :=
      ((aggressiveness unit * 0.6)
       + (sensorWeight unit * 0.3)
       + (if Qgtb healthRatio 0.7 then 0.2 else -0.1)
       + (1 - (inject_Z distance / inject_Z (detectionRange unit)) * 0.2))%Q in
    if Qgtb score highestScore
    then (score, Some enemy.1, Some enemy.2)
    else acc
  else acc.

Definition evaluateMoveToEnemy (context : AIContext) : UtilityResult :=
  match enemies context with
  | [] =>
      {| action := AIAction.MOVE_TO_ENEMY; score := 0;
         targetPosition := None; targetUnit := None |}
  | _ =>
      let '(highestScore, targetEnemy, targetPosition) :=
        foldl (considerPursuit (unit context) (position context))
              (0%Q, None, None) (enemies context) in
      {| action := AIAction.MOVE_TO_ENEMY; score := highestScore;
         targetPosition := targetPosition; targetUnit := targetEnemy |}
  end.

(** One iteration of the loop over [enemies] in [evaluateAttack]; the
    accumulator is [highestScore], [targetEnemy], [targetPosition]. *)
Definition considerAttack (unit : UnitData) (position : GridPosition)
    (acc : Q * option UnitData * option GridPosition)
    (enemy : UnitData * GridPosition)
  : Q * option UnitData * option GridPosition :=
  let '(highestScore, targetEnemy, targetPosition) := acc in
  let distance := manhattanDistance position enemy.2 in
  if distance <=? attackRange unit
  then
    let healthRatio := JsNumber.divide (health unit) (maxHealth unit) in
    let enemyHealthRatio :=
      JsNumber.divide (health enemy.1) (maxHealth enemy.1) in
    let powerDiff := attackPower unit - defense enemy.1 in
    let healthAdvantage := JsNumber.minus healthRatio enemyHealthRatio in
    let score :=
      ((aggressiveness unit * 0.5)
       + (if JsNumber.less enemyHealthRatio (JsNumber.Finite 0.3) then 0.3 else 0)
       + (if JsNumber.less (JsNumber.Finite 0) healthAdvantage then 0.2 else -0.1)
       + (if 0 <? powerDiff then 0.2 else -0.1))%Q in
    if Qgtb score highestScore
    then (score, Some enemy.1, Some enemy.2)
    else acc
  else acc.

Definition evaluateAttack (context : AIContext) : UtilityResult :=
  let '(highestScore, targetEnemy, targetPosition) :=
    foldl (considerAttack (unit context) (position context))
          (0%Q, None, None) (enemies context) in
  {| action := AIAction.ATTACK; score := highestScore;
     targetPosition := targetPosition; targetUnit := targetEnemy |}.

(** One iteration of the search for the nearest ally in
    [evaluateRetreat]; the accumulator is [retreatPosition] and
    [minDistance], [None] being the initial [undefined] and [Infinity]. *)
Definition nearerAlly (position : GridPosition)
    (acc : option GridPosition * option Z) (ally : UnitData * GridPosition)
  : option GridPosition * option Z :=
  let distance := manhattanDistance position ally.2 in
  if match acc.2 with
     | None => true
     | Some minDistance => distance <? minDistance
     end && (0 <? distance)
  then (Some ally.2, Some distance)
  else acc.

(** [evaluateRetreat]; the context's [map] is passed next to it. *)
Definition evaluateRetreat (map : GameMap) (context : AIContext)
  : UtilityResult :=
  let unit := unit context in
  let position := position context in
  let healthRatio := JsNumber.divide (health unit) (maxHealth unit) in
  let retreatScore0 := 0%Q in
  let retreatScore1 :=
    if JsNumber.less healthRatio (JsNumber.Finite 0.3)
    then (retreatScore0 + 0.7)%Q
    else if JsNumber.less healthRatio (JsNumber.Finite 0.5)
         then (retreatScore0 + 0.4)%Q
         else retreatScore0 in
  let nearbyEnemies :=
    List.filter
      (fun e => manhattanDistance position e.2 <=? detectionRange unit)
      (enemies context) in
  let nearbyAllies :=
    List.filter
      (fun a => manhattanDistance position a.2 <=? detectionRange unit)
      (allies context) in
  let retreatScore2 :=
    if (length nearbyAllies + 1 <? length nearbyEnemies)%nat
    then (retreatScore1 + 0.3)%Q
    else retreatScore1 in
  let retreatScore3 :=
    (retreatScore2 + (1 - aggressiveness unit) * 0.3)%Q in
  let retreatPosition0 :=
    (foldl (nearerAlly position) (None, None) (allies context)).1 in
  let retreatPosition1 :=
    match retreatPosition0 with
    | None =>
        if (0 <? length nearbyEnemies)%nat
        then
          let count := inject_Z (Z.of_nat (length nearbyEnemies)) in
          let avgX :=
            (inject_Z (foldl (fun sum e => (sum + x e.2)%Z) 0%Z nearbyEnemies)
             / count)%Q in
          let avgY :=
            (inject_Z (foldl (fun sum e => (sum + y e.2)%Z) 0%Z nearbyEnemies)
             / count)%Q in
          let awayX :=
            x position + (if Qgtb (inject_Z (x position)) avgX then 2 else -2) in
          let awayY :=
            y position + (if Qgtb (inject_Z (y position)) avgY then 2 else -2) in
          Some (mkPos (Z.max 0 (Z.min (width map - 1) awayX))
                      (Z.max 0 (Z.min (height map - 1) awayY)))
        else None
    | Some p => Some p
    end in
  {| action := AIAction.RETREAT; score := retreatScore3;
     targetPosition := retreatPosition1; targetUnit := None |}.

(** [evaluatePatrol]; the context's [map] is passed next to it, and so
    are the two numbers that [Math.random()] returns. *)
Definition evaluatePatrol (map : GameMap) (context : AIContext)
    (randomX randomY : Q) : UtilityResult :=
  let position := position context in
  let patrolScore := 0.2%Q in
  let patrolRadius := 3 in
  let patrolX :=
    x position
    + Qfloor (randomX * inject_Z (patrolRadius * 2 + 1)) - patrolRadius in
  let patrolY :=
    y position
    + Qfloor (randomY * inject_Z (patrolRadius * 2 + 1)) - patrolRadius in
  {| action := AIAction.PATROL; score := patrolScore;
     targetPosition :=
       Some (mkPos (Z.max 0 (Z.min (width map - 1) patrolX))
                   (Z.max 0 (Z.min (height map - 1) patrolY)));
     targetUnit := None |}.

Definition evaluateIdle (context : AIContext) : UtilityResult :=
  {| action := AIAction.IDLE; score := 0.1;
     targetPosition := None; targetUnit := None |}.

(** [evaluations.sort((a, b) => b.score - a.score)]: the sort is stable,
    so its result is the one of a stable insertion sort by falling
    score. *)
Fixpoint insertByScore (r : UtilityResult) (l : list UtilityResult)
  : list UtilityResult :=
  match l with
  | [] => [r]
  | m :: l' =>
      if Qle_bool (score m) (score r) then r :: l else m :: insertByScore r l'
  end.

Definition sortByScore (l : list UtilityResult) : list UtilityResult :=
  foldr insertByScore [] l.

(** [evaluateBestAction]: the first entry of the sorted array of the
    five evaluations. *)
Definition evaluateBestAction (map : GameMap) (context : AIContext)
    (randomX randomY : Q) : UtilityResult :=
  let evaluations :=
    [ evaluateAttack context;
      evaluateMoveToEnemy context;
      evaluateRetreat map context;
      evaluatePatrol map context randomX randomY;
      evaluateIdle context ] in
  hd (evaluateIdle context) (sortByScore evaluations).

End UtilityAI.

(** ** src/services/BehaviorTree.ts *)

Module NodeState.
Inductive t := SUCCESS | FAILURE | RUNNING.
#[global] Instance eq_dec : EqDecision t.
Proof. solve_decision. Defined.
End NodeState.

Module CheckEnemyByDiplomacyNode.

Record t := {
  unit : UnitData;
  position : GridPosition;
  units : list (UnitData * GridPosition);
  relationshipStatus : RelationshipStatus.t;
  range : Z;
  _state : NodeState.t
}.

(** The constructor; [range] defaults to [-1]. *)
Definition new (unit : UnitData) (position : GridPosition)
    (units : list (UnitData * GridPosition))
    (relationshipStatus : RelationshipStatus.t) (range : option Z) : t :=
  let range := default (-1) range in
  {| unit := unit; position := position; units := units;
     relationshipStatus := relationshipStatus;
     range := if 0 <? range then range else detectionRange unit;
     _state := NodeState.FAILURE |}.

(** The predicate handed to [this.units.filter]. *)
Definition isHostile (node : t) (other : UnitData * GridPosition) : bool :=
  if (bool_decide (relationshipStatus node = RelationshipStatus.WAR)
      || bool_decide (relationshipStatus node = RelationshipStatus.HOSTILE))
     && bool_decide (faction other.1 = faction (unit node))
  then false
  else
    let distance := manhattanDistance (position node) other.2 in
    distance <=? range node.

(** [execute] returns the state and caches it in the node. *)
Definition execute (node : t) : NodeState.t * t :=
  let hostileUnits := List.filter (isHostile node) (units node) in
  let state :=
    if (0 <? length hostileUnits)%nat then NodeState.SUCCESS
    else NodeState.FAILURE in
  (state,
   {| unit := unit node; position := position node; units := units node;
      relationshipStatus := relationshipStatus node; range := range node;
      _state := state |}).

End CheckEnemyByDiplomacyNode.

Module BehaviorTree.

Section Nodes.

(** The condition and action nodes are objects with an [execute] method
    and the [state] getter of the base class. *)
Context {Leaf : Type}.
Variable executeLeaf : Leaf -> NodeState.t * Leaf.
Variable leafState : Leaf -> NodeState.t.

(** A node owns its children; every node carries its [_state]. *)
Inductive BehaviorNode :=
  | SelectorNode (children : list BehaviorNode) (_state : NodeState.t)
  | SequenceNode (children : list BehaviorNode) (_state : NodeState.t)
  | InverterNode (child : BehaviorNode) (_state : NodeState.t)
  | ParallelNode (children : list BehaviorNode) (requiredSuccesses : Z)
      (_state : NodeState.t)
  | LeafNode (leaf : Leaf).

(** The [state] getter. *)
Definition state (node : BehaviorNode) : NodeState.t :=
  match node with
  | SelectorNode _ s | SequenceNode _ s | InverterNode _ s
  | ParallelNode _ _ s => s
  | LeafNode leaf => leafState leaf
  end.

(** [for (const child of this.children)] of [SelectorNode.execute]: the
    state to return, and the children as the loop leaves them. *)
Definition runSelector (execute : BehaviorNode -> NodeState.t * BehaviorNode)
  : list BehaviorNode -> NodeState.t * list BehaviorNode :=
  fix run children :=
    match children with
    | [] => (NodeState.FAILURE, [])
    | child :: rest =>
        let '(state, child') := execute child in
        if bool_decide (state <> NodeState.FAILURE)
        then (state, child' :: rest)
        else let '(state', rest') := run rest in (state', child' :: rest')
    end.

Definition runSequence (execute : BehaviorNode -> NodeState.t * BehaviorNode)
  : list BehaviorNode -> NodeState.t * list BehaviorNode :=
  fix run children :=
    match children with
    | [] => (NodeState.SUCCESS, [])
    | child :: rest =>
        let '(state, child') := execute child in
        if bool_decide (state <> NodeState.SUCCESS)
        then (state, child' :: rest)
        else let '(state', rest') := run rest in (state', child' :: rest')
    end.

(** The loop of [ParallelNode.execute]: [None] when a running child ends
    it, else the number of successes. *)
Definition runParallel (execute : BehaviorNode -> NodeState.t * BehaviorNode)
  : list BehaviorNode -> Z -> option Z * list BehaviorNode :=
  fix run children successCount :=
    match children with
    | [] => (Some successCount, [])
    | child :: rest =>
        let '(state, child') := execute child in
        match state with
        | NodeState.SUCCESS =>
            let '(r, rest') := run rest (successCount + 1) in (r, child' :: rest')
        | NodeState.RUNNING => (None, child' :: rest)
        | NodeState.FAILURE =>
            let '(r, rest') := run rest successCount in (r, child' :: rest')
        end
    end.

(** [execute]: the returned state, and the node with the states that
    the call has assigned. *)
Fixpoint execute (node : BehaviorNode) : NodeState.t * BehaviorNode :=
  match node with
  | SelectorNode children _ =>
      let '(state, children') := runSelector execute children in
      (state, SelectorNode children' state)
  | SequenceNode children _ =>
      let '(state, children') := runSequence execute children in
      (state, SequenceNode children' state)
  | InverterNode child _ =>
      let '(childState, child') := execute child in
      let state :=
        match childState with
        | NodeState.SUCCESS => NodeState.FAILURE
        | NodeState.FAILURE => NodeState.SUCCESS
        | NodeState.RUNNING => childState
        end in
      (state, InverterNode child' state)
  | ParallelNode children requiredSuccesses _ =>
      match runParallel execute children 0 with
      | (None, children') =>
          (NodeState.RUNNING,
           ParallelNode children' requiredSuccesses NodeState.RUNNING)
      | (Some successCount, children') =>
          let state :=
            if requiredSuccesses <=? successCount
            then NodeState.SUCCESS else NodeState.FAILURE in
          (state, ParallelNode children' requiredSuccesses state)
      end
  | LeafNode leaf =>
      let '(state, leaf') := executeLeaf leaf in (state, LeafNode leaf')
  end.

End Nodes.

End BehaviorTree.

Module CheckSupplyLevelNode.

Record t := {
  unit : UnitData;
  threshold : Q;
  checkFuel : bool;
  checkAmmo : bool;
  _state : NodeState.t
}.

(** The constructor; the defaults are 0.2, true and true. *)
Definition new (unit : UnitData) (threshold : option Q)
    (checkFuel checkAmmo : option bool) : t :=
  {| unit := unit;
     threshold := Qmax 0 (Qmin 1 (default 0.2%Q threshold));
     checkFuel := default true checkFuel;
     checkAmmo := default true checkAmmo;
     _state := NodeState.FAILURE |}.

(** [execute] returns the state and caches it in the node. *)
Definition execute (node : t) : NodeState.t * t :=
  let lowSupply0 := false in
  let lowSupply1 :=
    if checkFuel node
    then
      let fuelRatio :=
        JsNumber.divide (fuelCurrent (unit node)) (fuelMax (unit node)) in
      if JsNumber.lessEq fuelRatio (JsNumber.Finite (threshold node))
      then true else lowSupply0
    else lowSupply0 in
  let lowSupply2 :=
    if negb lowSupply1 && checkAmmo node
    then
      let ammoRatio :=
        JsNumber.divide (ammunitionCurrent (unit node))
          (ammunitionMax (unit node)) in
      if JsNumber.lessEq ammoRatio (JsNumber.Finite (threshold node))
      then true else lowSupply1
    else lowSupply1 in
  let state := if lowSupply2 then NodeState.SUCCESS else NodeState.FAILURE in
  (state,
   {| unit := unit node; threshold := threshold node;
      checkFuel := checkFuel node; checkAmmo := checkAmmo node;
      _state := state |}).

End CheckSupplyLevelNode.

Module FindNearestSupplyBaseNode.

Record t := {
  unit : UnitData;
  position : GridPosition;
  supplyBases : list (GridPosition * Faction.t);
  result : option GridPosition;
  _state : NodeState.t
}.

Definition new (unit : UnitData) (position : GridPosition)
    (supplyBases : list (GridPosition * Faction.t)) : t :=
  {| unit := unit; position := position; supplyBases := supplyBases;
     result := None; _state := NodeState.FAILURE |}.

(** One iteration of the scan; the accumulator is [nearestBase] with
    [minDistance]. *)
Definition nearer (position : GridPosition)
    (acc : (GridPosition * Faction.t) * Z) (base : GridPosition * Faction.t)
  : (GridPosition * Faction.t) * Z :=
  let distance := manhattanDistance position base.1 in
  if distance <? acc.2 then (base, distance) else acc.

(** [execute] returns the state; it caches the state and, on success,
    files the position of the base it has found. *)
Definition execute (node : t) : NodeState.t * t :=
  let friendlyBases :=
    List.filter (fun base => bool_decide (base.2 = faction (unit node)))
      (supplyBases node) in
  match friendlyBases with
  | [] =>
      (NodeState.FAILURE,
       {| unit := unit node; position := position node;
          supplyBases := supplyBases node; result := result node;
          _state := NodeState.FAILURE |})
  | first :: rest =>
      let found :=
        foldl (nearer (position node))
          (first, manhattanDistance (position node) first.1) rest in
      (NodeState.SUCCESS,
       {| unit := unit node; position := position node;
          supplyBases := supplyBases node; result := Some found.1.1;
          _state := NodeState.SUCCESS |})
  end.

Definition getResult (node : t) : option GridPosition := result node.

End FindNearestSupplyBaseNode.

(** ** src/services/UnitController.ts *)

Module UnitController.

Record ResourcesConsumed := { fuel : Z; ammo : Z }.

Record DiplomaticActionTaken := {
  diplomaticType : string;
  diplomaticValue : Z
}.

Record UnitActionResult := {
  success : bool;
  newPosition : option GridPosition;
  targetUnit : option UnitData;
  combatOccurred : option bool;
  unitKilled : option bool;
  message : option string;
  resourcesConsumed : option ResourcesConsumed;
  diplomaticAction : option DiplomaticActionTaken
}.

(** The private fields that the methods below use; the path finder, the
    utility AI and the combat system are built over the same map and the
    same two systems. *)
Record t := {
  map : GameMap;
  diplomacySystem : DiplomacySystem.t;
  supplySystem : SupplySystem.t
}.

Definition new (map : GameMap) : t :=
  {| map := map;
     diplomacySystem := DiplomacySystem.new;
     supplySystem := SupplySystem.new map |}.

(** [s || fallback] for an optional string: a missing and an empty
    string both give way. *)
Definition orElse (s : option string) (fallback : string) : string :=
  match s with
  | Some s => if bool_decide (s = ""%string) then fallback else s
  | None => fallback
  end.

(** [{ success: false, message }] *)
Definition failure (message : string) : UnitActionResult :=
  {| success := false; newPosition := None; targetUnit := None;
     combatOccurred := None; unitKilled := None; message := Some message;
     resourcesConsumed := None; diplomaticAction := None |}.

(** [path.slice(0, end)]: a negative [end] counts from the end of the
    array. *)
Definition sliceTo {A} (l : list A) (end_ : Z) : list A :=
  if end_ <? 0
  then take (Z.to_nat (Z.max (Z.of_nat (length l) + end_) 0)) l
  else take (Z.to_nat end_) l.

(** [executeMove] writes the unit's fuel, the diplomacy ledger and the
    supply system; the updated controller and unit are returned next to
    the result. *)
Definition executeMove (uc : t) (unit : UnitData)
    (currentPos targetPos : GridPosition) (message : option string)
  : outcome (UnitActionResult * t * UnitData) :=
  match PathFinder.findPath (map uc) (movementType unit) currentPos targetPos
          (Some (movementPoints unit)) with
  | Thrown => Thrown
  | OutOfFuel => OutOfFuel
  | Returned None => Returned (failure "No valid path found", uc, unit)
  | Returned (Some pathResult) =>
      let path := PathFinder.path pathResult in
      if (length path <=? 1)%nat
      then Returned (failure "No valid path found", uc, unit)
      else
        let supplyCheck := SupplySystem.canUnitMove unit path in
        if negb supplyCheck.1
        then Returned (failure (orElse supplyCheck.2
                                  "Insufficient resources for movement"),
                       uc, unit)
        else
          let reachableIndex :=
            Z.min (movementPoints unit) (Z.of_nat (length path) - 1) in
          let newPosition :=
            if 0 <=? reachableIndex then path !! Z.to_nat reachableIndex
            else None in
          let resourceConsumption :=
            SupplySystem.calculateMovementConsumption unit
              (sliceTo path (reachableIndex + 1)) in
          let unit' :=
            set_fuelCurrent
              (fuelCurrent unit - SupplySystem.fuelConsumed resourceConsumption)
              unit in
          match newPosition with
          | None =>
              (* [position.x] of [undefined], in [getBaseAtPosition] or in
                 the default message *)
              match SupplySystem.bases (supplySystem uc), message with
              | [], Some m =>
                  if bool_decide (m = ""%string) then Thrown
                  else
                    Returned
                      ({| success := true; newPosition := None;
                          targetUnit := None; combatOccurred := None;
                          unitKilled := None; message := Some m;
                          resourcesConsumed :=
                            Some {| fuel := SupplySystem.fuelConsumed
                                              resourceConsumption;
                                    ammo := 0 |};
                          diplomaticAction := None |}, uc, unit')
              | _, _ => Thrown
              end
          | Some newPosition =>
              let baseAtNewPosition :=
                SupplySystem.getBaseAtPosition (supplySystem uc) newPosition in
              let '(diplomacy', supply', diplomaticAction) :=
                match baseAtNewPosition with
                | Some base =>
                    if bool_decide (SupplySystem.baseFaction base <> faction unit)
                    then
                      let diplomacy1 :=
                        DiplomacySystem.modifyRelation (diplomacySystem uc)
                          (faction unit) (SupplySystem.baseFaction base) (-5)
                          "ENTER_TERRITORY"
                          (unitName unit +:+ " entered territory controlled by "
                             +:+ Faction.value (SupplySystem.baseFaction base)) in
                      if SupplySystem.capturable base
                      then
                        let supply1 :=
                          (SupplySystem.captureBase (supplySystem uc)
                             (SupplySystem.baseId base) (faction unit)).2 in
                        let diplomacy2 :=
                          DiplomacySystem.modifyRelation diplomacy1
                            (faction unit) (SupplySystem.baseFaction base) (-50)
                            "CAPTURE_BASE"
                            (unitName unit +:+ " captured "
                               +:+ SupplySystem.baseName base) in
                        (diplomacy2, supply1,
                         Some {| diplomaticType := "CAPTURE_BASE";
                                 diplomaticValue := -50 |})
                      else
                        (diplomacy1, supplySystem uc,
                         Some {| diplomaticType := "ENTER_TERRITORY";
                                 diplomaticValue := -5 |})
                    else (diplomacySystem uc, supplySystem uc, None)
                | None => (diplomacySystem uc, supplySystem uc, None)
                end in
              Returned
                ({| success := true; newPosition := Some newPosition;
                    targetUnit := None; combatOccurred := None;
                    unitKilled := None;
                    message :=
                      Some (orElse message
                              ("Moved to (" +:+ pretty (x newPosition) +:+ ", "
                                 +:+ pretty (y newPosition) +:+ ")"));
                    resourcesConsumed :=
                      Some {| fuel := SupplySystem.fuelConsumed
                                        resourceConsumption;
                              ammo := 0 |};
                    diplomaticAction := diplomaticAction |},
                 {| map := map uc; diplomacySystem := diplomacy';
                    supplySystem := supply' |},
                 unit')
          end
  end.

(** [Number.MAX_SAFE_INTEGER] *)
Definition MAX_SAFE_INTEGER : Z := 9007199254740991.

(** One iteration of the scan in [executeRetreat]; the accumulator is
    [nearestBase] with [minDistance]. *)
Definition nearerFriendlyBase (currentPos : GridPosition)
    (acc : SupplySystem.SupplyBase * Z) (base : SupplySystem.SupplyBase)
  : SupplySystem.SupplyBase * Z :=
  let distance :=
    Z.abs (x (SupplySystem.basePosition base) - x currentPos)
    + Z.abs (y (SupplySystem.basePosition base) - y currentPos) in
  if distance <? acc.2 then (base, distance) else acc.

Definition executeRetreat (uc : t) (unit : UnitData)
    (currentPos : GridPosition) (message : option string)
  : outcome (UnitActionResult * t * UnitData) :=
  let friendlyBases :=
    SupplySystem.getBasesByFaction (supplySystem uc) (faction unit) in
  match friendlyBases with
  | [] => Returned (failure "No friendly bases to retreat to", uc, unit)
  | first :: _ =>
      let found :=
        foldl (nearerFriendlyBase currentPos) (first, MAX_SAFE_INTEGER)
          friendlyBases in
      executeMove uc unit currentPos (SupplySystem.basePosition found.1)
        (Some (orElse message "Retreating to nearest friendly base"))
  end.

End UnitController.

(** [IsEnemyInRangeNode], the condition node of UnitController.ts. *)
Module IsEnemyInRangeNode.

Record t := {
  unit : UnitData;
  position : GridPosition;
  enemies : list (UnitData * GridPosition);
  _state : NodeState.t
}.

Definition new (unit : UnitData) (position : GridPosition)
    (enemies : list (UnitData * GridPosition)) : t :=
  {| unit := unit; position := position; enemies := enemies;
     _state := NodeState.FAILURE |}.

Definition execute (node : t) : NodeState.t * t :=
  let enemyInRange :=
    existsb
      (fun enemy =>
         let distance :=
           Z.abs (x enemy.2 - x (position node))
           + Z.abs (y enemy.2 - y (position node)) in
         distance <=? attackRange (unit node))
      (enemies node) in
  let state := if enemyInRange then NodeState.SUCCESS else NodeState.FAILURE in
  (state,
   {| unit := unit node; position := position node; enemies := enemies node;
      _state := state |}).

End IsEnemyInRangeNode.

(** * Vocabulary of the properties *)

(** ** Diplomacy *)

(** Every stored relation score lies in [-100, 100]. *)
Definition scoresBounded (ds : DiplomacySystem.t) : Prop :=
  map_Forall (fun _ v => -100 <= v <= 100) (DiplomacySystem.relations ds).

(** [-100 <= v && v <= 100] on a JavaScript number. *)
Definition inScoreRange (v : JsNumber.t) : bool :=
  JsNumber.lessEq (JsNumber.Finite (-100)) v
  && JsNumber.lessEq v (JsNumber.Finite 100).

(** The same of a ledger that stores JavaScript numbers. *)
Definition numbersBounded (ds : DiplomacyNumbers.t) : Prop :=
  map_Forall (fun _ v => inScoreRange v = true) (DiplomacyNumbers.relations ds).

(** The value or delta that a call passes. *)
Definition passedNumber (c : DiplomacyNumbers.call) : JsNumber.t :=
  match c with
  | DiplomacyNumbers.SetRelation _ _ v => v
  | DiplomacyNumbers.ModifyRelation _ _ delta _ _ => delta
  end.

(** An integer ledger and an integer call, as ledger and call on numbers. *)
Definition actionOfIntegers (action : DiplomacySystem.DiplomaticAction)
  : DiplomacyNumbers.DiplomaticAction :=
  {| DiplomacyNumbers.actionType := DiplomacySystem.actionType action;
     DiplomacyNumbers.description := DiplomacySystem.description action;
     DiplomacyNumbers.value := JsNumber.ofInteger (DiplomacySystem.value action);
     DiplomacyNumbers.origin := DiplomacySystem.origin action;
     DiplomacyNumbers.target := DiplomacySystem.target action |}.

Definition ofIntegers (ds : DiplomacySystem.t) : DiplomacyNumbers.t :=
  {| DiplomacyNumbers.relations :=
       JsNumber.ofInteger <$> DiplomacySystem.relations ds;
     DiplomacyNumbers.actionHistory :=
       actionOfIntegers <$> DiplomacySystem.actionHistory ds |}.

Definition callOfIntegers (c : DiplomacySystem.call) : DiplomacyNumbers.call :=
  match c with
  | DiplomacySystem.SetRelation a b v =>
      DiplomacyNumbers.SetRelation a b (JsNumber.ofInteger v)
  | DiplomacySystem.ModifyRelation a b delta ty descr =>
      DiplomacyNumbers.ModifyRelation a b (JsNumber.ofInteger delta) ty descr
  end.

(** ** Supply *)

(** [base] serves [unit] standing at [position]: it is a base of the system,
    of the unit's own faction, and the unit is within its supply range. *)
Definition servedBy (ss : SupplySystem.t) (unit : UnitData)
    (position : GridPosition) (base : SupplySystem.SupplyBase) : Prop :=
  base ∈ SupplySystem.bases ss /\
  SupplySystem.baseFaction base = faction unit /\
  manhattanDistance position (SupplySystem.basePosition base)
    <= SupplySystem.supplyRange base.

(** ** Utility scoring *)

(** The pursuit score as the specification words it:
    0.6 x aggressiveness + 0.3 x sensorWeight + (0.2 if the own health
    ratio exceeds 0.7, else -0.1) + (1 - distance / detectionRange) x 0.2. *)
Definition specifiedPursuitScore (unit : UnitData) (distance : Z) : Q :=
  let healthRatio := (inject_Z (health unit) / inject_Z (maxHealth unit))%Q in
  ((0.6 * aggressiveness unit)
   + (0.3 * sensorWeight unit)
   + (if UtilityAI.Qgtb healthRatio 0.7 then 0.2 else -0.1)
   + (1 - inject_Z distance / inject_Z (detectionRange unit)) * 0.2)%Q.

(** The score the loop body of [evaluateMoveToEnemy] computes. *)
Definition computedPursuitScore (unit : UnitData) (distance : Z) : Q :=
  let healthRatio := (inject_Z (health unit) / inject_Z (maxHealth unit))%Q in
  ((aggressiveness unit * 0.6)
   + (sensorWeight unit * 0.3)
   + (if UtilityAI.Qgtb healthRatio 0.7 then 0.2 else -0.1)
   + (1 - (inject_Z distance / inject_Z (detectionRange unit)) * 0.2))%Q.

(** ** Enemy detection *)

(** Some listed unit is within the range of the node and, when the node was
    built for the war or hostile tier, is of another faction than the asking
    unit. *)
Definition detects (node : CheckEnemyByDiplomacyNode.t) : Prop :=
  exists other,
    other ∈ CheckEnemyByDiplomacyNode.units node /\
    manhattanDistance (CheckEnemyByDiplomacyNode.position node) other.2
      <= CheckEnemyByDiplomacyNode.range node /\
    ((CheckEnemyByDiplomacyNode.relationshipStatus node = RelationshipStatus.WAR \/
      CheckEnemyByDiplomacyNode.relationshipStatus node = RelationshipStatus.HOSTILE) ->
     faction other.1 <> faction (CheckEnemyByDiplomacyNode.unit node)).

(** ** The movement graph *)

(** The position lies inside the rectangle that the map announces. *)
Definition inBounds (map : GameMap) (p : GridPosition) : Prop :=
  0 <= x p < width map /\ 0 <= y p < height map.

(** The tile matrix covers the announced rectangle, and a walkable tile
    costs at least one movement point, as every entry of [TerrainTiles]
    does. *)
Definition wellFormedMap (map : GameMap) : Prop :=
  (forall p, inBounds map p -> is_Some (tileAt map p)) /\
  (forall p t, tileAt map p = Some t ->
     isWalkable (terrain t) = true -> 1 <= movementCost (terrain t)).

(** One move: from [u] to the 4-neighbour [v] inside the grid, whose tile
    the movement type may enter, at the price [w] of entering it. *)
Definition step (map : GameMap) (mt : MovementType.t)
    (u v : GridPosition) (w : Z) : Prop :=
  v ∈ getNeighbors u (width map) (height map) /\
  exists t, tileAt map v = Some t /\
            PathFinder.notTraversable mt t = false /\
            w = PathFinder.stepCost mt t.

(** [route map mt s v c]: some sequence of moves leads from [s] to [v] at
    total cost [c]. *)
Inductive route (map : GameMap) (mt : MovementType.t) (s : GridPosition)
  : GridPosition -> Z -> Prop :=
  | route_here : route map mt s s 0
  | route_move u v c w :
      route map mt s u c -> step map mt u v w -> route map mt s v (c + w).

(** [walk map mt s l v c]: the positions [l] start at [s], end at [v], each
    next one is one move from the one before, and the moves cost [c] in
    total. *)
Inductive walk (map : GameMap) (mt : MovementType.t) (s : GridPosition)
  : list GridPosition -> GridPosition -> Z -> Prop :=
  | walk_start : walk map mt s [s] s 0
  | walk_move l u v c w :
      walk map mt s l u c -> step map mt u v w ->
      walk map mt s (l ++ [v]) v (c + w).

(** [c] is the least cost of a route from [s] to [v]. *)
Definition leastCost (map : GameMap) (mt : MovementType.t)
    (s v : GridPosition) (c : Z) : Prop :=
  route map mt s v c /\ forall c', route map mt s v c' -> c <= c'.

(** ** Worked instances *)

(** A player base producing 60 fuel, and a supply system holding only it. *)
Definition depot : SupplySystem.SupplyBase :=
  {| SupplySystem.baseId := "depot"; SupplySystem.basePosition := mkPos 3 3;
     SupplySystem.baseFaction := Faction.PLAYER; SupplySystem.baseName := "Depot";
     SupplySystem.fuelProduction := 60; SupplySystem.ammunitionProduction := 15;
     SupplySystem.supplyRange := 8; SupplySystem.capturable := true |}.

Definition depotSystem : SupplySystem.t := {| SupplySystem.bases := [depot] |}.

(** A small battlefield for the worked examples: a strip of plains, the
    player's infantry under reference 0 and the enemy's under the others. *)
Definition plainsStrip : GameMap :=
  mapOfTerrain [ [TerrainType.PLAINS; TerrainType.PLAINS; TerrainType.PLAINS] ].

Definition twoUnits : nat -> UnitData :=
  fun r => match r with
           | O => UnitTypes_infantry
           | _ => UnitTypes_enemy_infantry
           end.

Definition suppliedCombat : CombatSystem.t :=
  {| CombatSystem.map := plainsStrip;
     CombatSystem.diplomacySystem := Some DiplomacySystem.new;
     CombatSystem.supplySystem := Some (SupplySystem.new plainsStrip) |}.

Definition strandedCombat : CombatSystem.t :=
  {| CombatSystem.map := plainsStrip;
     CombatSystem.diplomacySystem := None;
     CombatSystem.supplySystem := Some depotSystem |}.

(** The player's infantry (attack range 2, detection range 5) at the
    origin, and one enemy four cells away. *)
Definition pursuitContext : UtilityAI.AIContext :=
  {| UtilityAI.unit := UnitTypes_infantry;
     UtilityAI.position := mkPos 0 0;
     UtilityAI.enemies := [ (UnitTypes_enemy_infantry, mkPos 4 0) ];
     UtilityAI.allies := [] |}.

(** A node built for the neutral tier, so without tier filter, whose only
    listed unit stands one cell away and belongs to the asking unit's own
    faction. *)
Definition friendlyNeighbourNode : CheckEnemyByDiplomacyNode.t :=
  CheckEnemyByDiplomacyNode.new UnitTypes_infantry (mkPos 0 0)
    [ (UnitTypes_infantry, mkPos 1 0) ] RelationshipStatus.NEUTRAL None.

(** A small map with every kind of terrain. *)
Definition sampleMap : GameMap :=
  mapOfTerrain
    [ [TerrainType.PLAINS; TerrainType.MOUNTAIN; TerrainType.PLAINS; TerrainType.PLAINS];
      [TerrainType.PLAINS; TerrainType.WATER; TerrainType.FOREST; TerrainType.PLAINS];
      [TerrainType.PLAINS; TerrainType.PLAINS; TerrainType.PLAINS; TerrainType.PLAINS] ].

(** * Vocabulary of the further properties *)

(** ** Diplomacy: the action history *)

(** The history entries that a sequence of calls records. *)
Definition recorded (c : DiplomacySystem.call)
  : option DiplomacySystem.DiplomaticAction :=
  match c with
  | DiplomacySystem.SetRelation _ _ _ => None
  | DiplomacySystem.ModifyRelation a b delta ty descr =>
      Some {| DiplomacySystem.actionType := ty;
              DiplomacySystem.description := descr;
              DiplomacySystem.value := delta;
              DiplomacySystem.origin := a;
              DiplomacySystem.target := b |}
  end.

(** ** Supply: captures and routes *)

(** A sequence of capture orders, each a base id and the new owner. *)
Definition captureAll (ss : SupplySystem.t)
    (orders : list (string * Faction.t)) : SupplySystem.t :=
  foldl (fun ss order => (SupplySystem.captureBase ss order.1 order.2).2)
    ss orders.

(** [b] is the base [b0] up to its owner, and is [b0] itself when [b0]
    cannot be captured. *)
Definition sameBaseButOwner (b b0 : SupplySystem.SupplyBase) : Prop :=
  b = SupplySystem.withFaction (SupplySystem.baseFaction b) b0 /\
  (SupplySystem.capturable b0 = false -> b = b0).

(** A route as [calculateSupplyRoutes] files it for a pair of bases. *)
Definition routeBetween (map : GameMap)
    (pair : SupplySystem.SupplyBase * SupplySystem.SupplyBase)
    (r : SupplySystem.SupplyRoute) : Prop :=
  SupplySystem.routeStart r = pair.1 /\
  SupplySystem.routeEnd r = SupplySystem.basePosition pair.2 /\
  SupplySystem.routeType r = SupplySystem.BOTH /\
  leastCost map MovementType.GROUND
    (SupplySystem.basePosition pair.1) (SupplySystem.basePosition pair.2)
    (SupplySystem.routeCost r) /\
  (walk map MovementType.GROUND (SupplySystem.basePosition pair.1)
     (SupplySystem.routePath r) (SupplySystem.basePosition pair.2)
     (SupplySystem.routeCost r)
   \/ (SupplySystem.basePosition pair.1 = SupplySystem.basePosition pair.2 /\
       SupplySystem.routePath r = [])).

(** ** Combat: the damage of a strike *)

(** The unit with another attack power. *)
Definition withAttackPower (v : Z) (u : UnitData) : UnitData :=
  {| unitId := unitId u; unitName := unitName u; unitClass := unitClass u;
     movementType := movementType u; movementPoints := movementPoints u;
     faction := faction u; health := health u; maxHealth := maxHealth u;
     attackPower := v; attackRange := attackRange u;
     defense := defense u; detectionRange := detectionRange u;
     aggressiveness := aggressiveness u; sensorWeight := sensorWeight u;
     healthWeight := healthWeight u; allyWeight := allyWeight u;
     fuelCurrent := fuelCurrent u; fuelMax := fuelMax u;
     fuelConsumptionRate := fuelConsumptionRate u;
     ammunitionCurrent := ammunitionCurrent u;
     ammunitionMax := ammunitionMax u;
     ammunitionConsumptionRate := ammunitionConsumptionRate u |}.

(** The attacker cannot pay for the strike: a supply system is attached
    and the attacker holds less ammunition than one strike consumes. *)
Definition outOfAmmunition (cs : CombatSystem.t) (u : UnitData) : Prop :=
  is_Some (CombatSystem.supplySystem cs) /\
  ammunitionCurrent u < ammunitionConsumptionRate u.

(** The damage of a paid strike, as [resolveCombat] computes it from the
    attack power, the two unit classes, the defence, the two terrains and
    the defender's supply state ([None] without a supply system). *)
Definition strikeDamage (power : Z) (attackerClass defenderClass : UnitClass.t)
    (defence : Z) (attackerTerrain defenderTerrain : TerrainType.t)
    (defenderInSupply : option bool) : Z :=
  let damage2 :=
    (inject_Z power * CombatSystem.classAdvantage attackerClass defenderClass
     * CombatSystem.attackModifier
         (CombatSystem.getTerrainModifiers attackerTerrain))%Q in
  let effectiveDefense :=
    (inject_Z defence
     * CombatSystem.defenseModifier
         (CombatSystem.getTerrainModifiers defenderTerrain))%Q in
  let damage3 :=
    match defenderInSupply with
    | Some false => (damage2 * 1.2)%Q
    | _ => damage2
    end in
  Z.max 1 (Math_round (damage3 - effectiveDefense)).

(** ** Paths *)

(** The price of entering a position, and the price of a list of
    positions walked from its first: the sum of the prices of entering
    every position after the first. *)
Definition entryCost (map : GameMap) (mt : MovementType.t) (p : GridPosition) : Z :=
  match tileAt map p with
  | Some t => PathFinder.stepCost mt t
  | None => 0
  end.

Definition pathCost (map : GameMap) (mt : MovementType.t)
    (l : list GridPosition) : Z :=
  foldr (fun p acc => entryCost map mt p + acc) 0 (tail l).

(** Two consecutive positions of a path are one legal move apart. *)
Definition legalMove (map : GameMap) (mt : MovementType.t)
    (u v : GridPosition) : Prop :=
  v ∈ getNeighbors u (width map) (height map) /\
  exists t, tileAt map v = Some t /\ PathFinder.notTraversable mt t = false.

(** ** Behavior trees *)

(** The leaves that the repository defines, as one class of leaves. *)
Inductive RepositoryLeaf :=
  | CheckEnemyLeaf (node : CheckEnemyByDiplomacyNode.t)
  | CheckSupplyLeaf (node : CheckSupplyLevelNode.t)
  | FindBaseLeaf (node : FindNearestSupplyBaseNode.t)
  | EnemyInRangeLeaf (node : IsEnemyInRangeNode.t).

Definition executeRepositoryLeaf (leaf : RepositoryLeaf)
  : NodeState.t * RepositoryLeaf :=
  match leaf with
  | CheckEnemyLeaf node =>
      let r := CheckEnemyByDiplomacyNode.execute node in (r.1, CheckEnemyLeaf r.2)
  | CheckSupplyLeaf node =>
      let r := CheckSupplyLevelNode.execute node in (r.1, CheckSupplyLeaf r.2)
  | FindBaseLeaf node =>
      let r := FindNearestSupplyBaseNode.execute node in (r.1, FindBaseLeaf r.2)
  | EnemyInRangeLeaf node =>
      let r := IsEnemyInRangeNode.execute node in (r.1, EnemyInRangeLeaf r.2)
  end.

Definition repositoryLeafState (leaf : RepositoryLeaf) : NodeState.t :=
  match leaf with
  | CheckEnemyLeaf node => CheckEnemyByDiplomacyNode._state node
  | CheckSupplyLeaf node => CheckSupplyLevelNode._state node
  | FindBaseLeaf node => FindNearestSupplyBaseNode._state node
  | EnemyInRangeLeaf node => IsEnemyInRangeNode._state node
  end.

(** A small tree over these leaves: attack what is in range, else look
    for a base when supplies run low. *)
Definition sampleTree : BehaviorTree.BehaviorNode :=
  BehaviorTree.SelectorNode
    [ BehaviorTree.LeafNode
        (EnemyInRangeLeaf
           (IsEnemyInRangeNode.new UnitTypes_infantry (mkPos 0 0)
              [ (UnitTypes_enemy_infantry, mkPos 4 0) ]));
      BehaviorTree.SequenceNode
        [ BehaviorTree.LeafNode
            (CheckSupplyLeaf
               (CheckSupplyLevelNode.new UnitTypes_infantry None None None));
          BehaviorTree.LeafNode
            (FindBaseLeaf
               (FindNearestSupplyBaseNode.new UnitTypes_infantry (mkPos 0 0)
                  [ (mkPos 2 2, Faction.PLAYER) ])) ]
        NodeState.FAILURE ]
    NodeState.FAILURE.

(** [current / max <= threshold] as the program evaluates it: with a
    maximum of zero the quotient is an infinity or NaN, and only minus
    infinity passes. *)
Definition lowOn (current max : Z) (threshold : Q) : Prop :=
  (max <> 0 /\ (inject_Z current / inject_Z max <= threshold)%Q) \/
  (max = 0 /\ current < 0).

(** ** Utility scoring: targets *)

(** The score that [evaluateAttack] computes for one enemy in range. *)
Definition attackScore (unit enemy : UnitData) : Q :=
  let healthRatio := JsNumber.divide (health unit) (maxHealth unit) in
  let enemyHealthRatio := JsNumber.divide (health enemy) (maxHealth enemy) in
  ((aggressiveness unit * 0.5)
   + (if JsNumber.less enemyHealthRatio (JsNumber.Finite 0.3) then 0.3 else 0)
   + (if JsNumber.less (JsNumber.Finite 0)
           (JsNumber.minus healthRatio enemyHealthRatio)
      then 0.2 else -0.1)
   + (if 0 <? attackPower unit - defense enemy then 0.2 else -0.1))%Q.

(** What a scan for the best target has found among the candidates
    [seen]: nothing, at score 0, when no eligible candidate scores above
    0; else an eligible candidate with the highest score. *)
Definition bestTarget (eligible : UnitData * GridPosition -> bool)
    (scoreOf : UnitData * GridPosition -> Q)
    (seen : list (UnitData * GridPosition))
    (found : Q * option UnitData * option GridPosition) : Prop :=
  (forall e, e ∈ seen -> eligible e = true -> (scoreOf e <= found.1.1)%Q) /\
  ((found = (0%Q, None, None)) \/
   (exists e, e ∈ seen /\ eligible e = true /\
              found = (scoreOf e, Some e.1, Some e.2) /\ (0 < scoreOf e)%Q)).

Definition inAttackRange (unit : UnitData) (position : GridPosition)
    (e : UnitData * GridPosition) : bool :=
  manhattanDistance position e.2 <=? attackRange unit.

Definition inPursuitBand (unit : UnitData) (position : GridPosition)
    (e : UnitData * GridPosition) : bool :=
  (attackRange unit <? manhattanDistance position e.2)
  && (manhattanDistance position e.2 <=? detectionRange unit).

(** An enemy that [evaluateRetreat] counts as nearby. *)
Definition nearby (unit : UnitData) (position : GridPosition)
    (other : UnitData * GridPosition) : Prop :=
  manhattanDistance position other.2 <= detectionRange unit.

(** ** Unit controller *)

(** What entering [position] does to the diplomacy ledger and the supply
    system, and the diplomatic action that [executeMove] reports. *)
Definition territoryEntered (uc : UnitController.t) (unit : UnitData)
    (position : GridPosition)
  : DiplomacySystem.t * SupplySystem.t
    * option UnitController.DiplomaticActionTaken :=
  match SupplySystem.getBaseAtPosition (UnitController.supplySystem uc) position with
  | Some base =>
      if bool_decide (SupplySystem.baseFaction base <> faction unit)
      then
        let diplomacy1 :=
          DiplomacySystem.modifyRelation (UnitController.diplomacySystem uc)
            (faction unit) (SupplySystem.baseFaction base) (-5)
            "ENTER_TERRITORY"
            (unitName unit +:+ " entered territory controlled by "
               +:+ Faction.value (SupplySystem.baseFaction base)) in
        if SupplySystem.capturable base
        then
          (DiplomacySystem.modifyRelation diplomacy1
             (faction unit) (SupplySystem.baseFaction base) (-50)
             "CAPTURE_BASE"
             (unitName unit +:+ " captured " +:+ SupplySystem.baseName base),
           (SupplySystem.captureBase (UnitController.supplySystem uc)
              (SupplySystem.baseId base) (faction unit)).2,
           Some {| UnitController.diplomaticType := "CAPTURE_BASE";
                   UnitController.diplomaticValue := -50 |})
        else
          (diplomacy1, UnitController.supplySystem uc,
           Some {| UnitController.diplomaticType := "ENTER_TERRITORY";
                   UnitController.diplomaticValue := -5 |})
      else (UnitController.diplomacySystem uc, UnitController.supplySystem uc, None)
  | None => (UnitController.diplomacySystem uc, UnitController.supplySystem uc, None)
  end.

(** * Properties *)

(** ** Diplomacy: relation scores and relationship tiers *)

Lemma clamp_bounds (v : Z) : -100 <= Z.max (-100) (Z.min 100 v) <= 100.
Proof. lia. Qed.

Lemma setRelation_bounded ds a b v :
  scoresBounded ds -> scoresBounded (DiplomacySystem.setRelation ds a b v).
Proof.
  intros Hds. unfold scoresBounded, DiplomacySystem.setRelation; simpl.
  apply map_Forall_insert_2; [apply clamp_bounds | exact Hds].
Qed.

Lemma modifyRelation_bounded ds a b delta ty descr :
  scoresBounded ds ->
  scoresBounded (DiplomacySystem.modifyRelation ds a b delta ty descr).
Proof.
  intros Hds. unfold DiplomacySystem.modifyRelation, scoresBounded; simpl.
  apply map_Forall_insert_2; [apply clamp_bounds | exact Hds].
Qed.

Lemma new_bounded : scoresBounded DiplomacySystem.new.
Proof.
  unfold DiplomacySystem.new.
  repeat apply setRelation_bounded.
  unfold scoresBounded; simpl. apply map_Forall_empty.
Qed.

Create HintDb ledger.
#[local] Hint Resolve setRelation_bounded modifyRelation_bounded new_bounded : ledger.

Lemma perform_bounded ds c :
  scoresBounded ds -> scoresBounded (DiplomacySystem.perform ds c).
Proof. destruct c; simpl; auto with ledger. Qed.

Lemma performAll_bounded calls : forall ds,
  scoresBounded ds -> scoresBounded (DiplomacySystem.performAll ds calls).
Proof.
  unfold DiplomacySystem.performAll.
  induction calls as [|c calls IH]; intros ds Hds; simpl; [exact Hds|].
  apply IH, perform_bounded, Hds.
Qed.

Lemma getRelation_bounded ds a b :
  scoresBounded ds -> -100 <= DiplomacySystem.getRelation ds a b <= 100.
Proof.
  intros Hds. unfold DiplomacySystem.getRelation.
  case_bool_decide; [lia|].
  destruct (DiplomacySystem.relations ds !! _) as [v|] eqn:Hv; [|lia].
  exact (Hds _ _ Hv).
Qed.

(** On integers the scores stay clamped: starting from a freshly
    constructed ledger, after any sequence of [setRelation] and
    [modifyRelation] calls with integer values and deltas, every stored
    relation score is in [-100, 100], and so is every score that
    [getRelation] reports. *)
Theorem relation_scores_stay_clamped (calls : list DiplomacySystem.call) :
  let ds := DiplomacySystem.performAll DiplomacySystem.new calls in
  scoresBounded ds /\
  forall a b, -100 <= DiplomacySystem.getRelation ds a b <= 100.
Proof.
  intros ds.
  assert (Hb : scoresBounded ds) by apply performAll_bounded, new_bounded.
  split; [exact Hb | intros a b; apply getRelation_bounded, Hb].
Qed.

(** *** The ledger at every JavaScript number *)

Lemma less_ofInteger (a b : Z) :
  JsNumber.less (JsNumber.ofInteger a) (JsNumber.ofInteger b) = (a <? b).
Proof.
  unfold JsNumber.ofInteger, JsNumber.less, Qle_bool, inject_Z; simpl.
  rewrite !Z.mul_1_r. apply eq_sym, Z.ltb_antisym.
Qed.

Lemma lessEq_ofInteger (a b : Z) :
  JsNumber.lessEq (JsNumber.ofInteger a) (JsNumber.ofInteger b) = (a <=? b).
Proof.
  unfold JsNumber.ofInteger, JsNumber.lessEq, Qle_bool, inject_Z; simpl.
  by rewrite !Z.mul_1_r.
Qed.

Lemma max_ofInteger (a b : Z) :
  JsNumber.max (JsNumber.ofInteger a) (JsNumber.ofInteger b)
  = JsNumber.ofInteger (Z.max a b).
Proof.
  change (JsNumber.max (JsNumber.ofInteger a) (JsNumber.ofInteger b))
    with (if JsNumber.less (JsNumber.ofInteger a) (JsNumber.ofInteger b)
          then JsNumber.ofInteger b else JsNumber.ofInteger a).
  rewrite less_ofInteger.
  destruct (Z.ltb_spec a b); f_equal; lia.
Qed.

Lemma min_ofInteger (a b : Z) :
  JsNumber.min (JsNumber.ofInteger a) (JsNumber.ofInteger b)
  = JsNumber.ofInteger (Z.min a b).
Proof.
  change (JsNumber.min (JsNumber.ofInteger a) (JsNumber.ofInteger b))
    with (if JsNumber.less (JsNumber.ofInteger b) (JsNumber.ofInteger a)
          then JsNumber.ofInteger b else JsNumber.ofInteger a).
  rewrite less_ofInteger.
  destruct (Z.ltb_spec b a); f_equal; lia.
Qed.

Lemma clamp_ofInteger (v : Z) :
  JsNumber.max (JsNumber.Finite (-100))
    (JsNumber.min (JsNumber.Finite 100) (JsNumber.ofInteger v))
  = JsNumber.ofInteger (Z.max (-100) (Z.min 100 v)).
Proof.
  change (JsNumber.Finite (-100)) with (JsNumber.ofInteger (-100)).
  change (JsNumber.Finite 100) with (JsNumber.ofInteger 100).
  by rewrite min_ofInteger, max_ofInteger.
Qed.

Lemma plus_ofInteger (a b : Z) :
  JsNumber.plus (JsNumber.ofInteger a) (JsNumber.ofInteger b)
  = JsNumber.ofInteger (a + b).
Proof.
  unfold JsNumber.ofInteger, JsNumber.plus, inject_Z, Qplus; simpl.
  by rewrite !Z.mul_1_r.
Qed.

Lemma setRelation_ofIntegers ds a b v :
  DiplomacyNumbers.setRelation (ofIntegers ds) a b (JsNumber.ofInteger v)
  = ofIntegers (DiplomacySystem.setRelation ds a b v).
Proof.
  unfold DiplomacyNumbers.setRelation, DiplomacySystem.setRelation, ofIntegers.
  cbn [DiplomacyNumbers.relations DiplomacyNumbers.actionHistory
       DiplomacySystem.relations DiplomacySystem.actionHistory].
  by rewrite clamp_ofInteger, fmap_insert.
Qed.

Lemma getRelation_ofIntegers ds a b :
  DiplomacyNumbers.getRelation (ofIntegers ds) a b
  = JsNumber.ofInteger (DiplomacySystem.getRelation ds a b).
Proof.
  unfold DiplomacyNumbers.getRelation, DiplomacySystem.getRelation, ofIntegers.
  cbn [DiplomacyNumbers.relations].
  case_bool_decide; [reflexivity|].
  rewrite lookup_fmap.
  by destruct (DiplomacySystem.relations ds !! _).
Qed.

Lemma modifyRelation_ofIntegers ds a b delta ty descr :
  DiplomacyNumbers.modifyRelation (ofIntegers ds) a b
    (JsNumber.ofInteger delta) ty descr
  = ofIntegers (DiplomacySystem.modifyRelation ds a b delta ty descr).
Proof.
  unfold DiplomacyNumbers.modifyRelation, DiplomacySystem.modifyRelation.
  rewrite getRelation_ofIntegers, plus_ofInteger, clamp_ofInteger,
    setRelation_ofIntegers.
  unfold ofIntegers.
  cbn [DiplomacyNumbers.relations DiplomacyNumbers.actionHistory
       DiplomacySystem.relations DiplomacySystem.actionHistory].
  by rewrite fmap_app.
Qed.

Lemma new_ofIntegers : DiplomacyNumbers.new = ofIntegers DiplomacySystem.new.
Proof.
  unfold DiplomacyNumbers.new, DiplomacySystem.new.
  rewrite <- !setRelation_ofIntegers.
  unfold ofIntegers; simpl. by rewrite fmap_empty.
Qed.

(** The integer ledger is the ledger on numbers, restricted to integer
    values and deltas: running the same calls on both keeps them in step,
    and both report the same scores and tiers. *)
Lemma performAll_ofIntegers (calls : list DiplomacySystem.call) ds :
  DiplomacyNumbers.performAll (ofIntegers ds) (callOfIntegers <$> calls)
  = ofIntegers (DiplomacySystem.performAll ds calls).
Proof.
  unfold DiplomacyNumbers.performAll, DiplomacySystem.performAll.
  revert ds. induction calls as [|c calls IH]; intros ds; [reflexivity|].
  simpl. rewrite <- IH. f_equal.
  destruct c; simpl;
    [apply setRelation_ofIntegers | apply modifyRelation_ofIntegers].
Qed.

Lemma getRelationshipStatus_ofIntegers ds a b :
  DiplomacyNumbers.getRelationshipStatus (ofIntegers ds) a b
  = DiplomacySystem.getRelationshipStatus ds a b.
Proof.
  unfold DiplomacyNumbers.getRelationshipStatus,
    DiplomacySystem.getRelationshipStatus.
  rewrite getRelation_ofIntegers.
  generalize (DiplomacySystem.getRelation ds a b); intros score.
  change (JsNumber.Finite (-60)) with (JsNumber.ofInteger (-60)).
  change (JsNumber.Finite (-20)) with (JsNumber.ofInteger (-20)).
  change (JsNumber.Finite 20) with (JsNumber.ofInteger 20).
  change (JsNumber.Finite 60) with (JsNumber.ofInteger 60).
  by rewrite !lessEq_ofInteger, !less_ofInteger.
Qed.

(** What the clamp gives on a number. *)
Lemma clamp_inScoreRange (v : JsNumber.t) :
  JsNumber.isNaN v = false ->
  inScoreRange
    (JsNumber.max (JsNumber.Finite (-100))
       (JsNumber.min (JsNumber.Finite 100) v)) = true.
Proof.
  destruct v as [q| | |]; intros Hv; try discriminate; try reflexivity.
  unfold JsNumber.min, JsNumber.max, JsNumber.less.
  destruct (Qle_bool 100 q) eqn:H1; simpl; [reflexivity|].
  destruct (Qle_bool q (-100)) eqn:H2; simpl; [reflexivity|].
  unfold inScoreRange, JsNumber.lessEq.
  apply andb_true_intro; split; apply Qle_bool_iff.
  - apply Qlt_le_weak, Qnot_le_lt. intros H. apply Qle_bool_iff in H. congruence.
  - apply Qlt_le_weak, Qnot_le_lt. intros H. apply Qle_bool_iff in H. congruence.
Qed.

Lemma inScoreRange_finite (v : JsNumber.t) :
  inScoreRange v = true -> exists q, v = JsNumber.Finite q.
Proof. destruct v; try discriminate; eauto. Qed.

Lemma inScoreRange_not_NaN (v : JsNumber.t) :
  inScoreRange v = true -> JsNumber.isNaN v = false.
Proof. by destruct v. Qed.

Lemma setRelation_numbersBounded ds a b v :
  JsNumber.isNaN v = false ->
  numbersBounded ds -> numbersBounded (DiplomacyNumbers.setRelation ds a b v).
Proof.
  intros Hv Hds. unfold numbersBounded, DiplomacyNumbers.setRelation; simpl.
  apply map_Forall_insert_2; [by apply clamp_inScoreRange | exact Hds].
Qed.

Lemma getRelation_numbersBounded ds a b :
  numbersBounded ds -> inScoreRange (DiplomacyNumbers.getRelation ds a b) = true.
Proof.
  intros Hds. unfold DiplomacyNumbers.getRelation.
  case_bool_decide; [reflexivity|].
  destruct (DiplomacyNumbers.relations ds !! _) as [v|] eqn:Hv; [|reflexivity].
  exact (Hds _ _ Hv).
Qed.

Lemma modifyRelation_numbersBounded ds a b delta ty descr :
  JsNumber.isNaN delta = false ->
  numbersBounded ds ->
  numbersBounded (DiplomacyNumbers.modifyRelation ds a b delta ty descr).
Proof.
  intros Hdelta Hds.
  destruct (inScoreRange_finite _ (getRelation_numbersBounded ds a b Hds))
    as [q Hq].
  unfold DiplomacyNumbers.modifyRelation, numbersBounded; simpl.
  apply map_Forall_insert_2; [|exact Hds].
  rewrite Hq. apply clamp_inScoreRange, inScoreRange_not_NaN, clamp_inScoreRange.
  by destruct delta.
Qed.

Lemma new_numbersBounded : numbersBounded DiplomacyNumbers.new.
Proof.
  unfold DiplomacyNumbers.new.
  repeat (apply setRelation_numbersBounded; [reflexivity|]).
  unfold numbersBounded; simpl. apply map_Forall_empty.
Qed.

(** Without NaN the scores stay clamped: from a freshly constructed
    ledger, after any sequence of [setRelation] and [modifyRelation] calls
    whose values and deltas are integers, fractions or infinities, every
    stored score is a finite number in [-100, 100], and so is every score
    that [getRelation] reports. *)
Lemma relation_scores_stay_clamped_without_NaN
    (calls : list DiplomacyNumbers.call) :
  Forall (fun c => JsNumber.isNaN (passedNumber c) = false) calls ->
  let ds := DiplomacyNumbers.performAll DiplomacyNumbers.new calls in
  numbersBounded ds /\
  forall a b, inScoreRange (DiplomacyNumbers.getRelation ds a b) = true.
Proof.
  intros Hcalls ds.
  assert (Hb : numbersBounded ds).
  { unfold ds, DiplomacyNumbers.performAll.
    generalize new_numbersBounded. generalize DiplomacyNumbers.new.
    induction Hcalls as [|c calls Hc _ IH]; intros ds0 Hds0; [exact Hds0|].
    simpl. apply IH. destruct c; simpl in *.
    - by apply setRelation_numbersBounded.
    - by apply modifyRelation_numbersBounded. }
  split; [exact Hb | intros a b; apply getRelation_numbersBounded, Hb].
Qed.

Example relation_scores_stay_clamped_at_infinities :
  let ds :=
    DiplomacyNumbers.performAll DiplomacyNumbers.new
      [ DiplomacyNumbers.ModifyRelation Faction.PLAYER Faction.ENEMY
          JsNumber.PlusInfinity "DEFEND_ALLY" "Defended an ally";
        DiplomacyNumbers.SetRelation Faction.ENEMY Faction.NEUTRAL
          (JsNumber.Finite (-250.5));
        DiplomacyNumbers.ModifyRelation Faction.PLAYER Faction.NEUTRAL
          JsNumber.MinusInfinity "ATTACK_BASE" "Attacked a base or outpost" ] in
  numbersBounded ds
  /\ DiplomacyNumbers.getRelation ds Faction.PLAYER Faction.ENEMY
     = JsNumber.Finite 100
  /\ DiplomacyNumbers.getRelation ds Faction.ENEMY Faction.NEUTRAL
     = JsNumber.Finite (-100)
  /\ DiplomacyNumbers.getRelation ds Faction.PLAYER Faction.NEUTRAL
     = JsNumber.Finite (-100).
Proof.
  split; [|by repeat split].
  apply relation_scores_stay_clamped_without_NaN.
  by repeat constructor.
Qed.

(** Once a pair's score is NaN, [modifyRelation] keeps it NaN, whatever
    the delta. *)
Lemma modifyRelation_keeps_NaN ds a b delta ty descr :
  DiplomacyNumbers.getRelation ds a b = JsNumber.NotANumber ->
  DiplomacyNumbers.getRelation
    (DiplomacyNumbers.modifyRelation ds a b delta ty descr) a b
  = JsNumber.NotANumber.
Proof.
  intros Hnan.
  assert (Hne : a <> b).
  { intros ->. unfold DiplomacyNumbers.getRelation in Hnan.
    by rewrite bool_decide_eq_true_2 in Hnan. }
  unfold DiplomacyNumbers.modifyRelation. rewrite Hnan.
  unfold DiplomacyNumbers.getRelation, DiplomacyNumbers.setRelation; simpl.
  rewrite bool_decide_eq_false_2 by exact Hne.
  by rewrite lookup_insert_eq.
Qed.

(** C5 (the code at a NaN).  [Math.max(-100, Math.min(100, NaN))] is NaN:
    [setRelation] with the value NaN, and [modifyRelation] with the delta
    NaN, store NaN for the pair, which is in no interval, on a freshly
    constructed ledger, where player and enemy are at war.  [getRelation]
    then reports NaN, the pair's tier reads as allied, since each of the
    four comparisons with NaN is false, and no later [modifyRelation]
    brings the score back. *)
Theorem relation_score_NaN_is_stored :
  let stored := fun ds =>
    DiplomacyNumbers.relations ds !! "enemy_player" in
  let set :=
    DiplomacyNumbers.setRelation DiplomacyNumbers.new
      Faction.PLAYER Faction.ENEMY JsNumber.NotANumber in
  let modified :=
    DiplomacyNumbers.modifyRelation DiplomacyNumbers.new
      Faction.PLAYER Faction.ENEMY JsNumber.NotANumber
      "PROVIDE_SUPPLIES" "Provided supplies" in
  stored DiplomacyNumbers.new = Some (JsNumber.Finite (-80))
  /\ DiplomacyNumbers.getRelationshipStatus DiplomacyNumbers.new
       Faction.PLAYER Faction.ENEMY = RelationshipStatus.WAR
  /\ stored set = Some JsNumber.NotANumber
  /\ stored modified = Some JsNumber.NotANumber
  /\ inScoreRange JsNumber.NotANumber = false
  /\ DiplomacyNumbers.getRelation modified Faction.PLAYER Faction.ENEMY
     = JsNumber.NotANumber
  /\ DiplomacyNumbers.getRelationshipStatus modified
       Faction.PLAYER Faction.ENEMY = RelationshipStatus.ALLIED
  /\ forall delta ty descr,
       DiplomacyNumbers.getRelation
         (DiplomacyNumbers.modifyRelation modified
            Faction.PLAYER Faction.ENEMY delta ty descr)
         Faction.PLAYER Faction.ENEMY
       = JsNumber.NotANumber.
Proof.
  intros stored set modified.
  do 7 (split; [reflexivity|]).
  intros delta ty descr. by apply modifyRelation_keeps_NaN.
Qed.

Example getRelationKey_unordered :
  DiplomacySystem.getRelationKey Faction.PLAYER Faction.ENEMY = "enemy_player" /\
  DiplomacySystem.getRelationKey Faction.ENEMY Faction.PLAYER = "enemy_player" /\
  DiplomacySystem.getRelationKey Faction.NEUTRAL Faction.PLAYER = "neutral_player".
Proof. repeat split. Qed.

Example initial_relations :
  DiplomacySystem.getRelationshipStatus DiplomacySystem.new
    Faction.ENEMY Faction.PLAYER = RelationshipStatus.WAR /\
  DiplomacySystem.getRelationshipStatus DiplomacySystem.new
    Faction.NEUTRAL Faction.ENEMY = RelationshipStatus.NEUTRAL /\
  DiplomacySystem.getRelationshipStatus DiplomacySystem.new
    Faction.NEUTRAL Faction.NEUTRAL = RelationshipStatus.ALLIED.
Proof. repeat split. Qed.

Lemma getRelation_setRelation ds a b v :
  a <> b ->
  DiplomacySystem.getRelation (DiplomacySystem.setRelation ds a b v) a b
  = Z.max (-100) (Z.min 100 v).
Proof.
  intros Hab. unfold DiplomacySystem.getRelation.
  rewrite bool_decide_eq_false_2 by exact Hab.
  unfold DiplomacySystem.setRelation; simpl.
  by rewrite lookup_insert_eq.
Qed.

(** The tier as a function of the score that [getRelation] reports. *)
Lemma getRelationshipStatus_tiers ds a b :
  let score := DiplomacySystem.getRelation ds a b in
  DiplomacySystem.getRelationshipStatus ds a b =
    if decide (score <= -60) then RelationshipStatus.WAR
    else if decide (score <= -20) then RelationshipStatus.HOSTILE
    else if decide (score < 20) then RelationshipStatus.NEUTRAL
    else if decide (score < 60) then RelationshipStatus.FRIENDLY
    else RelationshipStatus.ALLIED.
Proof.
  intros score. unfold DiplomacySystem.getRelationshipStatus. fold score.
  repeat case_decide;
    repeat match goal with
      | |- context [?p <=? ?q] => destruct (Z.leb_spec p q); try lia
      | |- context [?p <? ?q] => destruct (Z.ltb_spec p q); try lia
      end; reflexivity.
Qed.

(** C6. Between two different factions whose score has just been set to a
    boundary value, the tier is: -60 war, -59 hostile, -20 hostile,
    19 neutral, 20 friendly, 59 friendly, 60 allied. *)
Theorem relationship_tier_boundaries ds a b :
  a <> b ->
  let status v :=
    DiplomacySystem.getRelationshipStatus
      (DiplomacySystem.setRelation ds a b v) a b in
  status (-60) = RelationshipStatus.WAR /\
  status (-59) = RelationshipStatus.HOSTILE /\
  status (-20) = RelationshipStatus.HOSTILE /\
  status 19 = RelationshipStatus.NEUTRAL /\
  status 20 = RelationshipStatus.FRIENDLY /\
  status 59 = RelationshipStatus.FRIENDLY /\
  status 60 = RelationshipStatus.ALLIED.
Proof.
  intros Hab status. unfold status.
  rewrite !getRelationshipStatus_tiers; simpl.
  rewrite !getRelation_setRelation by exact Hab.
  repeat split; reflexivity.
Qed.

Lemma relationship_tier_boundaries_witness :
  Faction.PLAYER <> Faction.ENEMY /\
  DiplomacySystem.getRelationshipStatus
    (DiplomacySystem.setRelation DiplomacySystem.new
       Faction.PLAYER Faction.ENEMY (-60)) Faction.PLAYER Faction.ENEMY
  = RelationshipStatus.WAR.
Proof.
  split; [discriminate|].
  apply (relationship_tier_boundaries DiplomacySystem.new
           Faction.PLAYER Faction.ENEMY); discriminate.
Defined.

(** ** Supply: capture and resupply *)

(** C8. Let [b] be the base that its identifier denotes: the first base of
    the list with that identifier.  If [b] is not capturable, [captureBase]
    returns false and leaves the whole system, and so the owner of [b],
    unchanged.  If [b] is capturable, [captureBase] returns true, the base
    at that place now belongs to the new faction whatever faction asks and
    whoever owned it, its other fields are kept, and every other base is
    unchanged. *)
Theorem captureBase_spec (ss : SupplySystem.t) (i : nat)
    (b : SupplySystem.SupplyBase) (newFaction : Faction.t) :
  SupplySystem.bases ss !! i = Some b ->
  (forall j b', SupplySystem.bases ss !! j = Some b' -> (j < i)%nat ->
                SupplySystem.baseId b' <> SupplySystem.baseId b) ->
  let r := SupplySystem.captureBase ss (SupplySystem.baseId b) newFaction in
  (SupplySystem.capturable b = false -> r = (false, ss)) /\
  (SupplySystem.capturable b = true ->
     r.1 = true /\
     SupplySystem.bases r.2 !! i = Some (SupplySystem.withFaction newFaction b) /\
     SupplySystem.baseFaction (SupplySystem.withFaction newFaction b) = newFaction /\
     length (SupplySystem.bases r.2) = length (SupplySystem.bases ss) /\
     forall j, j <> i -> SupplySystem.bases r.2 !! j = SupplySystem.bases ss !! j).
Proof.
  intros Hb Hfirst r.
  assert (Hfind :
    list_find (fun base => SupplySystem.baseId base = SupplySystem.baseId b)
      (SupplySystem.bases ss) = Some (i, b)).
  { apply list_find_Some. split; [exact Hb|]. split; [reflexivity|].
    intros j y Hy Hlt. exact (Hfirst j y Hy Hlt). }
  subst r. unfold SupplySystem.captureBase. rewrite Hfind.
  split; intros Hcap; rewrite Hcap; simpl; [reflexivity|].
  split; [reflexivity|].
  split.
  { apply list_lookup_insert_eq. by eapply lookup_lt_Some. }
  split; [reflexivity|].
  split; [apply length_insert|].
  intros j Hj. by apply list_lookup_insert_ne.
Qed.

Lemma nearerBase_fold position bs : forall acc,
  (forall b d, acc = Some (b, d) ->
     d = manhattanDistance position (SupplySystem.basePosition b)
     /\ d <= SupplySystem.supplyRange b) ->
  match foldl (SupplySystem.nearerBase position) acc bs with
  | Some (b, d) =>
      d = manhattanDistance position (SupplySystem.basePosition b)
      /\ d <= SupplySystem.supplyRange b
      /\ (acc = Some (b, d) \/ b ∈ bs)
      /\ (forall b', b' ∈ bs ->
            manhattanDistance position (SupplySystem.basePosition b')
              <= SupplySystem.supplyRange b' ->
            d <= manhattanDistance position (SupplySystem.basePosition b'))
      /\ (forall b0 d0, acc = Some (b0, d0) -> d <= d0)
  | None =>
      acc = None /\
      forall b', b' ∈ bs ->
        ~ manhattanDistance position (SupplySystem.basePosition b')
            <= SupplySystem.supplyRange b'
  end.
Proof.
  induction bs as [|b0 bs IH]; intros acc Hacc; simpl.
  - destruct acc as [[b d]|].
    + destruct (Hacc b d eq_refl) as [-> Hr].
      repeat split; auto.
      * intros b' Hb'. by apply elem_of_nil in Hb'.
      * intros ? ? [= <- <-]. lia.
    + split; [reflexivity|]. intros b' Hb'. by apply elem_of_nil in Hb'.
  - set (acc' := SupplySystem.nearerBase position acc b0).
    assert (Hacc' : forall b d, acc' = Some (b, d) ->
              d = manhattanDistance position (SupplySystem.basePosition b)
              /\ d <= SupplySystem.supplyRange b).
    { intros b d. unfold acc', SupplySystem.nearerBase.
      destruct (Z.leb_spec
                  (manhattanDistance position (SupplySystem.basePosition b0))
                  (SupplySystem.supplyRange b0)); simpl.
      - destruct acc as [[b1 d1]|].
        + destruct (Z.ltb_spec
                      (manhattanDistance position (SupplySystem.basePosition b0)) d1).
          * intros [= <- <-]. split; [reflexivity | lia].
          * apply Hacc.
        + intros [= <- <-]. split; [reflexivity | lia].
      - apply Hacc. }
    specialize (IH acc' Hacc').
    assert (Hstep :
      (acc' = acc /\
       (manhattanDistance position (SupplySystem.basePosition b0)
          <= SupplySystem.supplyRange b0 ->
        exists b1 d1, acc = Some (b1, d1) /\
          d1 <= manhattanDistance position (SupplySystem.basePosition b0)))
      \/ (acc' = Some (b0, manhattanDistance position (SupplySystem.basePosition b0))
          /\ manhattanDistance position (SupplySystem.basePosition b0)
               <= SupplySystem.supplyRange b0
          /\ forall b1 d1, acc = Some (b1, d1) ->
               manhattanDistance position (SupplySystem.basePosition b0) < d1)).
    { unfold acc', SupplySystem.nearerBase.
      destruct (Z.leb_spec
                  (manhattanDistance position (SupplySystem.basePosition b0))
                  (SupplySystem.supplyRange b0)); simpl.
      - destruct acc as [[b1 d1]|].
        + destruct (Z.ltb_spec
                      (manhattanDistance position (SupplySystem.basePosition b0)) d1).
          * right. repeat split; auto. intros ? ? [= <- <-]. lia.
          * left. split; [reflexivity|]. intros _. exists b1, d1. split; [reflexivity | lia].
        + right. repeat split; auto. intros ? ? [=].
      - left. split; [reflexivity|]. intros; lia. }
    destruct (foldl (SupplySystem.nearerBase position) acc' bs) as [[b d]|].
    + destruct IH as (Hd & Hr & Hin & Hmin & Hle).
      split; [exact Hd|]. split; [exact Hr|].
      destruct Hstep as [[Heq Hb0] | (Heq & Hr0 & Hlt)].
      * rewrite Heq in *. split.
        { destruct Hin as [?|?]; [by left | right; by apply list_elem_of_further]. }
        split; [|exact Hle].
        intros b' [-> | Hb']%elem_of_cons Hr'; [|by apply Hmin].
        destruct (Hb0 Hr') as (b1 & d1 & Hacc1 & Hd1).
        specialize (Hle b1 d1 Hacc1). lia.
      * split.
        { destruct Hin as [Hin|Hin].
          - rewrite Heq in Hin. injection Hin as <- <-. right. apply list_elem_of_here.
          - right. by apply list_elem_of_further. }
        split.
        { intros b' [-> | Hb']%elem_of_cons Hr'; [|by apply Hmin].
          exact (Hle _ _ Heq). }
        intros b1 d1 Hacc1. specialize (Hlt b1 d1 Hacc1).
        specialize (Hle _ _ Heq). lia.
    + destruct IH as [Hnone Hout].
      destruct Hstep as [[Heq Hb0] | (Heq & _)]; [|congruence].
      rewrite Heq in Hnone. split; [exact Hnone|].
      intros b' [-> | Hb']%elem_of_cons; [|by apply Hout].
      intros Hr'. destruct (Hb0 Hr') as (b1 & d1 & Hacc1 & _). congruence.
Qed.

(** What [calculateUnitSupply] reports: the nearest base is a base of the
    unit's faction that has the unit in range and is nearest among those,
    and a base is reported exactly when there is one to report. *)
Lemma calculateUnitSupply_nearest ss unit position :
  match SupplySystem.nearestBase
          (SupplySystem.calculateUnitSupply ss unit position) with
  | Some base =>
      SupplySystem.inSupplyRange
        (SupplySystem.calculateUnitSupply ss unit position) = true
      /\ servedBy ss unit position base
      /\ forall b', servedBy ss unit position b' ->
           manhattanDistance position (SupplySystem.basePosition base)
             <= manhattanDistance position (SupplySystem.basePosition b')
  | None =>
      SupplySystem.inSupplyRange
        (SupplySystem.calculateUnitSupply ss unit position) = false
      /\ forall b', ~ servedBy ss unit position b'
  end.
Proof.
  unfold SupplySystem.calculateUnitSupply; simpl.
  pose proof (nearerBase_fold position
                (SupplySystem.getBasesByFaction ss (faction unit)) None) as H.
  destruct (foldl _ None _) as [[b d]|]; simpl.
  - destruct H as (Hd & Hr & Hin & Hmin & _); [intros ? ? [=]|].
    destruct Hin as [[=]|Hin].
    unfold SupplySystem.getBasesByFaction in *.
    apply list_elem_of_In, filter_In in Hin as [Hin Hf].
    apply bool_decide_eq_true in Hf. apply list_elem_of_In in Hin.
    split; [reflexivity|]. split.
    + split; [exact Hin|]. split; [exact Hf | lia].
    + intros b' (Hin' & Hf' & Hr'). subst d. apply Hmin; [|exact Hr'].
      apply list_elem_of_In, filter_In. split; [by apply list_elem_of_In|].
      by apply bool_decide_eq_true.
  - destruct H as [_ Hout]; [intros ? ? [=]|].
    split; [reflexivity|].
    intros b' (Hin' & Hf' & Hr'). apply (Hout b'); [|exact Hr'].
    unfold SupplySystem.getBasesByFaction.
    apply list_elem_of_In, filter_In. split; [by apply list_elem_of_In|].
    by apply bool_decide_eq_true.
Qed.

Lemma set_supply_id (u : UnitData) :
  set_ammunitionCurrent (ammunitionCurrent u)
    (set_fuelCurrent (fuelCurrent u) u) = u.
Proof. destruct u; reflexivity. Qed.

(** C7. A unit within the supply range of some base of its own faction is
    served by the nearest such base; [resupplyUnit] then adds exactly
    min(maximum - current, production of that base) of fuel and of
    ammunition and changes nothing else, so neither resource exceeds its
    maximum.  With non-negative production rates a unit at both maxima is
    returned unchanged, and a unit at 10 of 50 fuel served by a base
    producing 60 gains exactly 40. *)
Theorem resupplyUnit_spec (ss : SupplySystem.t) (unit : UnitData)
    (position : GridPosition) (b0 : SupplySystem.SupplyBase) :
  servedBy ss unit position b0 ->
  exists base,
    servedBy ss unit position base /\
    (forall b', servedBy ss unit position b' ->
       manhattanDistance position (SupplySystem.basePosition base)
         <= manhattanDistance position (SupplySystem.basePosition b')) /\
    let r := SupplySystem.resupplyUnit ss unit position in
    SupplySystem.fuelAdded r.1
      = Z.min (fuelMax unit - fuelCurrent unit) (SupplySystem.fuelProduction base) /\
    SupplySystem.ammoAdded r.1
      = Z.min (ammunitionMax unit - ammunitionCurrent unit)
              (SupplySystem.ammunitionProduction base) /\
    r.2 = set_ammunitionCurrent
            (ammunitionCurrent unit + SupplySystem.ammoAdded r.1)
            (set_fuelCurrent (fuelCurrent unit + SupplySystem.fuelAdded r.1) unit) /\
    fuelCurrent r.2 <= fuelMax r.2 /\
    ammunitionCurrent r.2 <= ammunitionMax r.2 /\
    (fuelCurrent unit = fuelMax unit ->
     ammunitionCurrent unit = ammunitionMax unit ->
     0 <= SupplySystem.fuelProduction base ->
     0 <= SupplySystem.ammunitionProduction base ->
     r.2 = unit /\ SupplySystem.fuelAdded r.1 = 0 /\ SupplySystem.ammoAdded r.1 = 0) /\
    (fuelCurrent unit = 10 -> fuelMax unit = 50 ->
     SupplySystem.fuelProduction base = 60 ->
     SupplySystem.fuelAdded r.1 = 40 /\ fuelCurrent r.2 = 50).
Proof.
  intros Hserved.
  pose proof (calculateUnitSupply_nearest ss unit position) as Hn.
  unfold SupplySystem.resupplyUnit.
  destruct (SupplySystem.nearestBase _) as [base|] eqn:Hnb.
  2:{ destruct Hn as [_ Hn]. destruct (Hn b0 Hserved). }
  destruct Hn as (Hin & Hsb & Hmin). rewrite Hin.
  exists base. split; [exact Hsb|]. split; [exact Hmin|]. simpl.
  do 3 (split; [reflexivity|]).
  do 2 (split; [lia|]).
  split.
  - intros Hf Ha Hpf Hpa.
    rewrite !Z.min_l by lia. rewrite Hf, Ha, !Z.sub_diag, !Z.add_0_r.
    split; [|split; reflexivity].
    rewrite <- Hf, <- Ha. apply set_supply_id.
  - intros Hf Hm Hp. rewrite Hf, Hm, Hp. split; reflexivity.
Qed.

Lemma resupplyUnit_spec_witness :
  SupplySystem.fuelAdded
    (SupplySystem.resupplyUnit depotSystem
       (set_fuelCurrent 10 UnitTypes_infantry) (mkPos 3 4)).1 = 40.
Proof.
  destruct (resupplyUnit_spec depotSystem (set_fuelCurrent 10 UnitTypes_infantry)
              (mkPos 3 4) depot) as (base & _ & _ & _).
  - split; [apply list_elem_of_here|]. split; [reflexivity|]. vm_compute. discriminate.
  - reflexivity.
Defined.

Lemma captureBase_spec_witness :
  (SupplySystem.captureBase (SupplySystem.new (mapOfTerrain []))
     "outpost-1" Faction.ENEMY).1 = true.
Proof.
  pose proof (captureBase_spec (SupplySystem.new (mapOfTerrain [])) 2
    {| SupplySystem.baseId := "outpost-1";
       SupplySystem.basePosition := mkPos 0 0;
       SupplySystem.baseFaction := Faction.NEUTRAL;
       SupplySystem.baseName := "Central Outpost";
       SupplySystem.fuelProduction := 15;
       SupplySystem.ammunitionProduction := 10;
       SupplySystem.supplyRange := 6;
       SupplySystem.capturable := true |} Faction.ENEMY eq_refl) as H.
  simpl in H. apply H; [|reflexivity].
  intros j b' Hj Hlt.
  destruct j as [|[|j]]; [| |lia]; injection Hj as <-; discriminate.
Defined.

(** ** Combat resolution *)

(** The return paths of [resolveCombat]: out of ammunition; or, with or
    without ammunition bookkeeping, through the damage computation, which
    ends with a diplomatic consequence, with an untouched ledger, or
    without ledger.  A missing tile throws and leaves nothing to show. *)
Ltac resolveCombat_paths cs units a apos dpos :=
  unfold CombatSystem.resolveCombat;
  destruct (CombatSystem.supplySystem cs) as [?ss|];
  [ destruct (negb (SupplySystem.canUnitAttack (units a)).1) | ];
  try (destruct (tileAt (CombatSystem.map cs) apos); [|discriminate];
       destruct (tileAt (CombatSystem.map cs) dpos); [|discriminate];
       destruct (CombatSystem.diplomacySystem cs); [case_bool_decide|]).

(** What one call of [resolveCombat] leaves behind in the unit store: only
    the attacker's record can differ, and only in [ammunitionCurrent]. *)
Lemma resolveCombat_frame cs units a apos d dpos r cs' units' :
  CombatSystem.resolveCombat cs units a apos d dpos = Returned (r, cs', units') ->
  units' = units \/
  units' = <[ a := set_ammunitionCurrent
                     (ammunitionCurrent (units a) - ammunitionConsumptionRate (units a))
                     (units a) ]> units.
Proof.
  resolveCombat_paths cs units a apos dpos;
    intros [= _ _ <-]; first [by left | by right].
Qed.

Lemma set_ammunitionCurrent_back (u : UnitData) (v : Z) :
  set_ammunitionCurrent (ammunitionCurrent u) (set_ammunitionCurrent v u) = u.
Proof. destruct u; reflexivity. Qed.

Lemma set_ammunitionCurrent_same (u : UnitData) :
  set_ammunitionCurrent (ammunitionCurrent u) u = u.
Proof. destruct u; reflexivity. Qed.

(** The damage and the derived fields of a returned result. *)
Lemma resolveCombat_result cs units a apos d dpos r cs' units' :
  CombatSystem.resolveCombat cs units a apos d dpos = Returned (r, cs', units') ->
  1 <= CombatSystem.damage r /\
  CombatSystem.defenderRemainingHealth r
    = Z.max 0 (health (units d) - CombatSystem.damage r) /\
  CombatSystem.isKill r = (CombatSystem.defenderRemainingHealth r <=? 0) /\
  CombatSystem.attacker r = a /\ CombatSystem.defender r = d /\
  ammunitionCurrent (units' a)
    = ammunitionCurrent (units a) - CombatSystem.ammunitionConsumed r.
Proof.
  assert (Hh : forall v, health (<[ a := set_ammunitionCurrent v (units a) ]> units d)
                         = health (units d)).
  { intros v. destruct (decide (a = d)) as [->|Hne].
    - by rewrite fn_lookup_insert.
    - by rewrite fn_lookup_insert_ne. }
  resolveCombat_paths cs units a apos dpos;
    intros [= <- _ <-]; simpl; rewrite ?Hh, ?fn_lookup_insert;
    repeat split; simpl; lia.
Qed.

(** [resolveCombat] returns whenever both positions have a tile. *)
Lemma resolveCombat_returns cs units a apos d dpos :
  is_Some (tileAt (CombatSystem.map cs) apos) ->
  is_Some (tileAt (CombatSystem.map cs) dpos) ->
  exists r cs' units',
    CombatSystem.resolveCombat cs units a apos d dpos = Returned (r, cs', units').
Proof.
  intros [ta Hta] [td Htd]. unfold CombatSystem.resolveCombat. rewrite Hta, Htd.
  destruct (CombatSystem.supplySystem cs) as [ss|];
    [destruct (negb (SupplySystem.canUnitAttack (units a)).1)|];
    try (destruct (CombatSystem.diplomacySystem cs); [case_bool_decide|]);
    by eexists _, _, _.
Qed.

(** C2. For attacker and defender positions that have a tile,
    [resolveCombat] returns; and whenever it returns, the damage is at
    least 1, and a defender at exactly 1 health is reported killed, with 0
    health left. *)
Theorem resolveCombat_damage_floor cs units a apos d dpos :
  (is_Some (tileAt (CombatSystem.map cs) apos) ->
   is_Some (tileAt (CombatSystem.map cs) dpos) ->
   exists r cs' units',
     CombatSystem.resolveCombat cs units a apos d dpos = Returned (r, cs', units')) /\
  forall r cs' units',
    CombatSystem.resolveCombat cs units a apos d dpos = Returned (r, cs', units') ->
    1 <= CombatSystem.damage r /\
    (health (units d) = 1 ->
     CombatSystem.isKill r = true /\ CombatSystem.defenderRemainingHealth r = 0).
Proof.
  split; [apply resolveCombat_returns|].
  intros r cs' units' H. destruct (resolveCombat_result _ _ _ _ _ _ _ _ _ H)
    as (Hdmg & Hrem & Hkill & _).
  split; [exact Hdmg|]. intros H1.
  assert (Hz : CombatSystem.defenderRemainingHealth r = 0) by lia.
  split; [|exact Hz]. by rewrite Hkill, Hz.
Qed.

(** C3. With a supply system attached and less ammunition than one attack
    consumes, [resolveCombat] returns (it does not throw, whatever the
    positions) the fixed outcome: damage 1, no ammunition consumed,
    remaining health max(0, health - 1), a kill exactly when the defender
    had at most 1 health, no diplomatic consequence; the combat system and
    every unit are left as they were. *)
Theorem resolveCombat_without_ammunition cs ss units a apos d dpos :
  CombatSystem.supplySystem cs = Some ss ->
  ammunitionCurrent (units a) < ammunitionConsumptionRate (units a) ->
  CombatSystem.resolveCombat cs units a apos d dpos =
    Returned
      ({| CombatSystem.attacker := a; CombatSystem.defender := d;
          CombatSystem.damage := 1;
          CombatSystem.isKill := health (units d) <=? 1;
          CombatSystem.defenderRemainingHealth := Z.max 0 (health (units d) - 1);
          CombatSystem.ammunitionConsumed := 0;
          CombatSystem.diplomaticConsequence := None |}, cs, units).
Proof.
  intros Hss Hammo. unfold CombatSystem.resolveCombat. rewrite Hss.
  unfold SupplySystem.canUnitAttack; simpl.
  destruct (Z.ltb_spec (ammunitionCurrent (units a))
              (ammunitionConsumptionRate (units a))); [reflexivity | lia].
Qed.

(** C10. Whenever [resolveCombat] returns, every unit other than the
    attacker is exactly as before, so a defender that is not the attacker
    itself is untouched; no unit's health changes, the defender's included;
    the attacker differs from before at most in [ammunitionCurrent], which
    went down by the reported consumption; and the outcome for the defender
    is only reported, as remaining health max(0, health - damage) and the
    kill flag. *)
Theorem resolveCombat_only_writes_attacker_ammunition
    cs units a apos d dpos r cs' units' :
  CombatSystem.resolveCombat cs units a apos d dpos = Returned (r, cs', units') ->
  (forall u, u <> a -> units' u = units u) /\
  (d <> a -> units' d = units d) /\
  (forall u, health (units' u) = health (units u)) /\
  (forall u, set_ammunitionCurrent (ammunitionCurrent (units u)) (units' u) = units u) /\
  ammunitionCurrent (units' a)
    = ammunitionCurrent (units a) - CombatSystem.ammunitionConsumed r /\
  CombatSystem.defenderRemainingHealth r
    = Z.max 0 (health (units d) - CombatSystem.damage r) /\
  CombatSystem.isKill r = (CombatSystem.defenderRemainingHealth r <=? 0).
Proof.
  intros H.
  destruct (resolveCombat_result _ _ _ _ _ _ _ _ _ H)
    as (_ & Hrem & Hkill & _ & _ & Hammo).
  assert (Hframe : forall u,
            set_ammunitionCurrent (ammunitionCurrent (units u)) (units' u) = units u
            /\ (u <> a -> units' u = units u)).
  { intros u. destruct (resolveCombat_frame _ _ _ _ _ _ _ _ _ H) as [-> | ->].
    - split; [apply set_ammunitionCurrent_same | reflexivity].
    - destruct (decide (a = u)) as [->|Hne].
      + rewrite fn_lookup_insert. split; [apply set_ammunitionCurrent_back | congruence].
      + rewrite fn_lookup_insert_ne by exact Hne.
        split; [apply set_ammunitionCurrent_same | reflexivity]. }
  split; [intros u; apply Hframe|].
  split; [apply Hframe|].
  split.
  { intros u. destruct (Hframe u) as [Hu _].
    transitivity
      (health (set_ammunitionCurrent (ammunitionCurrent (units u)) (units' u)));
      [reflexivity | by rewrite Hu]. }
  split; [intros u; apply Hframe|].
  split; [exact Hammo|]. split; [exact Hrem | exact Hkill].
Qed.

(** The two end-to-end scenarios of the specification. *)
Example infantry_duel_in_supply :
  exists r cs' units',
    CombatSystem.resolveCombat suppliedCombat twoUnits 0 (mkPos 0 0) 1 (mkPos 1 0)
      = Returned (r, cs', units') /\
    CombatSystem.damage r = 22 /\
    CombatSystem.defenderRemainingHealth r = 68 /\
    CombatSystem.isKill r = false /\
    CombatSystem.ammunitionConsumed r = 5.
Proof.
  destruct (CombatSystem.resolveCombat suppliedCombat twoUnits 0 (mkPos 0 0) 1 (mkPos 1 0))
    as [[[r cs'] units']| |] eqn:H; vm_compute in H; try discriminate.
  exists r, cs', units'. split; [reflexivity|].
  injection H as <- _ _. repeat split.
Qed.

Example infantry_duel_out_of_supply :
  exists r cs' units',
    CombatSystem.resolveCombat strandedCombat twoUnits 0 (mkPos 0 0) 1 (mkPos 1 0)
      = Returned (r, cs', units') /\
    CombatSystem.damage r = 28.
Proof.
  destruct (CombatSystem.resolveCombat strandedCombat twoUnits 0 (mkPos 0 0) 1 (mkPos 1 0))
    as [[[r cs'] units']| |] eqn:H; vm_compute in H; try discriminate.
  exists r, cs', units'. split; [reflexivity|].
  injection H as <- _ _. reflexivity.
Qed.

Lemma resolveCombat_damage_floor_witness :
  exists r cs' units',
    CombatSystem.resolveCombat suppliedCombat twoUnits 0 (mkPos 0 0) 1 (mkPos 1 0)
      = Returned (r, cs', units') /\
    1 <= CombatSystem.damage r.
Proof.
  destruct (resolveCombat_damage_floor suppliedCombat twoUnits 0 (mkPos 0 0) 1 (mkPos 1 0))
    as [Hreturns Hfloor].
  destruct Hreturns as (r & cs' & units' & H); [by eexists | by eexists |].
  exists r, cs', units'. split; [exact H|]. exact (proj1 (Hfloor _ _ _ H)).
Defined.

Lemma resolveCombat_without_ammunition_witness :
  exists r,
    CombatSystem.resolveCombat suppliedCombat
      (fun _ => set_ammunitionCurrent 4 UnitTypes_infantry)
      0 (mkPos 0 0) 1 (mkPos 7 7)
    = Returned (r, suppliedCombat, fun _ => set_ammunitionCurrent 4 UnitTypes_infantry)
    /\ CombatSystem.damage r = 1 /\ CombatSystem.ammunitionConsumed r = 0.
Proof.
  eexists. split.
  - apply (resolveCombat_without_ammunition suppliedCombat
             (SupplySystem.new plainsStrip)
             (fun _ => set_ammunitionCurrent 4 UnitTypes_infantry)
             0 (mkPos 0 0) 1 (mkPos 7 7)); [reflexivity | simpl; lia].
  - split; reflexivity.
Defined.

Lemma resolveCombat_only_writes_attacker_ammunition_witness :
  exists r cs' units',
    CombatSystem.resolveCombat suppliedCombat twoUnits 0 (mkPos 0 0) 1 (mkPos 1 0)
      = Returned (r, cs', units') /\
    (1%nat <> 0%nat -> units' 1%nat = twoUnits 1%nat).
Proof.
  destruct (CombatSystem.resolveCombat suppliedCombat twoUnits 0 (mkPos 0 0) 1 (mkPos 1 0))
    as [[[r cs'] units']| |] eqn:H.
  - exists r, cs', units'. split; [reflexivity|].
    exact (proj1 (proj2
             (resolveCombat_only_writes_attacker_ammunition _ _ _ _ _ _ _ _ _ H))).
  - vm_compute in H. discriminate.
  - vm_compute in H. discriminate.
Defined.

(** When the unit attacks itself the defender is the attacker, and its
    ammunition is what the call consumes. *)
Example self_attack_consumes_own_ammunition :
  exists r cs' units',
    CombatSystem.resolveCombat suppliedCombat twoUnits 0 (mkPos 0 0) 0 (mkPos 0 0)
      = Returned (r, cs', units') /\
    ammunitionCurrent (units' 0%nat) = 25 /\ health (units' 0%nat) = 100.
Proof.
  destruct (CombatSystem.resolveCombat suppliedCombat twoUnits 0 (mkPos 0 0) 0 (mkPos 0 0))
    as [[[r cs'] units']| |] eqn:H; vm_compute in H; try discriminate.
  exists r, cs', units'. split; [reflexivity|].
  injection H as _ _ <-. split; reflexivity.
Qed.

(** ** Utility scoring: pursuit *)

(** For a single enemy in the pursuit band the reported score is the
    computed score of that enemy whenever that score is positive. *)
Lemma evaluateMoveToEnemy_single unit position enemy :
  let distance := manhattanDistance position enemy.2 in
  attackRange unit < distance <= detectionRange unit ->
  (0 < computedPursuitScore unit distance)%Q ->
  UtilityAI.score
    (UtilityAI.evaluateMoveToEnemy
       {| UtilityAI.unit := unit; UtilityAI.position := position;
          UtilityAI.enemies := [enemy]; UtilityAI.allies := [] |})
  = computedPursuitScore unit distance.
Proof.
  intros distance Hband Hpos.
  unfold UtilityAI.evaluateMoveToEnemy; simpl.
  unfold UtilityAI.considerPursuit. fold distance.
  destruct (Z.ltb_spec (attackRange unit) distance); [|lia].
  destruct (Z.leb_spec distance (detectionRange unit)); [|lia]. simpl.
  fold (computedPursuitScore unit distance).
  unfold UtilityAI.Qgtb at 1.
  destruct (Qle_bool (computedPursuitScore unit distance) 0) eqn:Hle; simpl.
  - apply Qle_bool_iff in Hle. exfalso. exact (Qlt_not_le _ _ Hpos Hle).
  - reflexivity.
Qed.

(** C4 (evidence). For the enemy of [pursuitContext], which is beyond the
    attack range and within the detection range, [evaluateMoveToEnemy]
    reports 1.55 where the specified formula gives 0.75: the last term is
    computed as 1 - (distance / detectionRange) x 0.2. *)
Theorem evaluateMoveToEnemy_distance_term :
  let unit := UtilityAI.unit pursuitContext in
  let distance := manhattanDistance (UtilityAI.position pursuitContext) (mkPos 4 0) in
  attackRange unit < distance <= detectionRange unit /\
  (UtilityAI.score (UtilityAI.evaluateMoveToEnemy pursuitContext) == 1.55)%Q /\
  (specifiedPursuitScore unit distance == 0.75)%Q /\
  (UtilityAI.score (UtilityAI.evaluateMoveToEnemy pursuitContext)
   == computedPursuitScore unit distance)%Q.
Proof.
  vm_compute. repeat split; intros; discriminate.
Qed.

(** ** Behavior tree: enemy detection by diplomacy *)

Lemma isHostile_spec node other :
  CheckEnemyByDiplomacyNode.isHostile node other = true <->
  manhattanDistance (CheckEnemyByDiplomacyNode.position node) other.2
    <= CheckEnemyByDiplomacyNode.range node /\
  ((CheckEnemyByDiplomacyNode.relationshipStatus node = RelationshipStatus.WAR \/
    CheckEnemyByDiplomacyNode.relationshipStatus node = RelationshipStatus.HOSTILE) ->
   faction other.1 <> faction (CheckEnemyByDiplomacyNode.unit node)).
Proof.
  unfold CheckEnemyByDiplomacyNode.isHostile.
  set (filtered :=
         bool_decide (CheckEnemyByDiplomacyNode.relationshipStatus node
                      = RelationshipStatus.WAR)
         || bool_decide (CheckEnemyByDiplomacyNode.relationshipStatus node
                         = RelationshipStatus.HOSTILE)).
  assert (Hfiltered : filtered = true <->
            CheckEnemyByDiplomacyNode.relationshipStatus node = RelationshipStatus.WAR \/
            CheckEnemyByDiplomacyNode.relationshipStatus node = RelationshipStatus.HOSTILE).
  { unfold filtered. rewrite orb_true_iff, !bool_decide_eq_true. reflexivity. }
  destruct filtered; simpl.
  - case_bool_decide as Hsame; simpl.
    + split; [discriminate|]. intros [_ Hne]. destruct Hne; [|exact Hsame].
      by apply Hfiltered.
    + rewrite Z.leb_le. split; [intros Hr; split; [exact Hr | intros _; exact Hsame]|].
      intros [Hr _]. exact Hr.
  - rewrite Z.leb_le. split; [|intros [Hr _]; exact Hr].
    intros Hr. split; [exact Hr|]. intros Htier. apply Hfiltered in Htier. discriminate.
Qed.

(** C9 (as amended). [execute] returns success exactly when some listed unit
    is within the range and, if the node was built for the war or hostile
    tier, belongs to another faction than the asking unit; for any other
    tier every listed unit within the range counts, whatever its faction.
    Otherwise it returns failure.  The range is the given one when it is
    positive and the asking unit's detection range otherwise, and the
    returned state is the one cached in the node. *)
Theorem checkEnemyByDiplomacy_execute unit position units status range :
  let node := CheckEnemyByDiplomacyNode.new unit position units status range in
  CheckEnemyByDiplomacyNode.range node
    = match range with
      | Some r => if decide (0 < r) then r else detectionRange unit
      | None => detectionRange unit
      end /\
  ((CheckEnemyByDiplomacyNode.execute node).1 = NodeState.SUCCESS <-> detects node) /\
  ((CheckEnemyByDiplomacyNode.execute node).1 = NodeState.FAILURE <-> ~ detects node) /\
  CheckEnemyByDiplomacyNode._state (CheckEnemyByDiplomacyNode.execute node).2
    = (CheckEnemyByDiplomacyNode.execute node).1.
Proof.
  intros node.
  assert (Hdet : detects node <->
            exists other, other ∈ List.filter (CheckEnemyByDiplomacyNode.isHostile node)
                                    (CheckEnemyByDiplomacyNode.units node)).
  { unfold detects. split.
    - intros (other & Hin & Hr & Hf). exists other.
      apply list_elem_of_In, filter_In. split; [by apply list_elem_of_In|].
      apply isHostile_spec. by split.
    - intros (other & Hin). apply list_elem_of_In, filter_In in Hin as [Hin Hh].
      apply isHostile_spec in Hh as [Hr Hf]. exists other.
      split; [by apply list_elem_of_In|]. by split. }
  split.
  { subst node. unfold CheckEnemyByDiplomacyNode.new; simpl.
    destruct range as [r|]; simpl; [|reflexivity].
    case_decide; destruct (Z.ltb_spec 0 r); (reflexivity || lia). }
  unfold CheckEnemyByDiplomacyNode.execute; simpl.
  destruct (List.filter _ _) as [|h l] eqn:Hfl; simpl.
  - split; [|split; [|reflexivity]].
    + split; [discriminate|]. intros Hd. apply Hdet in Hd as [o Ho].
      by apply elem_of_nil in Ho.
    + split; [|reflexivity]. intros _ Hd. apply Hdet in Hd as [o Ho].
      by apply elem_of_nil in Ho.
  - split; [|split; [|reflexivity]].
    + split; [|reflexivity]. intros _. apply Hdet. exists h. apply list_elem_of_here.
    + split; [discriminate|]. intros Hn. exfalso. apply Hn, Hdet.
      exists h. apply list_elem_of_here.
Qed.

(** C9 (counterexample). Without tier filter the condition does not ask for
    another faction: [friendlyNeighbourNode] succeeds although no listed
    unit within its range is of another faction than the asking unit. *)
Lemma checkEnemyByDiplomacy_counts_own_faction :
  (CheckEnemyByDiplomacyNode.execute friendlyNeighbourNode).1 = NodeState.SUCCESS /\
  ~ exists other,
      other ∈ CheckEnemyByDiplomacyNode.units friendlyNeighbourNode /\
      manhattanDistance (CheckEnemyByDiplomacyNode.position friendlyNeighbourNode) other.2
        <= CheckEnemyByDiplomacyNode.range friendlyNeighbourNode /\
      faction other.1 <> faction (CheckEnemyByDiplomacyNode.unit friendlyNeighbourNode).
Proof.
  split; [reflexivity|].
  intros (other & Hin & _ & Hf).
  apply list_elem_of_singleton in Hin. subst other. apply Hf. reflexivity.
Qed.

(** ** Pathfinding: position keys *)

(** A string without the separator of [posToKey]. *)
Fixpoint commaFree (s : string) : Prop :=
  match s with
  | EmptyString => True
  | String c s' => c <> ","%char /\ commaFree s'
  end.

Lemma pretty_N_char_not_comma (n : N) : pretty_N_char n <> ","%char.
Proof. unfold pretty_N_char. repeat case_match; discriminate. Qed.

Lemma pretty_N_go_commaFree (n : N) : forall s,
  commaFree s -> commaFree (pretty_N_go n s).
Proof.
  induction (N.lt_wf_0 n) as [n _ IH]; intros s Hs.
  destruct (decide (n = 0)%N) as [->|Hn].
  - by rewrite pretty_N_go_0.
  - rewrite pretty_N_go_step by lia.
    apply IH; [apply N.div_lt; lia|].
    split; [apply pretty_N_char_not_comma | exact Hs].
Qed.

Lemma pretty_Z_commaFree (z : Z) : commaFree (pretty z).
Proof.
  assert (HN : forall n : N, commaFree (pretty n)).
  { intros n. unfold pretty, pretty_N. case_decide; [by repeat split|].
    by apply pretty_N_go_commaFree. }
  destruct z as [|p|p]; unfold pretty, pretty_Z.
  - by repeat split.
  - apply HN.
  - split; [discriminate | apply HN].
Qed.

Lemma comma_split_unique (s1 : string) : forall s2 t1 t2,
  commaFree s1 -> commaFree s2 ->
  s1 +:+ "," +:+ t1 = s2 +:+ "," +:+ t2 -> s1 = s2 /\ t1 = t2.
Proof.
  induction s1 as [|c s1 IH]; intros [|c2 s2] t1 t2 H1 H2; simpl; intros Heq.
  - by injection Heq.
  - injection Heq as Hc _. destruct H2 as [H2 _]. congruence.
  - injection Heq as Hc _. destruct H1 as [H1 _]. congruence.
  - injection Heq as -> Heq. destruct H1 as [_ H1], H2 as [_ H2].
    destruct (IH s2 t1 t2 H1 H2 Heq) as [-> ->]. done.
Qed.

#[global] Instance posToKey_inj : Inj (=) (=) posToKey.
Proof.
  intros [x1 y1] [x2 y2]. unfold posToKey; simpl. intros Heq.
  apply comma_split_unique in Heq as [Hx Hy]; try apply pretty_Z_commaFree.
  by apply (inj pretty) in Hx as ->; apply (inj pretty) in Hy as ->.
Qed.

Example posToKey_example : posToKey (mkPos 12 (-3)) = "12,-3".
Proof. reflexivity. Qed.

(** The cells of the grid, row by row. *)
Definition gridCells (map : GameMap) : list GridPosition :=
  List.map (fun ji => mkPos (Z.of_nat ji.2) (Z.of_nat ji.1))
    (list_prod (seq 0 (Z.to_nat (height map))) (seq 0 (Z.to_nat (width map)))).

Lemma getNeighbors_elem u v w h :
  v ∈ getNeighbors u w h ->
  (0 <= x v < w /\ 0 <= y v < h) /\
  Z.abs (x u - x v) + Z.abs (y u - y v) = 1.
Proof.
  unfold getNeighbors. intros Hin.
  apply list_elem_of_In, filter_In in Hin as [Hin Hb].
  assert (Hbounds : 0 <= x v < w /\ 0 <= y v < h) by lia.
  split; [exact Hbounds|].
  simpl in Hin. destruct Hin as [<-|[<-|[<-|[<-|[]]]]]; simpl; lia.
Qed.

Lemma walk_route map mt s l v c : walk map mt s l v c -> route map mt s v c.
Proof. induction 1; econstructor; eauto. Qed.

Lemma leastCost_unique map mt s v c1 c2 :
  leastCost map mt s v c1 -> leastCost map mt s v c2 -> c1 = c2.
Proof. intros [H1 M1] [H2 M2]. specialize (M1 _ H2). specialize (M2 _ H1). lia. Qed.

Lemma gridCells_length map :
  length (gridCells map) = (Z.to_nat (height map) * Z.to_nat (width map))%nat.
Proof. unfold gridCells. by rewrite length_map, length_prod, !length_seq. Qed.

Lemma gridCells_elem map p : inBounds map p -> p ∈ gridCells map.
Proof.
  intros [Hx Hy]. unfold gridCells. apply list_elem_of_In, in_map_iff.
  exists (Z.to_nat (y p), Z.to_nat (x p)). split.
  - destruct p as [px py]; simpl in *. f_equal; lia.
  - apply in_prod_iff. rewrite !in_seq. lia.
Qed.

Section Graph.
Variable map : GameMap.
Variable mt : MovementType.t.
Hypothesis Hwf : wellFormedMap map.

Lemma step_inBounds u v w : step map mt u v w -> inBounds map v.
Proof. intros [Hn _]. by apply getNeighbors_elem in Hn as [? _]. Qed.

Lemma step_cost_pos u v w : step map mt u v w -> 1 <= w.
Proof.
  intros (_ & t & Ht & Htrav & ->).
  unfold PathFinder.notTraversable, PathFinder.stepCost in *.
  destruct mt; simpl in *.
  - destruct Hwf as [_ Hcost]. apply (Hcost v t Ht).
    destruct (isWalkable (terrain t)); [reflexivity | discriminate].
  - lia.
Qed.

Lemma step_ne u v w : step map mt u v w -> v <> u.
Proof.
  intros [Hn _] ->. apply getNeighbors_elem in Hn as [_ Hd]. lia.
Qed.

(** The Manhattan distance to any target is a consistent estimate. *)
Lemma manhattan_consistent u v w e :
  step map mt u v w -> manhattanDistance u e <= w + manhattanDistance v e.
Proof.
  intros Hs. pose proof (step_cost_pos _ _ _ Hs) as Hw.
  destruct Hs as [Hn _]. apply getNeighbors_elem in Hn as [_ Hd].
  unfold manhattanDistance. lia.
Qed.

Lemma route_nonneg s v c : route map mt s v c -> 0 <= c.
Proof.
  induction 1 as [|u v c w _ IH Hs]; [lia|].
  apply step_cost_pos in Hs. lia.
Qed.

Lemma route_cell s v c : route map mt s v c -> v = s \/ inBounds map v.
Proof.
  induction 1 as [|u v c w _ _ Hs]; [by left|]. right. by eapply step_inBounds.
Qed.

End Graph.

(** ** Pathfinding: the open list in [fCost] order *)

Lemma insertByFCost_perm n l : PathFinder.insertByFCost n l ≡ₚ n :: l.
Proof.
  induction l as [|m l IH]; simpl; [done|].
  destruct (PathFinder.fCost n <=? PathFinder.fCost m); [done|].
  rewrite IH. apply Permutation_swap.
Qed.

Lemma sortByFCost_perm l : PathFinder.sortByFCost l ≡ₚ l.
Proof.
  induction l as [|n l IH]; simpl; [done|].
  unfold PathFinder.sortByFCost in *; simpl.
  by rewrite insertByFCost_perm, IH.
Qed.

Definition fCostSorted : list PathFinder.PathNode -> Prop :=
  StronglySorted (fun a b => PathFinder.fCost a <= PathFinder.fCost b).

Lemma insertByFCost_sorted n l :
  fCostSorted l -> fCostSorted (PathFinder.insertByFCost n l).
Proof.
  unfold fCostSorted.
  induction 1 as [|m l Hl IH Hm]; simpl.
  - constructor; [constructor | constructor].
  - destruct (Z.leb_spec (PathFinder.fCost n) (PathFinder.fCost m)).
    + constructor; [by constructor|].
      constructor; [lia|]. eapply Forall_impl; [exact Hm|]. simpl. intros; lia.
    + constructor; [exact IH|].
      rewrite insertByFCost_perm. constructor; [lia | exact Hm].
Qed.

Lemma sortByFCost_sorted l : fCostSorted (PathFinder.sortByFCost l).
Proof.
  induction l as [|n l IH]; simpl; [constructor|].
  by apply insertByFCost_sorted.
Qed.

(** The node that [shift] removes after the sort has the least [fCost]. *)
Lemma sortByFCost_head l cur rest :
  PathFinder.sortByFCost l = cur :: rest ->
  cur :: rest ≡ₚ l /\
  forall n, n ∈ l -> PathFinder.fCost cur <= PathFinder.fCost n.
Proof.
  intros Heq. pose proof (sortByFCost_perm l) as Hp.
  pose proof (sortByFCost_sorted l) as Hs. rewrite Heq in Hp, Hs.
  split; [exact Hp|]. intros n Hn. rewrite <- Hp in Hn.
  apply StronglySorted_inv in Hs as [_ Hall].
  apply elem_of_cons in Hn as [->|Hn]; [lia|].
  rewrite Forall_forall in Hall. by apply Hall.
Qed.

(** ** Pathfinding: the A* search of [findPath] *)

Import PathFinder.

(** The cells the search can still close: the start and the grid cells
    whose key is not in the closed set. *)
Definition unclosedCells (map : GameMap) (s : GridPosition)
    (closedSet : gmap string PathNode) : list GridPosition :=
  List.filter (fun p => bool_decide (closedSet !! posToKey p = None))
    (s :: gridCells map).

Lemma filter_length_mono {A} (f g : A -> bool) (l : list A) :
  (forall a, g a = true -> f a = true) ->
  (length (List.filter g l) <= length (List.filter f l))%nat.
Proof.
  intros Himp. induction l as [|a l IH]; simpl; [lia|].
  destruct (g a) eqn:Hg; [rewrite (Himp a Hg); simpl; lia|].
  destruct (f a); simpl; lia.
Qed.

Lemma filter_length_lt {A} (f g : A -> bool) (l : list A) (a0 : A) :
  (forall a, g a = true -> f a = true) ->
  a0 ∈ l -> f a0 = true -> g a0 = false ->
  (length (List.filter g l) < length (List.filter f l))%nat.
Proof.
  intros Himp Hin Hf Hg. induction l as [|a l IH]; [by apply elem_of_nil in Hin|].
  apply elem_of_cons in Hin as [<-|Hin]; simpl.
  - rewrite Hf, Hg; simpl. pose proof (filter_length_mono f g l Himp). lia.
  - specialize (IH Hin). destruct (g a) eqn:Hga; [rewrite (Himp a Hga); simpl; lia|].
    destruct (f a); simpl; lia.
Qed.

Lemma unclosedCells_insert map s closedSet p n :
  closedSet !! posToKey p = None -> p ∈ s :: gridCells map ->
  (length (unclosedCells map s (<[ posToKey p := n ]> closedSet))
   < length (unclosedCells map s closedSet))%nat.
Proof.
  intros Hnone Hin. unfold unclosedCells.
  apply filter_length_lt with (a0 := p); [|exact Hin| |].
  - intros a Ha. apply bool_decide_eq_true in Ha. apply bool_decide_eq_true.
    destruct (decide (posToKey p = posToKey a)) as [Heq|Hne].
    + by rewrite Heq, lookup_insert_eq in Ha.
    + by rewrite lookup_insert_ne in Ha.
  - by apply bool_decide_eq_true.
  - apply bool_decide_eq_false. by rewrite lookup_insert_eq.
Qed.

Lemma unclosedCells_bound map s closedSet :
  (length (unclosedCells map s closedSet)
   <= S (Z.to_nat (width map) * Z.to_nat (height map)))%nat.
Proof.
  unfold unclosedCells.
  etrans; [apply List.filter_length_le|]. simpl. rewrite gridCells_length. lia.
Qed.

Section AStar.
Variable map : GameMap.
Variable mt : MovementType.t.
Hypothesis Hwf : wellFormedMap map.
Variables s e : GridPosition.

(** The parent links of a node spell a walk from the start to its position,
    and its [gCost] is the cost of that walk. *)
Definition chainOk (n : PathNode) : Prop :=
  walk map mt s (parentChain n) (position n) (gCost n).

(** An open node has a sound parent chain and the estimate of the code, and
    its position is not closed. *)
Definition openOk (closedSet : gmap string PathNode) (n : PathNode) : Prop :=
  chainOk n /\
  hCost n = manhattanDistance (position n) e /\
  fCost n = gCost n + hCost n /\
  closedSet !! posToKey (position n) = None.

(** A closed node is filed under its own key, carries the least cost to
    its position along a sound parent chain, and is not the target. *)
Definition closedOk (k : string) (n : PathNode) : Prop :=
  k = posToKey (position n) /\
  leastCost map mt s (position n) (gCost n) /\
  position n <> e /\
  chainOk n.

(** The move from the closed node [n] into [v] at price [w] has been
    taken into account. *)
Definition relaxedInto (openSet : list PathNode)
    (closedSet : gmap string PathNode) (n : PathNode)
    (v : GridPosition) (w : Z) : Prop :=
  is_Some (closedSet !! posToKey v) \/
  exists n', n' ∈ openSet /\ position n' = v /\ gCost n' <= gCost n + w.

Definition startKnown (openSet : list PathNode)
    (closedSet : gmap string PathNode) : Prop :=
  is_Some (closedSet !! posToKey s) \/
  exists n, n ∈ openSet /\ position n = s /\ gCost n <= 0.

(** The invariant of the [while] loop of [findPath]. *)
Record searchInv (openSet : list PathNode)
    (closedSet : gmap string PathNode) : Prop := {
  inv_open : Forall (openOk closedSet) openSet;
  inv_nodup : NoDup (position <$> openSet);
  inv_closed : map_Forall closedOk closedSet;
  inv_relaxed : forall k n v w,
    closedSet !! k = Some n -> step map mt (position n) v w ->
    relaxedInto openSet closedSet n v w;
  inv_start : startKnown openSet closedSet
}.

(** The invariant of the [for] loop over the neighbours of [cur], once
    [cur] is in the closed set: the moves out of [cur] are accounted for
    as far as the neighbours in [done]. *)
Record visitInv (cur : PathNode) (closedSet : gmap string PathNode)
    (done : list GridPosition) (openSet : list PathNode) : Prop := {
  vis_open : Forall (openOk closedSet) openSet;
  vis_nodup : NoDup (position <$> openSet);
  vis_relaxed : forall k n v w,
    closedSet !! k = Some n -> step map mt (position n) v w ->
    position n <> position cur \/ v ∈ done ->
    relaxedInto openSet closedSet n v w;
  vis_start : startKnown openSet closedSet
}.

(** [openSet'] knows every position of [openSet] at a cost no higher. *)
Definition refines (openSet openSet' : list PathNode) : Prop :=
  forall n, n ∈ openSet ->
    exists n', n' ∈ openSet' /\ position n' = position n /\ gCost n' <= gCost n.

Lemma relaxedInto_refines openSet openSet' closedSet n v w :
  refines openSet openSet' ->
  relaxedInto openSet closedSet n v w -> relaxedInto openSet' closedSet n v w.
Proof.
  intros Href [Hc|(n' & Hin & Hp & Hg)]; [by left|].
  destruct (Href n' Hin) as (n'' & Hin' & Hp' & Hg').
  right. exists n''. split; [exact Hin'|]. split; [congruence | lia].
Qed.

Lemma startKnown_refines openSet openSet' closedSet :
  refines openSet openSet' ->
  startKnown openSet closedSet -> startKnown openSet' closedSet.
Proof.
  intros Href [Hc|(n' & Hin & Hp & Hg)]; [by left|].
  destruct (Href n' Hin) as (n'' & Hin' & Hp' & Hg').
  right. exists n''. split; [exact Hin'|]. split; [congruence | lia].
Qed.

(** Every route ends in a closed position or passes an open node whose
    [fCost] does not exceed the cost of the route plus the estimate from
    its end. *)
Lemma frontier openSet closedSet v c :
  searchInv openSet closedSet -> route map mt s v c ->
  is_Some (closedSet !! posToKey v) \/
  exists n, n ∈ openSet /\ fCost n <= c + manhattanDistance v e.
Proof.
  intros Hinv. induction 1 as [|u v c w Hr IH Hs].
  - destruct (inv_start _ _ Hinv) as [Hc|(n & Hin & Hp & Hg)]; [by left|].
    right. exists n. split; [exact Hin|].
    pose proof (inv_open _ _ Hinv) as Hopen. rewrite Forall_forall in Hopen.
    destruct (Hopen n Hin) as (_ & Hh & Hf & _). rewrite Hf, Hh, Hp. lia.
  - pose proof (manhattan_consistent map mt Hwf u v w e Hs) as Hcons.
    destruct IH as [[nu Hnu]|(n & Hin & Hf)].
    + destruct (inv_closed _ _ Hinv _ _ Hnu) as (Hk & [_ Hleast] & _ & _).
      apply (inj posToKey) in Hk. subst u.
      specialize (Hleast c Hr).
      destruct (inv_relaxed _ _ Hinv _ _ _ _ Hnu Hs) as [Hc|(n' & Hin & Hp & Hg)];
        [by left|].
      right. exists n'. split; [exact Hin|].
      pose proof (inv_open _ _ Hinv) as Hopen. rewrite Forall_forall in Hopen.
      destruct (Hopen n' Hin) as (_ & Hh & Hf & _). rewrite Hf, Hh, Hp. lia.
    + right. exists n. split; [exact Hin | lia].
Qed.

Lemma searchInv_perm openSet openSet' closedSet :
  openSet ≡ₚ openSet' -> searchInv openSet closedSet -> searchInv openSet' closedSet.
Proof.
  intros Hp [Ho Hn Hc Hr Hs]. split.
  - by rewrite <- Hp.
  - by rewrite <- Hp.
  - exact Hc.
  - intros k n v w Hk Hst. destruct (Hr k n v w Hk Hst) as [?|(n' & Hin & ?)];
      [by left|]. right. exists n'. by rewrite <- Hp.
  - destruct Hs as [?|(n' & Hin & ?)]; [by left|]. right. exists n'. by rewrite <- Hp.
Qed.

End AStar.

Section AStarSteps.
Variable map : GameMap.
Variable mt : MovementType.t.
Hypothesis Hwf : wellFormedMap map.
Variables s e : GridPosition.

Lemma closed_node_at_key (closedSet : gmap string PathNode) cur k n :
  map_Forall (closedOk map mt s e) closedSet ->
  closedSet !! posToKey (position cur) = Some cur ->
  closedSet !! k = Some n -> position n = position cur -> n = cur.
Proof.
  intros Hc Hcur Hk Hp. destruct (Hc _ _ Hk) as (-> & _). rewrite Hp in Hk. congruence.
Qed.

Lemma visitInv_extend cur (closedSet : gmap string PathNode) done openSet openSet' v :
  map_Forall (closedOk map mt s e) closedSet ->
  closedSet !! posToKey (position cur) = Some cur ->
  visitInv map mt s e cur closedSet done openSet ->
  Forall (openOk map mt s e closedSet) openSet' ->
  NoDup (position <$> openSet') ->
  refines openSet openSet' ->
  (forall w, step map mt (position cur) v w -> relaxedInto openSet' closedSet cur v w) ->
  visitInv map mt s e cur closedSet (v :: done) openSet'.
Proof.
  intros Hc Hcur [Ho Hn Hr Hs] Ho' Hn' Href Hv. split; [exact Ho' | exact Hn' | |].
  - intros k n v' w Hk Hst Hcase.
    destruct (decide (position n = position cur)) as [Heq|Hne].
    + destruct Hcase as [?|Hin]; [done|].
      apply elem_of_cons in Hin as [->|Hin].
      * rewrite (closed_node_at_key _ _ _ _ Hc Hcur Hk Heq) in *. by apply Hv.
      * eapply relaxedInto_refines; [exact Href|]. eapply Hr; eauto.
    + eapply relaxedInto_refines; [exact Href|]. eapply Hr; eauto.
  - by eapply startKnown_refines.
Qed.

Lemma refines_refl openSet : refines openSet openSet.
Proof. intros n Hn. exists n. split; [exact Hn|]. split; [reflexivity | lia]. Qed.

(** One neighbour visited: the body of the [for] loop keeps [visitInv] and
    does not throw on a well-formed map. *)
Lemma visitNeighbor_inv cur (closedSet : gmap string PathNode) done openSet v :
  map_Forall (closedOk map mt s e) closedSet ->
  closedSet !! posToKey (position cur) = Some cur ->
  v ∈ getNeighbors (position cur) (width map) (height map) ->
  visitInv map mt s e cur closedSet done openSet ->
  exists openSet',
    visitNeighbor map mt e None closedSet cur openSet v = Some openSet' /\
    visitInv map mt s e cur closedSet (v :: done) openSet'.
Proof.
  intros Hc Hcur Hnb Hinv.
  assert (Hb : inBounds map v) by (by apply getNeighbors_elem in Hnb as [? _]).
  destruct (proj1 Hwf v Hb) as [t Ht].
  destruct (Hc _ _ Hcur) as (_ & _ & _ & Hchain).
  unfold visitNeighbor. rewrite Ht.
  destruct (notTraversable mt t) eqn:Htrav; simpl.
  { exists openSet. split; [reflexivity|].
    apply (visitInv_extend _ _ _ _ _ _ Hc Hcur Hinv);
      [apply Hinv | apply Hinv | apply refines_refl |].
    intros w (_ & t' & Ht' & Htrav' & _). congruence. }
  case_bool_decide as Hclosed.
  { exists openSet. split; [reflexivity|].
    apply (visitInv_extend _ _ _ _ _ _ Hc Hcur Hinv);
      [apply Hinv | apply Hinv | apply refines_refl |].
    intros w _. by left. }
  apply eq_None_not_Some in Hclosed.
  set (g' := gCost cur + stepCost mt t).
  assert (Hstep : step map mt (position cur) v (stepCost mt t)).
  { split; [exact Hnb|]. by exists t. }
  assert (Hw : forall w, step map mt (position cur) v w -> w = stepCost mt t).
  { intros w (_ & t' & Ht' & _ & ->). congruence. }
  assert (Hchain' : walk map mt s (parentChain cur ++ [v]) v g')
    by (by eapply walk_move).
  destruct (list_find _ openSet) as [[i ex]|] eqn:Hfind.
  - apply list_find_Some in Hfind as (Hi & Hpos & Hfirst).
    assert (Hex : ex ∈ openSet) by (apply list_elem_of_lookup; eauto).
    destruct (Z.ltb_spec g' (gCost ex)) as [Hlt|Hge].
    + eexists. split; [reflexivity|].
      set (nn := {| position := position ex; gCost := g'; hCost := hCost ex;
                    fCost := g' + hCost ex; parent := Some cur |}).
      pose proof (vis_open _ _ _ _ _ _ _ _ Hinv) as Hopen.
      assert (Hexok : openOk map mt s e closedSet ex)
        by (rewrite Forall_forall in Hopen; by apply Hopen).
      apply (visitInv_extend _ _ _ _ _ _ Hc Hcur Hinv).
      * apply Forall_insert; [exact Hopen|].
        destruct Hexok as (_ & Hh & _ & Hcl).
        split; [unfold chainOk; simpl; by rewrite Hpos|].
        split; [exact Hh|]. split; [reflexivity | exact Hcl].
      * rewrite list_fmap_insert. simpl. rewrite list_insert_id.
        -- apply Hinv.
        -- by rewrite list_lookup_fmap, Hi.
      * intros n Hn. apply list_elem_of_lookup in Hn as [j Hj].
        destruct (decide (j = i)) as [->|Hne].
        -- exists nn. split.
           ++ apply list_elem_of_lookup. exists i. apply list_lookup_insert_eq.
              by eapply lookup_lt_Some.
           ++ assert (n = ex) by congruence. subst n. split; [reflexivity | simpl; lia].
        -- exists n. split.
           ++ apply list_elem_of_lookup. exists j. by rewrite list_lookup_insert_ne.
           ++ split; [reflexivity | lia].
      * intros w Hst. rewrite (Hw _ Hst). right. exists nn. split.
        -- apply list_elem_of_lookup. exists i. apply list_lookup_insert_eq.
           by eapply lookup_lt_Some.
        -- split; [exact Hpos | simpl; unfold g'; lia].
    + exists openSet. split; [reflexivity|].
      apply (visitInv_extend _ _ _ _ _ _ Hc Hcur Hinv);
        [apply Hinv | apply Hinv | apply refines_refl |].
      intros w Hst. rewrite (Hw _ Hst). right. exists ex.
      split; [exact Hex|]. split; [exact Hpos | unfold g' in Hge; lia].
  - apply list_find_None in Hfind.
    eexists. split; [reflexivity|].
    set (nn := {| position := v; gCost := g';
                  hCost := manhattanDistance v e;
                  fCost := g' + manhattanDistance v e; parent := Some cur |}).
    apply (visitInv_extend _ _ _ _ _ _ Hc Hcur Hinv).
    + apply Forall_app. split; [apply Hinv|].
      constructor; [|constructor]. by repeat split.
    + rewrite fmap_app. apply NoDup_app. split; [apply Hinv|]. split.
      * intros p Hp Hp'. apply list_elem_of_singleton in Hp'. simpl in Hp'. subst p.
        apply list_elem_of_fmap in Hp as (n & Hpn & Hn).
        rewrite Forall_forall in Hfind. by apply (Hfind n Hn).
      * apply NoDup_singleton.
    + intros n Hn. exists n. split; [apply elem_of_app; by left|].
      split; [reflexivity | lia].
    + intros w Hst. rewrite (Hw _ Hst). right. exists nn.
      split; [apply elem_of_app; right; apply list_elem_of_here|].
      split; [reflexivity | simpl; unfold g'; lia].
Qed.

Lemma visitNeighbors_inv cur (closedSet : gmap string PathNode) neighbors :
  forall done openSet,
  map_Forall (closedOk map mt s e) closedSet ->
  closedSet !! posToKey (position cur) = Some cur ->
  (forall v, v ∈ neighbors -> v ∈ getNeighbors (position cur) (width map) (height map)) ->
  visitInv map mt s e cur closedSet done openSet ->
  exists openSet' done',
    visitNeighbors map mt e None closedSet cur openSet neighbors = Some openSet' /\
    visitInv map mt s e cur closedSet done' openSet' /\
    forall v, v ∈ neighbors \/ v ∈ done -> v ∈ done'.
Proof.
  induction neighbors as [|v rest IH]; intros done openSet Hc Hcur Hsub Hinv; simpl.
  - exists openSet, done. split; [reflexivity|]. split; [exact Hinv|].
    intros v [Hv|Hv]; [by apply elem_of_nil in Hv | exact Hv].
  - destruct (visitNeighbor_inv cur closedSet done openSet v Hc Hcur) as (o1 & -> & Hinv1);
      [apply Hsub, list_elem_of_here | exact Hinv |].
    destruct (IH (v :: done) o1 Hc Hcur) as (o2 & done2 & Heq & Hinv2 & Hall);
      [intros v' Hv'; by apply Hsub, list_elem_of_further | exact Hinv1 |].
    exists o2, done2. split; [exact Heq|]. split; [exact Hinv2|].
    intros v' [Hv'|Hv'].
    + apply elem_of_cons in Hv' as [->|Hv'];
        [apply Hall; right; apply list_elem_of_here | apply Hall; by left].
    + apply Hall. right. by apply list_elem_of_further.
Qed.

End AStarSteps.

Section AStarLoop.
Variable map : GameMap.
Variable mt : MovementType.t.
Hypothesis Hwf : wellFormedMap map.
Variables s e : GridPosition.

(** What [findPath] may answer: a path at the least cost of any route,
    which is a walk from the start to the target at that cost (or empty,
    when the target is the start); or [null] when there is no route. *)
Definition searchAnswer (r : option Path) : Prop :=
  match r with
  | Some p =>
      leastCost map mt s e (cost p) /\
      (walk map mt s (path p) e (cost p) \/ (s = e /\ path p = []))
  | None => forall c, ~ route map mt s e c
  end.

Lemma findPathLoop_correct (fuel : nat) :
  forall (openSet : list PathNode) (closedSet : gmap string PathNode),
  searchInv map mt s e openSet closedSet ->
  (length (unclosedCells map s closedSet) < fuel)%nat ->
  exists r,
    findPathLoop map mt fuel e None openSet closedSet = Returned r /\
    searchAnswer r.
Proof.
  induction fuel as [|fuel IH]; intros openSet closedSet Hinv Hfuel; [lia|].
  simpl. destruct (sortByFCost openSet) as [|cur open1] eqn:Hsort.
  - (* the open list is empty: nothing is left to explore *)
    pose proof (sortByFCost_perm openSet) as Hp. rewrite Hsort in Hp.
    symmetry in Hp. apply Permutation_nil_r in Hp. subst openSet.
    exists None. split; [reflexivity|]. intros c Hr.
    destruct (frontier map mt Hwf s e [] closedSet e c Hinv Hr) as [[n Hn]|(n & Hin & _)].
    + destruct (inv_closed _ _ _ _ _ _ Hinv _ _ Hn) as (Hk & _ & Hne & _).
      apply (inj posToKey) in Hk. congruence.
    + by apply elem_of_nil in Hin.
  - destruct (sortByFCost_head _ _ _ Hsort) as [Hp Hmin].
    assert (Hinv' : searchInv map mt s e (cur :: open1) closedSet)
      by (eapply searchInv_perm; [symmetry; exact Hp | exact Hinv]).
    pose proof (inv_open _ _ _ _ _ _ Hinv') as Hopen.
    apply Forall_cons in Hopen as [(Hchain & Hh & Hf & Hnone) Hopen1].
    pose proof (walk_route _ _ _ _ _ _ Hchain) as Hroute.
    assert (Hleast : leastCost map mt s (position cur) (gCost cur)).
    { split; [exact Hroute|]. intros c Hr.
      destruct (frontier map mt Hwf s e _ closedSet _ c Hinv' Hr)
        as [[n Hn]|(n & Hin & Hfn)]; [congruence|].
      rewrite Hp in Hin. specialize (Hmin n Hin). lia. }
    case_bool_decide as Hgoal.
    + exists (Some (reconstructPath cur)). split; [reflexivity|].
      simpl. rewrite <- Hgoal. split; [exact Hleast | by left].
    + set (closedSet' := <[ posToKey (position cur) := cur ]> closedSet).
      pose proof (inv_nodup _ _ _ _ _ _ Hinv') as Hnd.
      rewrite fmap_cons in Hnd. apply NoDup_cons in Hnd as [Hfresh Hnd1].
      assert (Hc' : map_Forall (closedOk map mt s e) closedSet').
      { apply map_Forall_insert_2; [|apply Hinv].
        split; [reflexivity|]. split; [exact Hleast|]. split; [exact Hgoal | exact Hchain]. }
      assert (Hcur : closedSet' !! posToKey (position cur) = Some cur)
        by apply lookup_insert_eq.
      assert (Hmono : forall k, is_Some (closedSet !! k) -> is_Some (closedSet' !! k)).
      { intros k Hk. unfold closedSet'. apply lookup_insert_is_Some.
        destruct (decide (posToKey (position cur) = k)); [by left | by right]. }
      assert (Hvis : visitInv map mt s e cur closedSet' [] open1).
      { split.
        - rewrite Forall_forall in Hopen1. apply Forall_forall. intros n Hn.
          destruct (Hopen1 n Hn) as (? & ? & ? & Hcl). repeat split; try done.
          unfold closedSet'. rewrite lookup_insert_ne; [exact Hcl|].
          intros Heq. apply (inj posToKey) in Heq. apply Hfresh.
          rewrite Heq. apply list_elem_of_fmap. by exists n.
        - exact Hnd1.
        - intros k n v w Hk Hst [Hne|Hin]; [|by apply elem_of_nil in Hin].
          unfold closedSet' in Hk. rewrite lookup_insert_ne in Hk.
          2:{ intros <-. rewrite lookup_insert_eq in Hk. congruence. }
          destruct (inv_relaxed _ _ _ _ _ _ Hinv' _ _ _ _ Hk Hst)
            as [Hcl|(n' & Hin & Hpn & Hg)]; [left; by apply Hmono|].
          apply elem_of_cons in Hin as [->|Hin].
          + left. rewrite <- Hpn. by rewrite Hcur.
          + right. by exists n'.
        - destruct (inv_start _ _ _ _ _ _ Hinv') as [Hcl|(n' & Hin & Hpn & Hg)];
            [left; by apply Hmono|].
          apply elem_of_cons in Hin as [->|Hin].
          + left. rewrite <- Hpn. by rewrite Hcur.
          + right. by exists n'. }
      destruct (visitNeighbors_inv map mt Hwf s e cur closedSet'
                  (getNeighbors (position cur) (width map) (height map))
                  [] open1 Hc' Hcur (fun v H => H) Hvis)
        as (open2 & done' & -> & Hvis2 & Hall).
      apply IH.
      * destruct Hvis2 as [Ho Hn Hr Hs]. split; [exact Ho | exact Hn | exact Hc' | | exact Hs].
        intros k n v w Hk Hst.
        destruct (decide (position n = position cur)) as [Heq|Hne].
        -- apply (Hr k n v w Hk Hst). right. apply Hall. left.
           destruct Hst as [Hnb _]. by rewrite <- Heq.
        -- apply (Hr k n v w Hk Hst). by left.
      * assert (Hcell : position cur ∈ s :: gridCells map).
        { destruct (route_cell map mt s _ _ Hroute) as [->|Hb].
          - apply list_elem_of_here.
          - apply list_elem_of_further. by apply gridCells_elem. }
        pose proof (unclosedCells_insert map s closedSet (position cur) cur Hnone Hcell).
        fold closedSet' in H. lia.
Qed.

(** [findPath] without a movement cap, on a well-formed map: it returns,
    and its answer is right. *)
Lemma findPath_correct :
  exists r, findPath map mt s e None = Returned r /\ searchAnswer r.
Proof.
  unfold findPath. case_bool_decide as Hse.
  - exists (Some {| path := []; cost := 0 |}). split; [reflexivity|]. simpl.
    subst e. split; [|by right].
    split; [constructor|]. intros c Hr. by eapply route_nonneg.
  - apply findPathLoop_correct.
    + split.
      * constructor; [|constructor]. repeat split; simpl; try done. constructor.
      * simpl. apply NoDup_singleton.
      * apply map_Forall_empty.
      * intros k n v w Hk. by rewrite lookup_empty in Hk.
      * right. eexists. split; [apply list_elem_of_here|]. simpl. split; [reflexivity | lia].
    + unfold findPathFuel. pose proof (unclosedCells_bound map s ∅). lia.
Qed.

End AStarLoop.

(** ** Pathfinding: the queue-driven search of [findMovementRange] *)

(** How far the recorded cost of a cell can still drop; an unrecorded cell
    counts as one more than the budget. *)
Definition cellSlack (budget : Z) (reachableTiles : gmap string Z)
    (p : GridPosition) : nat :=
  match reachableTiles !! posToKey p with
  | Some c => Z.to_nat c
  | None => Z.to_nat (budget + 1)
  end.

Definition slack (map : GameMap) (budget : Z)
    (reachableTiles : gmap string Z) : nat :=
  sum_list (cellSlack budget reachableTiles <$> gridCells map).

Lemma sum_list_fmap_le {A} (f g : A -> nat) (l : list A) :
  (forall a, a ∈ l -> (g a <= f a)%nat) ->
  (sum_list (g <$> l) <= sum_list (f <$> l))%nat.
Proof.
  induction l as [|a l IH]; intros H; [simpl; lia|].
  rewrite !fmap_cons; simpl.
  pose proof (H a (list_elem_of_here _ _)).
  assert (sum_list (g <$> l) <= sum_list (f <$> l))%nat
    by (apply IH; intros; by apply H, list_elem_of_further).
  lia.
Qed.

Lemma sum_list_fmap_lt {A} (f g : A -> nat) (l : list A) (a0 : A) :
  (forall a, a ∈ l -> (g a <= f a)%nat) ->
  a0 ∈ l -> (g a0 < f a0)%nat ->
  (sum_list (g <$> l) < sum_list (f <$> l))%nat.
Proof.
  induction l as [|a l IH]; intros H Hin Hlt; [by apply elem_of_nil in Hin|].
  rewrite !fmap_cons; simpl. pose proof (H a (list_elem_of_here _ _)).
  assert (Hrest : forall a', a' ∈ l -> (g a' <= f a')%nat)
    by (intros; by apply H, list_elem_of_further).
  apply elem_of_cons in Hin as [<-|Hin].
  - pose proof (sum_list_fmap_le f g l Hrest). lia.
  - specialize (IH Hrest Hin Hlt). lia.
Qed.

Lemma slack_insert map budget (reachableTiles : gmap string Z) p c :
  inBounds map p -> 0 <= c <= budget ->
  match reachableTiles !! posToKey p with
  | Some known => c < known
  | None => True
  end ->
  (slack map budget (<[ posToKey p := c ]> reachableTiles)
   < slack map budget reachableTiles)%nat.
Proof.
  intros Hb Hc Hbetter. unfold slack.
  apply sum_list_fmap_lt with (a0 := p).
  - intros a _. unfold cellSlack.
    destruct (decide (posToKey p = posToKey a)) as [Heq|Hne].
    + rewrite <- Heq, lookup_insert_eq.
      destruct (reachableTiles !! posToKey p); lia.
    + by rewrite lookup_insert_ne.
  - by apply gridCells_elem.
  - unfold cellSlack. rewrite lookup_insert_eq.
    destruct (reachableTiles !! posToKey p); lia.
Qed.

Lemma slack_initial map budget s :
  (slack map budget (<[ posToKey s := 0%Z ]> ∅)
   <= Z.to_nat (width map) * Z.to_nat (height map) * Z.to_nat (budget + 1))%nat.
Proof.
  unfold slack.
  assert (H : forall l : list GridPosition,
            (sum_list (cellSlack budget (<[ posToKey s := 0%Z ]> ∅) <$> l)
             <= length l * Z.to_nat (budget + 1))%nat).
  { induction l as [|a l IH]; [simpl; lia|]. rewrite fmap_cons; simpl.
    assert (cellSlack budget (<[ posToKey s := 0%Z ]> ∅) a <= Z.to_nat (budget + 1))%nat.
    { unfold cellSlack. destruct (decide (posToKey s = posToKey a)) as [Heq|Hne].
      - rewrite <- Heq, lookup_insert_eq. lia.
      - by rewrite lookup_insert_ne, lookup_empty. }
    lia. }
  specialize (H (gridCells map)). rewrite gridCells_length in H. lia.
Qed.

Section MovementRange.
Variable map : GameMap.
Variable mt : MovementType.t.
Hypothesis Hwf : wellFormedMap map.
Variable s : GridPosition.
Variable budget : Z.

Definition queued (queue : list (GridPosition * Z)) (u : GridPosition) : Prop :=
  exists remainingPoints, (u, remainingPoints) ∈ queue.

(** The invariant of both loops of [findMovementRange].  [settled u v]
    says that the move from [u] to [v] has been examined since the cost of
    [u] last changed, unless [u] is waiting in the queue. *)
Record rangeInv (settled : GridPosition -> GridPosition -> Prop)
    (reachableTiles : gmap string Z)
    (queue : list (GridPosition * Z)) : Prop := {
  rng_start : reachableTiles !! posToKey s = Some 0;
  rng_route : forall k c, reachableTiles !! k = Some c ->
    exists p, k = posToKey p /\ route map mt s p c;
  rng_budget : forall k c, reachableTiles !! k = Some c -> c <= budget \/ c = 0;
  rng_queue : forall u, queued queue u -> is_Some (reachableTiles !! posToKey u);
  rng_relaxed : forall u cu, reachableTiles !! posToKey u = Some cu ->
    queued queue u \/
    forall v w, settled u v -> step map mt u v w -> cu + w <= budget ->
      exists cv, reachableTiles !! posToKey v = Some cv /\ cv <= cu + w
}.

Definition everywhere (u v : GridPosition) : Prop := True.

Definition settledDuring (cur : GridPosition) (done : list GridPosition)
    (u v : GridPosition) : Prop :=
  u <> cur \/ v ∈ done.

Lemma rng_route_pos settled reachableTiles queue p c :
  rangeInv settled reachableTiles queue ->
  reachableTiles !! posToKey p = Some c -> route map mt s p c.
Proof.
  intros Hinv Hp. destruct (rng_route _ _ _ Hinv _ _ Hp) as (p' & Hk & Hr).
  apply (inj posToKey) in Hk. by subst p'.
Qed.

(** One neighbour examined. *)
Lemma expandNeighbor_inv cur costHere done reachableTiles queue v :
  v ∈ getNeighbors cur (width map) (height map) ->
  reachableTiles !! posToKey cur = Some costHere ->
  rangeInv (settledDuring cur done) reachableTiles queue ->
  exists reachableTiles' queue',
    expandNeighbor map mt budget cur (reachableTiles, queue) v
      = Some (reachableTiles', queue') /\
    reachableTiles' !! posToKey cur = Some costHere /\
    rangeInv (settledDuring cur (v :: done)) reachableTiles' queue' /\
    (length queue' + slack map budget reachableTiles'
     <= length queue + slack map budget reachableTiles)%nat.
Proof.
  intros Hnb Hcur Hinv.
  assert (Hb : inBounds map v) by (by apply getNeighbors_elem in Hnb as [? _]).
  destruct (proj1 Hwf v Hb) as [t Ht].
  pose proof (rng_route_pos _ _ _ _ _ Hinv Hcur) as Hroute.
  pose proof (route_nonneg map mt Hwf _ _ _ Hroute) as Hc0.
  unfold expandNeighbor. rewrite Ht.
  (* the cases in which nothing is written *)
  assert (Hsame :
    (forall w, step map mt cur v w -> costHere + w <= budget ->
       exists cv, reachableTiles !! posToKey v = Some cv /\ cv <= costHere + w) ->
    rangeInv (settledDuring cur (v :: done)) reachableTiles queue).
  { intros Hv. destruct Hinv as [H1 H2 H3 H4 H5]. split; try done.
    intros u cu Hu. destruct (H5 u cu Hu) as [?|Hrel]; [by left|]. right.
    intros v' w [Hne|Hin] Hst Hle; [apply Hrel; [by left|done..]|].
    apply elem_of_cons in Hin as [->|Hin]; [|apply Hrel; [by right|done..]].
    destruct (decide (u = cur)) as [->|Hne]; [|apply Hrel; [by left|done..]].
    assert (cu = costHere) by congruence. subst cu. by apply Hv. }
  destruct (notTraversable mt t) eqn:Htrav.
  { exists reachableTiles, queue. split; [reflexivity|]. split; [exact Hcur|].
    split; [|lia]. apply Hsame. intros w (_ & t' & Ht' & Htrav' & _). congruence. }
  rewrite Hcur.
  assert (Hstep : step map mt cur v (stepCost mt t)).
  { split; [exact Hnb|]. by exists t. }
  assert (Hw : forall w, step map mt cur v w -> w = stepCost mt t).
  { intros w (_ & t' & Ht' & _ & ->). congruence. }
  pose proof (step_cost_pos map mt Hwf _ _ _ Hstep) as Hwpos.
  pose proof (step_ne map mt _ _ _ Hstep) as Hvcur.
  set (costToEnter := costHere + stepCost mt t) in *.
  destruct (match reachableTiles !! posToKey v with
            | Some known => costToEnter <? known
            | None => true
            end && (costToEnter <=? budget)) eqn:Hcond.
  2:{ exists reachableTiles, queue. split; [reflexivity|]. split; [exact Hcur|].
      split; [|lia]. apply Hsame. intros w Hst Hle. rewrite (Hw _ Hst) in *.
      fold costToEnter in Hle |- *.
      apply andb_false_iff in Hcond as [Hcond|Hcond]; [|lia].
      destruct (reachableTiles !! posToKey v) as [known|]; [|discriminate].
      exists known. split; [reflexivity | lia]. }
  apply andb_true_iff in Hcond as [Hbetter Hle]. apply Z.leb_le in Hle.
  assert (Hbetter' : match reachableTiles !! posToKey v with
                     | Some known => costToEnter < known
                     | None => True
                     end).
  { destruct (reachableTiles !! posToKey v); [lia | exact I]. }
  assert (Hvs : v <> s).
  { intros ->. rewrite (rng_start _ _ _ Hinv) in Hbetter'. lia. }
  set (reachableTiles' := <[ posToKey v := costToEnter ]> reachableTiles).
  set (queue' := if 0 <? budget - costToEnter
                 then queue ++ [ (v, budget - costToEnter) ] else queue).
  assert (Hqueue : forall u, queued queue u -> queued queue' u).
  { intros u [r Hr]. exists r. unfold queue'.
    destruct (0 <? budget - costToEnter); [apply elem_of_app; by left | exact Hr]. }
  assert (Hlookup : forall u, u <> v ->
            reachableTiles' !! posToKey u = reachableTiles !! posToKey u).
  { intros u Hu. unfold reachableTiles'. rewrite lookup_insert_ne; [done|].
    intros Heq. by apply (inj posToKey) in Heq. }
  assert (Himproves : forall u cv, reachableTiles !! posToKey u = Some cv ->
            exists cv', reachableTiles' !! posToKey u = Some cv' /\ cv' <= cv).
  { intros u cv Hu. destruct (decide (u = v)) as [->|Hne].
    - exists costToEnter. unfold reachableTiles'. rewrite lookup_insert_eq.
      split; [reflexivity|]. rewrite Hu in Hbetter'. lia.
    - exists cv. rewrite Hlookup by done. split; [exact Hu | lia]. }
  exists reachableTiles', queue'. split; [reflexivity|].
  split; [by rewrite Hlookup|].
  split.
  - destruct Hinv as [H1 H2 H3 H4 H5]. split.
    + by rewrite Hlookup.
    + intros k c Hk. unfold reachableTiles' in Hk.
      destruct (decide (posToKey v = k)) as [<-|Hne].
      * rewrite lookup_insert_eq in Hk. injection Hk as <-.
        exists v. split; [reflexivity|]. by eapply route_move.
      * rewrite lookup_insert_ne in Hk by done. by apply H2.
    + intros k c Hk. unfold reachableTiles' in Hk.
      destruct (decide (posToKey v = k)) as [<-|Hne].
      * rewrite lookup_insert_eq in Hk. injection Hk as <-. by left.
      * rewrite lookup_insert_ne in Hk by done. by eapply H3.
    + intros u [r Hr]. unfold queue' in Hr.
      assert (Hold : queued queue u -> is_Some (reachableTiles' !! posToKey u)).
      { intros Hq. destruct (H4 u Hq) as [c Hc].
        destruct (Himproves u c Hc) as (c' & -> & _). by eexists. }
      destruct (0 <? budget - costToEnter); [|apply Hold; by exists r].
      apply elem_of_app in Hr as [Hr|Hr]; [apply Hold; by exists r|].
      apply list_elem_of_singleton in Hr. injection Hr as -> _.
      unfold reachableTiles'. rewrite lookup_insert_eq. by eexists.
    + intros u cu Hu. destruct (decide (u = v)) as [->|Hne].
      * unfold reachableTiles' in Hu. rewrite lookup_insert_eq in Hu. injection Hu as <-.
        unfold queue'. destruct (Z.ltb_spec 0 (budget - costToEnter)).
        -- left. exists (budget - costToEnter). apply elem_of_app. right.
           apply list_elem_of_here.
        -- right. intros v' w' _ Hst Hle'.
           pose proof (step_cost_pos map mt Hwf _ _ _ Hst). lia.
      * rewrite Hlookup in Hu by done.
        destruct (H5 u cu Hu) as [Hq|Hrel]; [left; by apply Hqueue|]. right.
        intros v' w' Hset Hst Hle'.
        assert (Hold : settledDuring cur done u v' ->
                  exists cv, reachableTiles' !! posToKey v' = Some cv /\ cv <= cu + w').
        { intros Hset'. destruct (Hrel v' w' Hset' Hst Hle') as (cv & Hcv & Hcvle).
          destruct (Himproves v' cv Hcv) as (cv' & Hcv' & Hle2).
          exists cv'. split; [exact Hcv' | lia]. }
        destruct Hset as [Hucur|Hin]; [apply Hold; by left|].
        apply elem_of_cons in Hin as [->|Hin]; [|apply Hold; by right].
        destruct (decide (u = cur)) as [->|Hucur]; [|apply Hold; by left].
        assert (cu = costHere) by congruence. subst cu.
        rewrite (Hw _ Hst). exists costToEnter. unfold reachableTiles'.
        rewrite lookup_insert_eq. split; [reflexivity | unfold costToEnter; lia].
  - pose proof (slack_insert map budget reachableTiles v costToEnter Hb
                  ltac:(unfold costToEnter; lia) Hbetter') as Hslack.
    fold reachableTiles' in Hslack. unfold queue'.
    destruct (0 <? budget - costToEnter); [rewrite length_app; simpl|]; lia.
Qed.

Lemma expandNeighbors_inv cur costHere neighbors :
  forall done (reachableTiles : gmap string Z) queue,
  (forall v, v ∈ neighbors -> v ∈ getNeighbors cur (width map) (height map)) ->
  reachableTiles !! posToKey cur = Some costHere ->
  rangeInv (settledDuring cur done) reachableTiles queue ->
  exists reachableTiles' queue' done',
    expandNeighbors map mt budget cur (reachableTiles, queue) neighbors
      = Some (reachableTiles', queue') /\
    rangeInv (settledDuring cur done') reachableTiles' queue' /\
    (forall v, v ∈ neighbors \/ v ∈ done -> v ∈ done') /\
    (length queue' + slack map budget reachableTiles'
     <= length queue + slack map budget reachableTiles)%nat.
Proof.
  induction neighbors as [|v rest IH]; intros done reachableTiles queue Hsub Hcur Hinv.
  - exists reachableTiles, queue, done. split; [reflexivity|]. split; [exact Hinv|].
    split; [|lia]. intros v [Hv|Hv]; [by apply elem_of_nil in Hv | exact Hv].
  - destruct (expandNeighbor_inv cur costHere done reachableTiles queue v)
      as (r1 & q1 & Heq1 & Hcur1 & Hinv1 & Hm1);
      [apply Hsub, list_elem_of_here | exact Hcur | exact Hinv |].
    destruct (IH (v :: done) r1 q1) as (r2 & q2 & done2 & Heq2 & Hinv2 & Hall & Hm2);
      [intros v' Hv'; by apply Hsub, list_elem_of_further | exact Hcur1 | exact Hinv1 |].
    exists r2, q2, done2. split; [cbn [expandNeighbors]; by rewrite Heq1|].
    split; [exact Hinv2|].
    split; [|lia]. intros v' [Hv'|Hv'].
    + apply elem_of_cons in Hv' as [->|Hv'];
        [apply Hall; right; apply list_elem_of_here | apply Hall; by left].
    + apply Hall. right. by apply list_elem_of_further.
Qed.

Lemma movementRangeLoop_correct (fuel : nat) :
  forall (reachableTiles : gmap string Z) queue,
  rangeInv everywhere reachableTiles queue ->
  (length queue + slack map budget reachableTiles < fuel)%nat ->
  exists r,
    movementRangeLoop map mt fuel budget reachableTiles queue = Returned r /\
    rangeInv everywhere r [].
Proof.
  induction fuel as [|fuel IH]; intros reachableTiles queue Hinv Hfuel; [lia|].
  simpl. destruct queue as [|[pos remainingPoints] queue1].
  - by exists reachableTiles.
  - destruct (rng_queue _ _ _ Hinv pos) as [costHere Hcur];
      [exists remainingPoints; apply list_elem_of_here|].
    assert (Hstart : rangeInv (settledDuring pos []) reachableTiles queue1).
    { destruct Hinv as [H1 H2 H3 H4 H5]. split; try done.
      - intros u [r Hr]. apply H4. exists r. by apply list_elem_of_further.
      - intros u cu Hu. destruct (H5 u cu Hu) as [[r Hr]|Hrel].
        + apply elem_of_cons in Hr as [Hr|Hr].
          * injection Hr as -> _. right. intros v w [?|Hin]; [done|].
            by apply elem_of_nil in Hin.
          * left. by exists r.
        + right. intros v w _. by apply Hrel. }
    destruct (expandNeighbors_inv pos costHere
                (getNeighbors pos (width map) (height map)) [] reachableTiles queue1
                (fun v H => H) Hcur Hstart)
      as (r2 & q2 & done2 & -> & Hinv2 & Hall & Hm).
    apply IH.
    + destruct Hinv2 as [H1 H2 H3 H4 H5]. split; try done.
      intros u cu Hu. destruct (H5 u cu Hu) as [?|Hrel]; [by left|]. right.
      intros v w _ Hst. apply Hrel; [|exact Hst].
      destruct (decide (u = pos)) as [->|Hne]; [|by left].
      right. apply Hall. left. by destruct Hst.
    + simpl in Hfuel. lia.
Qed.

(** When the queue has run empty, the table holds exactly the positions
    whose least cost fits the budget (and the start), each at that cost. *)
Lemma rangeInv_final (reachableTiles : gmap string Z) :
  rangeInv everywhere reachableTiles [] ->
  (forall p c, route map mt s p c -> c <= budget ->
     exists c', reachableTiles !! posToKey p = Some c' /\ c' <= c) /\
  (forall p c, reachableTiles !! posToKey p = Some c -> leastCost map mt s p c).
Proof.
  intros Hinv.
  assert (Hcomplete : forall p c, route map mt s p c -> c <= budget ->
            exists c', reachableTiles !! posToKey p = Some c' /\ c' <= c).
  { induction 1 as [|u v c w Hr IH Hst]; intros Hle.
    - exists 0. split; [apply Hinv | lia].
    - pose proof (step_cost_pos map mt Hwf _ _ _ Hst) as Hw.
      destruct IH as (cu & Hcu & Hcule); [lia|].
      destruct (rng_relaxed _ _ _ Hinv u cu Hcu) as [[r Hq]|Hrel];
        [by apply elem_of_nil in Hq|].
      destruct (Hrel v w I Hst) as (cv & Hcv & Hcvle); [lia|].
      exists cv. split; [exact Hcv | lia]. }
  split; [exact Hcomplete|].
  intros p c Hp. pose proof (rng_route_pos _ _ _ _ _ Hinv Hp) as Hr.
  split; [exact Hr|]. intros c' Hr'.
  destruct (decide (c' <= budget)) as [Hle|Hgt].
  - destruct (Hcomplete p c' Hr' Hle) as (c'' & Hc'' & Hle'').
    assert (c'' = c) by congruence. lia.
  - destruct (rng_budget _ _ _ Hinv _ _ Hp) as [? | ->]; [lia|].
    by eapply route_nonneg.
Qed.

(** [findMovementRange] on a well-formed map: it returns, and the table it
    returns gives the least cost of exactly the positions within budget. *)
Lemma findMovementRange_correct :
  exists reachableTiles,
    findMovementRange map mt s budget = Returned reachableTiles /\
    (forall p c, reachableTiles !! posToKey p = Some c -> leastCost map mt s p c) /\
    (forall p c, leastCost map mt s p c -> c <= budget ->
       reachableTiles !! posToKey p = Some c).
Proof.
  unfold findMovementRange.
  destruct (movementRangeLoop_correct (movementRangeFuel map budget)
              (<[ posToKey s := 0 ]> ∅) [ (s, budget) ]) as (r & Heq & Hinv).
  - split.
    + apply lookup_insert_eq.
    + intros k c Hk. apply lookup_insert_Some in Hk as [[<- <-]|[_ Hk]].
      * exists s. split; [reflexivity | constructor].
      * by rewrite lookup_empty in Hk.
    + intros k c Hk. apply lookup_insert_Some in Hk as [[_ <-]|[_ Hk]]; [by right|].
      by rewrite lookup_empty in Hk.
    + intros u [r Hr]. apply list_elem_of_singleton in Hr. injection Hr as -> _.
      rewrite lookup_insert_eq. by eexists.
    + intros u cu Hu. apply lookup_insert_Some in Hu as [[Hk _]|[_ Hu]].
      * apply (inj posToKey) in Hk. subst u. left. exists budget. apply list_elem_of_here.
      * by rewrite lookup_empty in Hu.
  - unfold movementRangeFuel. pose proof (slack_initial map budget s). simpl. lia.
  - exists r. split; [exact Heq|].
    destruct (rangeInv_final r Hinv) as [Hcomplete Hleast].
    split; [exact Hleast|].
    intros p c [Hr Hmin] Hle.
    destruct (Hcomplete p c Hr Hle) as (c' & Hc' & Hle').
    destruct (Hleast p c' Hc') as [Hr' _]. specialize (Hmin c' Hr').
    assert (c' = c) by lia. by subst c'.
Qed.

End MovementRange.

(** ** Pathfinding: [findPath] against [findMovementRange] *)

(** Maps built cell by cell from [TerrainTiles] are well formed. *)
Lemma tileAt_mapOfTerrain rows p t :
  tileAt (mapOfTerrain rows) p = Some t ->
  exists k, terrain t = TerrainTiles k.
Proof.
  unfold tileAt, mapOfTerrain; simpl.
  destruct ((0 <=? y p) && (0 <=? x p)); [|discriminate].
  rewrite list_lookup_imap.
  destruct (rows !! Z.to_nat (y p)) as [row|]; [|discriminate]. simpl.
  rewrite list_lookup_imap.
  destruct (row !! Z.to_nat (x p)) as [k|]; [|discriminate]. simpl.
  intros [= <-]. by exists k.
Qed.

Lemma mapOfTerrain_wellFormed rows :
  Forall (fun row => length row = length (List.hd [] rows)) rows ->
  wellFormedMap (mapOfTerrain rows).
Proof.
  intros Hrect. split.
  - intros p [Hx Hy]. simpl in Hx, Hy. unfold tileAt.
    replace ((0 <=? y p) && (0 <=? x p)) with true by lia.
    cbn [tiles mapOfTerrain]. rewrite list_lookup_imap.
    destruct (lookup_lt_is_Some_2 rows (Z.to_nat (y p))) as [row Hrow]; [lia|].
    rewrite Hrow. simpl. rewrite list_lookup_imap.
    rewrite Forall_forall in Hrect.
    assert (Hlen : length row = length (List.hd [] rows)).
    { apply Hrect. apply list_elem_of_lookup. eauto. }
    destruct (lookup_lt_is_Some_2 row (Z.to_nat (x p))) as [k Hk]; [lia|].
    rewrite Hk. by eexists.
  - intros p t Ht Hwalk. destruct (tileAt_mapOfTerrain _ _ _ Ht) as [k Hk].
    rewrite Hk in *. destruct k; simpl in *; (lia || discriminate).
Qed.

(** C1. On a well-formed map, for any start, movement type and budget,
    [findMovementRange] returns a table; [findPath] without a cap returns
    for every target, with a path exactly when the target is reachable;
    the path is then a walk from the start to the target whose moves add up
    to the reported cost, which is the least cost of any route.  For every
    position the table records, [findPath] returns a path of exactly the
    recorded cost; and whenever the cost that [findPath] reports fits the
    budget, the table records the position at exactly that cost. *)
Theorem findPath_cost_agrees_with_findMovementRange
    (map : GameMap) (mt : MovementType.t) (start : GridPosition) (budget : Z) :
  wellFormedMap map ->
  exists reachableTiles,
    findMovementRange map mt start budget = Returned reachableTiles /\
    (forall p c, reachableTiles !! posToKey p = Some c ->
       exists steps,
         findPath map mt start p None
           = Returned (Some {| path := steps; cost := c |})) /\
    (forall p found, findPath map mt start p None = Returned (Some found) ->
       cost found <= budget ->
       reachableTiles !! posToKey p = Some (cost found)) /\
    (forall p, exists r,
       findPath map mt start p None = Returned r /\
       match r with
       | Some found =>
           leastCost map mt start p (cost found) /\
           (walk map mt start (path found) p (cost found)
            \/ (start = p /\ path found = []))
       | None => forall c, ~ route map mt start p c
       end).
Proof.
  intros Hwf.
  destruct (findMovementRange_correct map mt Hwf start budget)
    as (reachableTiles & Heq & Hleast & Hrecorded).
  exists reachableTiles. split; [exact Heq|].
  split; [|split].
  - intros p c Hp. specialize (Hleast p c Hp).
    destruct (findPath_correct map mt Hwf start p) as ([found|] & Hfound & Hanswer);
      simpl in Hanswer.
    + rewrite (leastCost_unique _ _ _ _ _ _ Hleast (proj1 Hanswer)).
      destruct found as [steps c']. exists steps. exact Hfound.
    + destruct Hleast as [Hr _]. destruct (Hanswer c Hr).
  - intros p found Hfound Hle.
    destruct (findPath_correct map mt Hwf start p) as (r & Hr & Hanswer).
    rewrite Hfound in Hr. injection Hr as <-. simpl in Hanswer.
    apply Hrecorded; [apply Hanswer | exact Hle].
  - intros p. apply (findPath_correct map mt Hwf start p).
Qed.

Lemma sampleMap_wellFormed : wellFormedMap sampleMap.
Proof. apply mapOfTerrain_wellFormed. repeat constructor. Qed.

Lemma findPath_cost_agrees_with_findMovementRange_witness :
  wellFormedMap sampleMap /\
  exists reachableTiles steps,
    findMovementRange sampleMap MovementType.GROUND (mkPos 0 0) 4
      = Returned reachableTiles /\
    reachableTiles !! posToKey (mkPos 2 2) = Some 4 /\
    findPath sampleMap MovementType.GROUND (mkPos 0 0) (mkPos 2 2) None
      = Returned (Some {| path := steps; cost := 4 |}).
Proof.
  split; [exact sampleMap_wellFormed|].
  destruct (findPath_cost_agrees_with_findMovementRange sampleMap
              MovementType.GROUND (mkPos 0 0) 4 sampleMap_wellFormed)
    as (reachableTiles & Heq & Hrec & _).
  assert (Hcell : reachableTiles !! posToKey (mkPos 2 2) = Some 4).
  { vm_compute in Heq. injection Heq as <-. reflexivity. }
  destruct (Hrec _ _ Hcell) as [steps Hsteps].
  exists reachableTiles, steps. split; [exact Heq|]. split; [exact Hcell | exact Hsteps].
Defined.

(** The same instance, evaluated. *)
Example sampleMap_range_and_path :
  (exists reachableTiles,
     findMovementRange sampleMap MovementType.GROUND (mkPos 0 0) 4
       = Returned reachableTiles /\
     reachableTiles !! posToKey (mkPos 2 2) = Some 4 /\
     reachableTiles !! posToKey (mkPos 1 0) = Some 3 /\
     reachableTiles !! posToKey (mkPos 3 0) = None) /\
  findPath sampleMap MovementType.GROUND (mkPos 0 0) (mkPos 2 2) None
    = Returned (Some {| path := [mkPos 0 0; mkPos 0 1; mkPos 0 2; mkPos 1 2; mkPos 2 2];
                        cost := 4 |}) /\
  findPath sampleMap MovementType.GROUND (mkPos 0 0) (mkPos 1 1) None
    = Returned None.
Proof.
  split; [|split; vm_compute; reflexivity].
  destruct (findMovementRange sampleMap MovementType.GROUND (mkPos 0 0) 4)
    as [r| |] eqn:H; vm_compute in H; try discriminate.
  exists r. split; [reflexivity|]. injection H as <-. repeat split.
Qed.

(** * Further properties *)

(** ** Grid geometry *)

(** X1. [manhattanDistance] is a metric on grid positions: it is never
    negative, it is zero exactly between equal positions, it is symmetric
    and it satisfies the triangle inequality; and [arePositionsEqual]
    says true exactly for positions at distance zero. *)
Theorem manhattanDistance_metric (a b c : GridPosition) :
  0 <= manhattanDistance a b /\
  (manhattanDistance a b = 0 <-> a = b) /\
  manhattanDistance a b = manhattanDistance b a /\
  manhattanDistance a c <= manhattanDistance a b + manhattanDistance b c /\
  (arePositionsEqual a b = true <-> manhattanDistance a b = 0).
Proof.
  unfold manhattanDistance, arePositionsEqual.
  destruct a as [xa ya], b as [xb yb], c as [xc yc]; simpl.
  repeat split; try lia.
  - intros H. f_equal; lia.
  - intros [= -> ->]. lia.
Qed.

(** X2. The neighbours of a position are exactly the positions of the grid
    at Manhattan distance 1 from it; they are listed without repetition,
    at most four of them; and between two cells of the grid being a
    neighbour is symmetric. *)
Theorem getNeighbors_spec (u : GridPosition) (w h : Z) :
  (forall v, v ∈ getNeighbors u w h <->
     (0 <= x v < w /\ 0 <= y v < h) /\ manhattanDistance u v = 1) /\
  NoDup (getNeighbors u w h) /\
  (length (getNeighbors u w h) <= 4)%nat /\
  (forall v, 0 <= x u < w -> 0 <= y u < h ->
     v ∈ getNeighbors u w h -> u ∈ getNeighbors v w h).
Proof.
  assert (Hspec : forall u v, v ∈ getNeighbors u w h <->
            (0 <= x v < w /\ 0 <= y v < h) /\ manhattanDistance u v = 1).
  { clear u. intros u v. split.
    - intros Hin. apply getNeighbors_elem in Hin. exact Hin.
    - intros [Hb Hd]. unfold getNeighbors.
      apply list_elem_of_In, filter_In. split; [|lia].
      unfold manhattanDistance in Hd. destruct u as [xu yu], v as [xv yv]; simpl in *.
      assert (Hcases : (xv = xu /\ yv = yu - 1) \/ (xv = xu + 1 /\ yv = yu) \/
                       (xv = xu /\ yv = yu + 1) \/ (xv = xu - 1 /\ yv = yu)) by lia.
      destruct Hcases as [[-> ->]|[[-> ->]|[[-> ->]|[-> ->]]]].
      + left. f_equal; lia.
      + right; left. f_equal; lia.
      + right; right; left. f_equal; lia.
      + right; right; right; left. f_equal; lia. }
  split; [apply Hspec|]. split; [|split].
  - unfold getNeighbors. apply NoDup_ListNoDup, List.NoDup_filter.
    simpl. repeat constructor; simpl; intros H;
      repeat (destruct H as [H|H]; [injection H; lia|]); exact H.
  - unfold getNeighbors. etrans; [apply List.filter_length_le|]. simpl. lia.
  - intros v Hx Hy Hv. apply Hspec in Hv as [Hb Hd]. apply Hspec.
    split; [lia|]. unfold manhattanDistance in *. lia.
Qed.

(** ** The diplomacy ledger *)

Lemma getRelationKey_comm (a b : Faction.t) :
  DiplomacySystem.getRelationKey a b = DiplomacySystem.getRelationKey b a.
Proof. by destruct a, b. Qed.

(** The key of a pair determines the pair up to order. *)
Lemma getRelationKey_pair (a b c d : Faction.t) :
  DiplomacySystem.getRelationKey a b = DiplomacySystem.getRelationKey c d ->
  (a = c /\ b = d) \/ (a = d /\ b = c).
Proof.
  destruct a, b, c, d; vm_compute; intros H;
    first [discriminate H | by left | by right].
Qed.

(** X3. The ledger does not depend on the order in which two factions
    are named: score, tier and display colour are the same for (a, b)
    and (b, a). *)
Theorem relations_are_symmetric (ds : DiplomacySystem.t) (a b : Faction.t) :
  DiplomacySystem.getRelation ds a b = DiplomacySystem.getRelation ds b a /\
  DiplomacySystem.getRelationshipStatus ds a b =
    DiplomacySystem.getRelationshipStatus ds b a /\
  DiplomacySystem.getRelativeColor ds a b =
    DiplomacySystem.getRelativeColor ds b a.
Proof.
  assert (Hrel : DiplomacySystem.getRelation ds a b
                 = DiplomacySystem.getRelation ds b a).
  { unfold DiplomacySystem.getRelation. rewrite (getRelationKey_comm a b).
    destruct (decide (a = b)) as [->|Hne]; [done|].
    by rewrite !bool_decide_eq_false_2 by congruence. }
  assert (Hst : DiplomacySystem.getRelationshipStatus ds a b
                = DiplomacySystem.getRelationshipStatus ds b a).
  { unfold DiplomacySystem.getRelationshipStatus. by rewrite Hrel. }
  split; [exact Hrel|]. split; [exact Hst|].
  unfold DiplomacySystem.getRelativeColor. rewrite Hst.
  destruct (decide (a = b)) as [->|Hne]; [done|].
  by rewrite !bool_decide_eq_false_2 by congruence.
Qed.

(** X4. [setRelation] on two different factions is read back, clamped to
    [-100, 100], under either order of the two, and the score of every
    other pair of factions is what it was. *)
Theorem setRelation_reads_back (ds : DiplomacySystem.t)
    (a b c d : Faction.t) (v : Z) :
  a <> b ->
  let ds' := DiplomacySystem.setRelation ds a b v in
  DiplomacySystem.getRelation ds' a b = Z.max (-100) (Z.min 100 v) /\
  DiplomacySystem.getRelation ds' b a = Z.max (-100) (Z.min 100 v) /\
  (~ (c = a /\ d = b) -> ~ (c = b /\ d = a) ->
   DiplomacySystem.getRelation ds' c d = DiplomacySystem.getRelation ds c d) /\
  DiplomacySystem.actionHistory ds' = DiplomacySystem.actionHistory ds.
Proof.
  intros Hab ds'. split; [by apply getRelation_setRelation|]. split.
  - unfold DiplomacySystem.getRelation.
    rewrite bool_decide_eq_false_2 by congruence.
    unfold ds', DiplomacySystem.setRelation; simpl.
    by rewrite (getRelationKey_comm b a), lookup_insert_eq.
  - split; [|reflexivity]. intros H1 H2. unfold DiplomacySystem.getRelation.
    case_bool_decide; [reflexivity|].
    unfold ds', DiplomacySystem.setRelation; simpl.
    rewrite lookup_insert_ne; [reflexivity|].
    intros Hk. apply getRelationKey_pair in Hk. destruct Hk as [[-> ->]|[-> ->]]; tauto.
Qed.

Lemma setRelation_reads_back_witness :
  let ds' := DiplomacySystem.setRelation DiplomacySystem.new
               Faction.PLAYER Faction.NEUTRAL 250 in
  DiplomacySystem.getRelation ds' Faction.PLAYER Faction.NEUTRAL = 100 /\
  DiplomacySystem.getRelation ds' Faction.NEUTRAL Faction.PLAYER = 100 /\
  DiplomacySystem.getRelation ds' Faction.ENEMY Faction.PLAYER = -80.
Proof.
  pose proof (setRelation_reads_back DiplomacySystem.new
                Faction.PLAYER Faction.NEUTRAL Faction.ENEMY Faction.PLAYER 250
                ltac:(discriminate)) as (H1 & H2 & H3 & _).
  split; [exact H1|]. split; [exact H2|].
  rewrite H3; [reflexivity | intros [? ?]; discriminate | intros [? ?]; discriminate].
Defined.

Lemma getRelation_modifyRelation ds a b delta ty descr :
  a <> b ->
  DiplomacySystem.getRelation
    (DiplomacySystem.modifyRelation ds a b delta ty descr) a b
  = Z.max (-100) (Z.min 100 (DiplomacySystem.getRelation ds a b + delta)).
Proof.
  intros Hne. unfold DiplomacySystem.getRelation at 1.
  rewrite bool_decide_eq_false_2 by exact Hne.
  unfold DiplomacySystem.modifyRelation, DiplomacySystem.setRelation; simpl.
  rewrite lookup_insert_eq. lia.
Qed.

(** X5. [modifyRelation] moves the score of two different factions by the
    delta and clamps the sum to [-100, 100]; between a faction and itself
    the score stays 100.  The score of every other pair is what it was,
    and exactly one action is appended to the history, carrying the delta
    as given (not the clamped change) and the two factions as origin and
    target. *)
Theorem modifyRelation_effect (ds : DiplomacySystem.t)
    (a b c d : Faction.t) (delta : Z) (ty descr : string) :
  let ds' := DiplomacySystem.modifyRelation ds a b delta ty descr in
  DiplomacySystem.getRelation ds' a b =
    (if decide (a = b) then 100
     else Z.max (-100) (Z.min 100 (DiplomacySystem.getRelation ds a b + delta))) /\
  (~ (c = a /\ d = b) -> ~ (c = b /\ d = a) ->
   DiplomacySystem.getRelation ds' c d = DiplomacySystem.getRelation ds c d) /\
  DiplomacySystem.getActionHistory ds' =
    DiplomacySystem.getActionHistory ds ++
      [ {| DiplomacySystem.actionType := ty;
           DiplomacySystem.description := descr;
           DiplomacySystem.value := delta;
           DiplomacySystem.origin := a;
           DiplomacySystem.target := b |} ].
Proof.
  intros ds'. split; [|split; [|reflexivity]].
  - destruct (decide (a = b)) as [->|Hne].
    + unfold DiplomacySystem.getRelation. by rewrite bool_decide_eq_true_2.
    + by apply getRelation_modifyRelation.
  - intros H1 H2. unfold DiplomacySystem.getRelation at 1 2.
    case_bool_decide; [reflexivity|].
    unfold ds', DiplomacySystem.modifyRelation, DiplomacySystem.setRelation; simpl.
    rewrite lookup_insert_ne; [reflexivity|].
    intros Hk. apply getRelationKey_pair in Hk. destruct Hk as [[-> ->]|[-> ->]]; tauto.
Qed.

Lemma performAll_app ds l1 l2 :
  DiplomacySystem.performAll ds (l1 ++ l2)
  = DiplomacySystem.performAll (DiplomacySystem.performAll ds l1) l2.
Proof. apply foldl_app. Qed.

(** X6. The action history only grows: after any sequence of
    [setRelation] and [modifyRelation] calls it is the history before,
    followed by one entry for each [modifyRelation] call, in the order of
    the calls; [setRelation] leaves no trace in it. *)
Theorem actionHistory_append_only (ds : DiplomacySystem.t)
    (calls : list DiplomacySystem.call) :
  DiplomacySystem.getActionHistory (DiplomacySystem.performAll ds calls) =
    DiplomacySystem.getActionHistory ds ++ omap recorded calls.
Proof.
  revert ds. induction calls as [|c calls IH]; intros ds.
  - simpl. by rewrite app_nil_r.
  - change (DiplomacySystem.performAll ds (c :: calls))
      with (DiplomacySystem.performAll (DiplomacySystem.perform ds c) calls).
    rewrite IH. destruct c as [a b v|a b delta ty descr]; simpl.
    + reflexivity.
    + unfold DiplomacySystem.getActionHistory; simpl. by rewrite <- app_assoc.
Qed.

(** ** Supply bases *)

Lemma withFaction_id (b : SupplySystem.SupplyBase) :
  SupplySystem.withFaction (SupplySystem.baseFaction b) b = b.
Proof. by destruct b. Qed.

Lemma captureBase_sameBaseButOwner ss0 ss id f :
  Forall2 sameBaseButOwner (SupplySystem.bases ss) (SupplySystem.bases ss0) ->
  Forall2 sameBaseButOwner
    (SupplySystem.bases (SupplySystem.captureBase ss id f).2)
    (SupplySystem.bases ss0).
Proof.
  intros Hinv. unfold SupplySystem.captureBase.
  destruct (list_find _ _) as [[i base]|] eqn:Hfind; [|exact Hinv].
  destruct (SupplySystem.capturable base) eqn:Hcap; simpl; [|exact Hinv].
  apply list_find_Some in Hfind as (Hi & _ & _).
  destruct (Forall2_lookup_l _ _ _ _ _ Hinv Hi) as (b0 & Hi0 & Hb & Hfix).
  rewrite <- (list_insert_id (SupplySystem.bases ss0) i b0 Hi0).
  apply Forall2_insert; [exact Hinv|]. split.
  - rewrite Hb. reflexivity.
  - intros Hcap0. rewrite (Hfix Hcap0) in Hcap. congruence.
Qed.

(** X7. Captures change owners and nothing else: after any sequence of
    capture orders the system holds the same bases in the same order,
    each equal to the original up to its owner, and a base that is not
    capturable is exactly as it was.  In particular the two headquarters
    of a new supply system stay with the player and the enemy. *)
Theorem captures_change_owners_only (ss0 : SupplySystem.t)
    (orders : list (string * Faction.t)) (map : GameMap) :
  Forall2 sameBaseButOwner
    (SupplySystem.getBases (captureAll ss0 orders)) (SupplySystem.getBases ss0) /\
  SupplySystem.getBases (captureAll (SupplySystem.new map) orders) !! 0%nat
    = SupplySystem.getBases (SupplySystem.new map) !! 0%nat /\
  SupplySystem.getBases (captureAll (SupplySystem.new map) orders) !! 1%nat
    = SupplySystem.getBases (SupplySystem.new map) !! 1%nat /\
  SupplySystem.baseId <$> SupplySystem.getBases (captureAll (SupplySystem.new map) orders)
    = ["player-hq"; "enemy-hq"; "outpost-1"; "outpost-2"; "outpost-3"].
Proof.
  assert (Hall : forall ss0,
    Forall2 sameBaseButOwner
      (SupplySystem.bases (captureAll ss0 orders)) (SupplySystem.bases ss0)).
  { clear ss0. intros ss0. unfold captureAll.
    induction orders as [|order orders IH] using rev_ind.
    - simpl. apply Forall_Forall2_diag, Forall_forall. intros b _.
      split; [by rewrite withFaction_id | reflexivity].
    - rewrite foldl_app. simpl. by apply captureBase_sameBaseButOwner. }
  split; [apply Hall|].
  specialize (Hall (SupplySystem.new map)). unfold SupplySystem.getBases.
  remember (SupplySystem.bases (captureAll (SupplySystem.new map) orders)) as l.
  clear Heql. simpl in Hall.
  repeat match goal with
         | H : Forall2 _ _ (_ :: _) |- _ =>
             apply Forall2_cons_inv_r in H as (? & ? & [? ?] & H & ->)
         | H : Forall2 _ _ [] |- _ => apply Forall2_nil_inv_r in H as ->
         end.
  simpl in *.
  repeat match goal with
         | H : false = false -> _ |- _ => specialize (H eq_refl)
         end.
  subst. split; [reflexivity|]. split; [reflexivity|].
  repeat match goal with
         | H : ?b = SupplySystem.withFaction _ _ |- _ => rewrite H; clear H
         end.
  reflexivity.
Qed.

(** X8. [calculateUnitSupply] reports a unit in supply range exactly
    when some base of the unit's own faction has it within its supply
    range; the base it then reports is nearest among those bases, the
    reported distance is the Manhattan distance to it, and the two
    receive flags say whether that base produces fuel and ammunition.
    Out of range it reports no base, no distance and both flags false. *)
Theorem calculateUnitSupply_spec (ss : SupplySystem.t) (unit : UnitData)
    (position : GridPosition) :
  let info := SupplySystem.calculateUnitSupply ss unit position in
  (SupplySystem.inSupplyRange info = true <->
     exists base, servedBy ss unit position base) /\
  match SupplySystem.nearestBase info with
  | Some base =>
      SupplySystem.inSupplyRange info = true /\
      servedBy ss unit position base /\
      (forall b', servedBy ss unit position b' ->
         manhattanDistance position (SupplySystem.basePosition base)
           <= manhattanDistance position (SupplySystem.basePosition b')) /\
      SupplySystem.supplyDistance info
        = Some (manhattanDistance position (SupplySystem.basePosition base)) /\
      SupplySystem.canReceiveFuel info
        = bool_decide (0 < SupplySystem.fuelProduction base) /\
      SupplySystem.canReceiveAmmo info
        = bool_decide (0 < SupplySystem.ammunitionProduction base)
  | None =>
      SupplySystem.inSupplyRange info = false /\
      SupplySystem.supplyDistance info = None /\
      SupplySystem.canReceiveFuel info = false /\
      SupplySystem.canReceiveAmmo info = false
  end.
Proof.
  intros info.
  pose proof (calculateUnitSupply_nearest ss unit position) as Hn.
  fold info in Hn.
  pose proof (nearerBase_fold position
                (SupplySystem.getBasesByFaction ss (faction unit)) None) as Hf.
  unfold info, SupplySystem.calculateUnitSupply in *; simpl in *.
  destruct (foldl _ None _) as [[b d]|]; simpl in *.
  - destruct Hn as (_ & Hs & Hmin).
    destruct Hf as (Hd & _); [intros ? ? [=]|].
    split; [split; [intros _; by exists b | reflexivity]|].
    split; [reflexivity|]. split; [exact Hs|]. split; [exact Hmin|].
    split; [by rewrite Hd|].
    split; symmetry; case_bool_decide; lia.
  - destruct Hn as (_ & Hnone).
    split; [|done].
    split; [discriminate|]. intros [base Hb]. by destruct (Hnone base).
Qed.

(** Moving along a path costs the unit's fuel rate for every
    position after the first, nothing for an empty path or a path of one
    position, and never any ammunition; [canUnitMove] allows the move
    exactly when the unit holds at least that much fuel, and gives the
    reason "Not enough fuel" exactly when it does not. *)
Lemma canUnitMove_spec (unit : UnitData) (path : list GridPosition) :
  let consumption := SupplySystem.calculateMovementConsumption unit path in
  let answer := SupplySystem.canUnitMove unit path in
  SupplySystem.fuelConsumed consumption
    = Z.of_nat (length path - 1) * fuelConsumptionRate unit /\
  SupplySystem.ammunitionConsumed consumption = 0 /\
  (answer.1 = true <->
     Z.of_nat (length path - 1) * fuelConsumptionRate unit <= fuelCurrent unit) /\
  (answer.2 = if answer.1 then None else Some "Not enough fuel"%string).
Proof.
  intros consumption answer.
  assert (Hc : SupplySystem.fuelConsumed consumption
               = Z.of_nat (length path - 1) * fuelConsumptionRate unit).
  { unfold consumption, SupplySystem.calculateMovementConsumption; simpl.
    f_equal. lia. }
  split; [exact Hc|]. split; [reflexivity|].
  unfold answer, SupplySystem.canUnitMove. fold consumption. rewrite Hc.
  destruct (Z.ltb_spec (fuelCurrent unit)
              (Z.of_nat (length path - 1) * fuelConsumptionRate unit)); simpl.
  - split; [|reflexivity]. split; [discriminate | lia].
  - split; [|reflexivity]. split; [lia | reflexivity].
Qed.

(** ** Combat *)

Lemma canUnitAttack_true (u : UnitData) :
  (SupplySystem.canUnitAttack u).1 = true <->
  ammunitionConsumptionRate u <= ammunitionCurrent u.
Proof.
  unfold SupplySystem.canUnitAttack, SupplySystem.calculateCombatConsumption; simpl.
  destruct (Z.ltb_spec (ammunitionCurrent u) (ammunitionConsumptionRate u)); simpl;
    split; first [lia | discriminate | reflexivity].
Qed.

(** Paying for a strike changes the ammunition of the attacker only. *)
Lemma payment_keeps (units : nat -> UnitData) (a u : nat) (v : Z) :
  let units1 := <[ a := set_ammunitionCurrent v (units a) ]> units in
  faction (units1 u) = faction (units u) /\
  health (units1 u) = health (units u) /\
  unitName (units1 u) = unitName (units u) /\
  unitClass (units1 u) = unitClass (units u) /\
  attackPower (units1 u) = attackPower (units u) /\
  defense (units1 u) = defense (units u).
Proof.
  simpl. destruct (decide (a = u)) as [->|Hne].
  - rewrite fn_lookup_insert. done.
  - rewrite fn_lookup_insert_ne by exact Hne. done.
Qed.

(** X9. The report of a strike is consistent: the remaining health is
    the defender's health minus the damage, but not below 0; the strike
    is a kill exactly when the damage reaches the defender's health,
    which is exactly when no health remains; and a defender with
    positive health is left with strictly less. *)
Theorem resolveCombat_kill_rule cs units a apos d dpos r cs' units' :
  CombatSystem.resolveCombat cs units a apos d dpos = Returned (r, cs', units') ->
  CombatSystem.attacker r = a /\ CombatSystem.defender r = d /\
  CombatSystem.defenderRemainingHealth r
    = Z.max 0 (health (units d) - CombatSystem.damage r) /\
  (CombatSystem.isKill r = true <-> health (units d) <= CombatSystem.damage r) /\
  (CombatSystem.isKill r = true <-> CombatSystem.defenderRemainingHealth r = 0) /\
  (0 < health (units d) ->
   CombatSystem.defenderRemainingHealth r < health (units d)).
Proof.
  intros H. apply resolveCombat_result in H as (Hd & Hrem & Hkill & Ha & Hdef & _).
  split; [exact Ha|]. split; [exact Hdef|]. split; [exact Hrem|].
  rewrite Hkill, Hrem, Z.leb_le. lia.
Qed.

Lemma resolveCombat_kill_rule_witness :
  exists r cs' units',
    CombatSystem.resolveCombat suppliedCombat twoUnits 0 (mkPos 0 0) 1 (mkPos 1 0)
      = Returned (r, cs', units') /\
    CombatSystem.defenderRemainingHealth r
      = Z.max 0 (health (twoUnits 1%nat) - CombatSystem.damage r).
Proof.
  destruct (resolveCombat_returns suppliedCombat twoUnits 0 (mkPos 0 0) 1 (mkPos 1 0))
    as (r & cs' & units' & H); [by eexists | by eexists |].
  exists r, cs', units'. split; [exact H|].
  exact (proj1 (proj2 (proj2
    (resolveCombat_kill_rule suppliedCombat twoUnits 0%nat (mkPos 0 0) 1%nat (mkPos 1 0)
       r cs' units' H)))).
Defined.

(** X10. A strike has a diplomatic consequence exactly when a diplomacy
    ledger is attached, attacker and defender belong to different
    factions and the attacker could pay for the strike.  The consequence
    is -25 under "DESTROY_UNIT" for a kill and -15 under "ATTACK_UNIT"
    otherwise, and the ledger afterwards is the ledger before with the
    relation of the two factions modified by that value; without a
    consequence the ledger is untouched.  Map and supply system are
    never changed. *)
Theorem resolveCombat_diplomacy cs units a apos d dpos r cs' units' :
  CombatSystem.resolveCombat cs units a apos d dpos = Returned (r, cs', units') ->
  CombatSystem.map cs' = CombatSystem.map cs /\
  CombatSystem.supplySystem cs' = CombatSystem.supplySystem cs /\
  (is_Some (CombatSystem.diplomaticConsequence r) <->
     is_Some (CombatSystem.diplomacySystem cs) /\
     faction (units a) <> faction (units d) /\
     ~ outOfAmmunition cs (units a)) /\
  match CombatSystem.diplomaticConsequence r with
  | Some c =>
      CombatSystem.consequenceValue c
        = (if CombatSystem.isKill r then -25 else -15) /\
      CombatSystem.consequenceType c
        = (if CombatSystem.isKill r then "DESTROY_UNIT" else "ATTACK_UNIT")%string /\
      exists ds descr,
        CombatSystem.diplomacySystem cs = Some ds /\
        CombatSystem.diplomacySystem cs'
          = Some (DiplomacySystem.modifyRelation ds
                    (faction (units a)) (faction (units d))
                    (CombatSystem.consequenceValue c)
                    (CombatSystem.consequenceType c) descr)
  | None =>
      CombatSystem.diplomacySystem cs' = CombatSystem.diplomacySystem cs
  end.
Proof.
  unfold CombatSystem.resolveCombat, outOfAmmunition.
  destruct (CombatSystem.supplySystem cs) as [ss|] eqn:Hss.
  - destruct ((SupplySystem.canUnitAttack (units a)).1) eqn:Hcan; simpl.
    + apply canUnitAttack_true in Hcan.
      destruct (tileAt (CombatSystem.map cs) apos); [|discriminate].
      destruct (tileAt (CombatSystem.map cs) dpos); [|discriminate].
      destruct (CombatSystem.diplomacySystem cs) as [ds|] eqn:Hds.
      * case_bool_decide as Hf; intros [= <- <- <-]; simpl.
        -- split; [reflexivity|]. split; [reflexivity|].
           assert (Hf' : faction (units a) <> faction (units d)).
           { intros Heq. apply Hf.
             rewrite !(proj1 (payment_keeps units a _ _)). exact Heq. }
           split.
           { split; [intros _|by eexists].
             split; [by eexists|]. split; [exact Hf'|]. intros [_ ?]. lia. }
           split; [reflexivity|]. split; [reflexivity|].
           eexists ds, _. split; [reflexivity|].
           rewrite !(proj1 (payment_keeps units a _ _)). reflexivity.
        -- split; [reflexivity|]. split; [reflexivity|].
           split; [|reflexivity].
           split; [intros [? [=]]|]. intros (_ & Hf' & _). exfalso. apply Hf'.
           rewrite !(proj1 (payment_keeps units a _ _)) in Hf.
           first [exact Hf | by apply dec_stable].
      * intros [= <- <- <-]; simpl.
        split; [reflexivity|]. split; [reflexivity|]. split; [|reflexivity].
        split; [intros [? [=]]|]. intros ([? [=]] & _).
    + intros [= <- <- <-]; simpl.
      split; [reflexivity|]. split; [exact Hss|]. split; [|reflexivity].
      split; [intros [? [=]]|]. intros (_ & _ & Hno). exfalso. apply Hno.
      split; [by eexists|].
      destruct (Z.lt_ge_cases (ammunitionCurrent (units a))
                  (ammunitionConsumptionRate (units a))) as [?|Hge]; [done|].
      apply Z.ge_le_iff, Z.ge_le in Hge.
      apply canUnitAttack_true in Hge. congruence.
  - destruct (tileAt (CombatSystem.map cs) apos); [|discriminate].
    destruct (tileAt (CombatSystem.map cs) dpos); [|discriminate].
    destruct (CombatSystem.diplomacySystem cs) as [ds|] eqn:Hds.
    + case_bool_decide as Hf; intros [= <- <- <-]; simpl.
      * split; [reflexivity|]. split; [reflexivity|].
        split.
        { split; [intros _|by eexists].
          split; [by eexists|]. split; [exact Hf|]. intros [[? [=]] _]. }
        split; [reflexivity|]. split; [reflexivity|].
        eexists ds, _. split; reflexivity.
      * split; [reflexivity|]. split; [reflexivity|]. split; [|reflexivity].
        split; [intros [? [=]]|]. intros (_ & Hf' & _). exfalso. apply Hf'.
        first [exact Hf | by apply dec_stable].
    + intros [= <- <- <-]; simpl.
      split; [reflexivity|]. split; [reflexivity|]. split; [|reflexivity].
      split; [intros [? [=]]|]. intros ([? [=]] & _).
Qed.

Lemma resolveCombat_diplomacy_witness :
  exists r cs' units',
    CombatSystem.resolveCombat suppliedCombat twoUnits 0 (mkPos 0 0) 1 (mkPos 1 0)
      = Returned (r, cs', units') /\
    CombatSystem.map cs' = CombatSystem.map suppliedCombat.
Proof.
  destruct (resolveCombat_returns suppliedCombat twoUnits 0 (mkPos 0 0) 1 (mkPos 1 0))
    as (r & cs' & units' & H); [by eexists | by eexists |].
  exists r, cs', units'. split; [exact H|].
  exact (proj1
    (resolveCombat_diplomacy suppliedCombat twoUnits 0%nat (mkPos 0 0) 1%nat (mkPos 1 0)
       r cs' units' H)).
Defined.

(** X11. Ammunition never becomes negative in combat: a strike is paid
    for only when the attacker holds at least what it consumes, so every
    unit whose ammunition was not negative before the call has
    non-negative ammunition after it; the reported consumption is the
    attacker's rate when a supply system is attached and the attacker
    could pay, and 0 otherwise. *)
Theorem resolveCombat_ammunition cs units a apos d dpos r cs' units' :
  CombatSystem.resolveCombat cs units a apos d dpos = Returned (r, cs', units') ->
  (forall u, 0 <= ammunitionCurrent (units u) ->
             0 <= ammunitionCurrent (units' u)) /\
  CombatSystem.ammunitionConsumed r =
    (if decide (is_Some (CombatSystem.supplySystem cs) /\
                ammunitionConsumptionRate (units a) <= ammunitionCurrent (units a))
     then ammunitionConsumptionRate (units a) else 0).
Proof.
  unfold CombatSystem.resolveCombat.
  destruct (CombatSystem.supplySystem cs) as [ss|] eqn:Hss.
  - destruct ((SupplySystem.canUnitAttack (units a)).1) eqn:Hcan;
      cbn [negb].
    + apply canUnitAttack_true in Hcan.
      destruct (tileAt (CombatSystem.map cs) apos); [|discriminate].
      destruct (tileAt (CombatSystem.map cs) dpos); [|discriminate].
      destruct (CombatSystem.diplomacySystem cs);
        [case_bool_decide|]; intros [= <- <- <-];
        (split; [intros u Hu; destruct (decide (a = u)) as [->|Hne];
                   [rewrite fn_lookup_insert; simpl; lia
                   | by rewrite fn_lookup_insert_ne by exact Hne]
                | cbn [CombatSystem.ammunitionConsumed];
                  rewrite decide_True; [reflexivity | split; [by eexists | lia]]]).
    + intros [= <- <- <-]. split; [auto|].
      cbn [CombatSystem.ammunitionConsumed].
      rewrite decide_False; [reflexivity|]. intros [_ Hle].
      apply canUnitAttack_true in Hle. congruence.
  - destruct (tileAt (CombatSystem.map cs) apos); [|discriminate].
    destruct (tileAt (CombatSystem.map cs) dpos); [|discriminate].
    destruct (CombatSystem.diplomacySystem cs);
      [case_bool_decide|]; intros [= <- <- <-];
      (split; [auto | cbn [CombatSystem.ammunitionConsumed];
                      rewrite decide_False; [reflexivity | intros [[? [=]] _]]]).
Qed.

Lemma resolveCombat_ammunition_witness :
  exists r cs' units',
    CombatSystem.resolveCombat suppliedCombat twoUnits 0 (mkPos 0 0) 1 (mkPos 1 0)
      = Returned (r, cs', units') /\
    CombatSystem.ammunitionConsumed r = 5.
Proof.
  destruct (resolveCombat_returns suppliedCombat twoUnits 0 (mkPos 0 0) 1 (mkPos 1 0))
    as (r & cs' & units' & H); [by eexists | by eexists |].
  exists r, cs', units'. split; [exact H|].
  rewrite (proj2
    (resolveCombat_ammunition suppliedCombat twoUnits 0%nat (mkPos 0 0) 1%nat (mkPos 1 0)
       r cs' units' H)).
  reflexivity.
Defined.

Lemma calculateUnitSupply_faction ss (u u' : UnitData) position :
  faction u = faction u' ->
  SupplySystem.calculateUnitSupply ss u position
  = SupplySystem.calculateUnitSupply ss u' position.
Proof. intros H. unfold SupplySystem.calculateUnitSupply. by rewrite H. Qed.

Lemma resolveCombat_damage cs units a apos d dpos r cs' units' :
  CombatSystem.resolveCombat cs units a apos d dpos = Returned (r, cs', units') ->
  (outOfAmmunition cs (units a) /\ CombatSystem.damage r = 1) \/
  (~ outOfAmmunition cs (units a) /\
   exists ta td,
     tileAt (CombatSystem.map cs) apos = Some ta /\
     tileAt (CombatSystem.map cs) dpos = Some td /\
     CombatSystem.damage r =
       strikeDamage (attackPower (units a))
         (unitClass (units a)) (unitClass (units d)) (defense (units d))
         (type (terrain ta)) (type (terrain td))
         ((fun ss => SupplySystem.inSupplyRange
                       (SupplySystem.calculateUnitSupply ss (units d) dpos))
            <$> CombatSystem.supplySystem cs)).
Proof.
  unfold CombatSystem.resolveCombat, outOfAmmunition.
  destruct (CombatSystem.supplySystem cs) as [ss|] eqn:Hss.
  - destruct ((SupplySystem.canUnitAttack (units a)).1) eqn:Hcan; cbn [negb].
    + apply canUnitAttack_true in Hcan.
      destruct (tileAt (CombatSystem.map cs) apos) as [ta|]; [|discriminate].
      destruct (tileAt (CombatSystem.map cs) dpos) as [td|]; [|discriminate].
      intros H. right. split; [intros [_ ?]; lia|]. exists ta, td.
      split; [reflexivity|]. split; [reflexivity|].
      set (units1 := <[ a := _ ]> units) in H.
      pose proof (payment_keeps units a a
                    (ammunitionCurrent (units a) - ammunitionConsumptionRate (units a)))
        as (_ & _ & _ & Hca & Hpa & _).
      pose proof (payment_keeps units a d
                    (ammunitionCurrent (units a) - ammunitionConsumptionRate (units a)))
        as (Hfd & _ & _ & Hcd & _ & Hdd).
      cbv zeta in Hca, Hpa, Hfd, Hcd, Hdd. fold units1 in Hca, Hpa, Hfd, Hcd, Hdd.
      rewrite (calculateUnitSupply_faction ss (units1 d) (units d) dpos Hfd) in H.
      rewrite Hca, Hpa, Hcd, Hdd in H.
      unfold strikeDamage. cbn [fmap option_fmap option_map].
      destruct (SupplySystem.inSupplyRange _); cbn [negb] in H |- *;
        (destruct (CombatSystem.diplomacySystem cs);
         [case_bool_decide|]; injection H as <- _ _; reflexivity).
    + intros [= <- <- <-]. left. split; [|reflexivity]. split; [by eexists|].
      destruct (Z.lt_ge_cases (ammunitionCurrent (units a))
                  (ammunitionConsumptionRate (units a))) as [?|Hge]; [done|].
      apply canUnitAttack_true in Hge. congruence.
  - destruct (tileAt (CombatSystem.map cs) apos) as [ta|]; [|discriminate].
    destruct (tileAt (CombatSystem.map cs) dpos) as [td|]; [|discriminate].
    intros H. right. split; [intros [[? [=]] _]|]. exists ta, td.
    split; [reflexivity|]. split; [reflexivity|].
    unfold strikeDamage. cbn [fmap option_fmap option_map].
    destruct (CombatSystem.diplomacySystem cs);
      [case_bool_decide|]; injection H as <- _ _; reflexivity.
Qed.

Lemma classAdvantage_nonneg a d : (0 <= CombatSystem.classAdvantage a d)%Q.
Proof. destruct a, d; vm_compute; discriminate. Qed.

Lemma attackModifier_nonneg t :
  (0 <= CombatSystem.attackModifier (CombatSystem.getTerrainModifiers t))%Q.
Proof. destruct t; vm_compute; discriminate. Qed.

Lemma strikeDamage_monotone p1 p2 ac dc def ta td sup :
  p1 <= p2 ->
  strikeDamage p1 ac dc def ta td sup <= strikeDamage p2 ac dc def ta td sup.
Proof.
  intros Hp. unfold strikeDamage, Math_round. cbv zeta.
  apply Z.max_le_compat_l, Qfloor_resp_le.
  apply Qplus_le_compat; [|apply Qle_refl].
  apply Qplus_le_compat; [|apply Qle_refl].
  assert (H2 : (inject_Z p1 * CombatSystem.classAdvantage ac dc
                * CombatSystem.attackModifier (CombatSystem.getTerrainModifiers ta)
                <= inject_Z p2 * CombatSystem.classAdvantage ac dc
                   * CombatSystem.attackModifier (CombatSystem.getTerrainModifiers ta))%Q).
  { apply Qmult_le_compat_r; [|apply attackModifier_nonneg].
    apply Qmult_le_compat_r; [|apply classAdvantage_nonneg].
    rewrite <- Zle_Qle. exact Hp. }
  destruct sup as [[|]|]; try exact H2.
  apply Qmult_le_compat_r; [exact H2 | vm_compute; discriminate].
Qed.

(** X12. More attack power never means less damage: when the attacker's
    attack power is raised and everything else is left as it is, the
    damage that [resolveCombat] reports does not go down. *)
Theorem resolveCombat_damage_monotone cs units a apos d dpos (power : Z)
    r1 cs1 units1 r2 cs2 units2 :
  attackPower (units a) <= power ->
  CombatSystem.resolveCombat cs units a apos d dpos = Returned (r1, cs1, units1) ->
  CombatSystem.resolveCombat cs (<[ a := withAttackPower power (units a) ]> units)
    a apos d dpos = Returned (r2, cs2, units2) ->
  CombatSystem.damage r1 <= CombatSystem.damage r2.
Proof.
  intros Hp H1 H2.
  apply resolveCombat_damage in H1, H2.
  rewrite fn_lookup_insert in H2.
  assert (Hd : exists u, (<[ a := withAttackPower power (units a) ]> units) d = u /\
             unitClass u = unitClass (units d) /\ defense u = defense (units d) /\
             faction u = faction (units d)).
  { eexists. split; [reflexivity|]. destruct (decide (a = d)) as [->|Hne].
    - rewrite fn_lookup_insert. done.
    - rewrite fn_lookup_insert_ne by exact Hne. done. }
  destruct Hd as (u & Hu & Hcu & Hdu & Hfu). rewrite Hu in H2.
  destruct H1 as [[Hout1 ->] | (Hin1 & ta & td & Hta & Htd & ->)];
    destruct H2 as [[Hout2 ->] | (Hin2 & ta' & td' & Hta' & Htd' & ->)].
  - lia.
  - exfalso. apply Hin2. exact Hout1.
  - exfalso. apply Hin1. exact Hout2.
  - rewrite Hta in Hta'. rewrite Htd in Htd'.
    injection Hta' as <-. injection Htd' as <-.
    rewrite Hcu, Hdu. cbn [unitClass attackPower withAttackPower].
    replace ((fun ss => SupplySystem.inSupplyRange
                (SupplySystem.calculateUnitSupply ss u dpos))
               <$> CombatSystem.supplySystem cs)
      with ((fun ss => SupplySystem.inSupplyRange
                (SupplySystem.calculateUnitSupply ss (units d) dpos))
               <$> CombatSystem.supplySystem cs).
    + by apply strikeDamage_monotone.
    + destruct (CombatSystem.supplySystem cs) as [ss|]; [|reflexivity].
      cbn [fmap option_fmap option_map]. f_equal. f_equal.
      symmetry. by apply calculateUnitSupply_faction.
Qed.

Lemma resolveCombat_damage_monotone_witness :
  exists r1 cs1 units1 r2 cs2 units2,
    CombatSystem.resolveCombat suppliedCombat twoUnits 0 (mkPos 0 0) 1 (mkPos 1 0)
      = Returned (r1, cs1, units1) /\
    CombatSystem.resolveCombat suppliedCombat
      (<[ 0%nat := withAttackPower 45 (twoUnits 0%nat) ]> twoUnits)
      0 (mkPos 0 0) 1 (mkPos 1 0) = Returned (r2, cs2, units2) /\
    CombatSystem.damage r1 <= CombatSystem.damage r2.
Proof.
  destruct (resolveCombat_returns suppliedCombat twoUnits 0 (mkPos 0 0) 1 (mkPos 1 0))
    as (r1 & cs1 & units1 & H1); [by eexists | by eexists |].
  destruct (resolveCombat_returns suppliedCombat
              (<[ 0%nat := withAttackPower 45 (twoUnits 0%nat) ]> twoUnits)
              0 (mkPos 0 0) 1 (mkPos 1 0))
    as (r2 & cs2 & units2 & H2); [by eexists | by eexists |].
  exists r1, cs1, units1, r2, cs2, units2.
  split; [exact H1|]. split; [exact H2|].
  apply (resolveCombat_damage_monotone suppliedCombat twoUnits 0%nat (mkPos 0 0)
           1%nat (mkPos 1 0) 45 r1 cs1 units1 r2 cs2 units2); [|exact H1|exact H2].
  vm_compute. discriminate.
Defined.

(** ** Pathfinding: [findPath] under a cap on the movement points *)

Lemma route_zero map mt (Hwf : wellFormedMap map) s v c :
  route map mt s v c -> c <= 0 -> v = s /\ c = 0.
Proof.
  induction 1 as [|u v c w Hr IH Hs]; intros Hle; [done|].
  pose proof (step_cost_pos map mt Hwf _ _ _ Hs).
  pose proof (route_nonneg map mt Hwf _ _ _ Hr). lia.
Qed.

Section CappedSearch.
Variable map : GameMap.
Variable mt : MovementType.t.
Hypothesis Hwf : wellFormedMap map.
Variables s e : GridPosition.
Variable limit : Z.

(** Only the start node can be open at a cost above the cap. *)
Definition withinLimit (n : PathNode) : Prop :=
  gCost n <= limit \/ gCost n = 0.

(** The invariant of the [while] loop of [findPath] under the cap: as
    without a cap, but a move out of a closed node needs to be accounted
    for only when it stays within the cap. *)
Record cappedInv (openSet : list PathNode)
    (closedSet : gmap string PathNode) : Prop := {
  cap_open : Forall (openOk map mt s e closedSet) openSet;
  cap_limit : Forall withinLimit openSet;
  cap_nodup : NoDup (position <$> openSet);
  cap_closed : map_Forall (closedOk map mt s e) closedSet;
  cap_relaxed : forall k n v w,
    closedSet !! k = Some n -> step map mt (position n) v w ->
    gCost n + w <= limit ->
    relaxedInto openSet closedSet n v w;
  cap_start : startKnown s openSet closedSet
}.

Record cappedVisitInv (cur : PathNode) (closedSet : gmap string PathNode)
    (done : list GridPosition) (openSet : list PathNode) : Prop := {
  cvis_open : Forall (openOk map mt s e closedSet) openSet;
  cvis_limit : Forall withinLimit openSet;
  cvis_nodup : NoDup (position <$> openSet);
  cvis_relaxed : forall k n v w,
    closedSet !! k = Some n -> step map mt (position n) v w ->
    gCost n + w <= limit ->
    position n <> position cur \/ v ∈ done ->
    relaxedInto openSet closedSet n v w;
  cvis_start : startKnown s openSet closedSet
}.

(** Every route within the cap ends in a closed position or passes an
    open node whose [fCost] does not exceed the cost of the route plus
    the estimate from its end. *)
Lemma frontier_capped openSet closedSet v c :
  cappedInv openSet closedSet -> route map mt s v c -> c <= limit ->
  is_Some (closedSet !! posToKey v) \/
  exists n, n ∈ openSet /\ fCost n <= c + manhattanDistance v e.
Proof.
  intros Hinv. induction 1 as [|u v c w Hr IH Hs]; intros Hle.
  - destruct (cap_start _ _ Hinv) as [Hc|(n & Hin & Hp & Hg)]; [by left|].
    right. exists n. split; [exact Hin|].
    pose proof (cap_open _ _ Hinv) as Hopen. rewrite Forall_forall in Hopen.
    destruct (Hopen n Hin) as (_ & Hh & Hf & _). rewrite Hf, Hh, Hp. lia.
  - pose proof (manhattan_consistent map mt Hwf u v w e Hs) as Hcons.
    pose proof (step_cost_pos map mt Hwf _ _ _ Hs) as Hw.
    destruct IH as [[nu Hnu]|(n & Hin & Hf)]; [lia| |].
    + destruct (cap_closed _ _ Hinv _ _ Hnu) as (Hk & [_ Hleast] & _ & _).
      apply (inj posToKey) in Hk. subst u.
      specialize (Hleast c Hr).
      destruct (cap_relaxed _ _ Hinv _ _ _ _ Hnu Hs) as [Hc|(n' & Hin & Hp & Hg)];
        [lia | by left |].
      right. exists n'. split; [exact Hin|].
      pose proof (cap_open _ _ Hinv) as Hopen. rewrite Forall_forall in Hopen.
      destruct (Hopen n' Hin) as (_ & Hh & Hf & _). rewrite Hf, Hh, Hp. lia.
    + right. exists n. split; [exact Hin | lia].
Qed.

Lemma cappedInv_perm openSet openSet' closedSet :
  openSet ≡ₚ openSet' -> cappedInv openSet closedSet -> cappedInv openSet' closedSet.
Proof.
  intros Hp [Ho Hl Hn Hc Hr Hs]. split.
  - by rewrite <- Hp.
  - by rewrite <- Hp.
  - by rewrite <- Hp.
  - exact Hc.
  - intros k n v w Hk Hst Hle.
    destruct (Hr k n v w Hk Hst Hle) as [?|(n' & Hin & ?)];
      [by left|]. right. exists n'. by rewrite <- Hp.
  - destruct Hs as [?|(n' & Hin & ?)]; [by left|]. right. exists n'. by rewrite <- Hp.
Qed.

Lemma cappedVisitInv_extend cur (closedSet : gmap string PathNode)
    done openSet openSet' v :
  map_Forall (closedOk map mt s e) closedSet ->
  closedSet !! posToKey (position cur) = Some cur ->
  cappedVisitInv cur closedSet done openSet ->
  Forall (openOk map mt s e closedSet) openSet' ->
  Forall withinLimit openSet' ->
  NoDup (position <$> openSet') ->
  refines openSet openSet' ->
  (forall w, step map mt (position cur) v w -> gCost cur + w <= limit ->
     relaxedInto openSet' closedSet cur v w) ->
  cappedVisitInv cur closedSet (v :: done) openSet'.
Proof.
  intros Hc Hcur [Ho Hl Hn Hr Hs] Ho' Hl' Hn' Href Hv.
  split; [exact Ho' | exact Hl' | exact Hn' | |].
  - intros k n v' w Hk Hst Hle Hcase.
    destruct (decide (position n = position cur)) as [Heq|Hne].
    + destruct Hcase as [?|Hin]; [done|].
      apply elem_of_cons in Hin as [->|Hin].
      * rewrite (closed_node_at_key map mt s e _ _ _ _ Hc Hcur Hk Heq) in *.
        by apply Hv.
      * eapply relaxedInto_refines; [exact Href|]. eapply Hr; eauto.
    + eapply relaxedInto_refines; [exact Href|]. eapply Hr; eauto.
  - by eapply startKnown_refines.
Qed.

(** One neighbour visited under the cap. *)
Lemma visitNeighbor_capped cur (closedSet : gmap string PathNode) done openSet v :
  map_Forall (closedOk map mt s e) closedSet ->
  closedSet !! posToKey (position cur) = Some cur ->
  v ∈ getNeighbors (position cur) (width map) (height map) ->
  cappedVisitInv cur closedSet done openSet ->
  exists openSet',
    visitNeighbor map mt e (Some limit) closedSet cur openSet v = Some openSet' /\
    cappedVisitInv cur closedSet (v :: done) openSet'.
Proof.
  intros Hc Hcur Hnb Hinv.
  assert (Hb : inBounds map v) by (by apply getNeighbors_elem in Hnb as [? _]).
  destruct (proj1 Hwf v Hb) as [t Ht].
  destruct (Hc _ _ Hcur) as (_ & _ & _ & Hchain).
  unfold visitNeighbor. rewrite Ht.
  destruct (notTraversable mt t) eqn:Htrav; simpl.
  { exists openSet. split; [reflexivity|].
    apply (cappedVisitInv_extend _ _ _ _ _ _ Hc Hcur Hinv);
      [apply Hinv | apply Hinv | apply Hinv | apply refines_refl |].
    intros w (_ & t' & Ht' & Htrav' & _). congruence. }
  case_bool_decide as Hclosed.
  { exists openSet. split; [reflexivity|].
    apply (cappedVisitInv_extend _ _ _ _ _ _ Hc Hcur Hinv);
      [apply Hinv | apply Hinv | apply Hinv | apply refines_refl |].
    intros w _ _. by left. }
  apply eq_None_not_Some in Hclosed.
  set (g' := gCost cur + stepCost mt t).
  assert (Hstep : step map mt (position cur) v (stepCost mt t)).
  { split; [exact Hnb|]. by exists t. }
  assert (Hw : forall w, step map mt (position cur) v w -> w = stepCost mt t).
  { intros w (_ & t' & Ht' & _ & ->). congruence. }
  destruct (Z.ltb_spec limit g') as [Hover|Hfits].
  { exists openSet. split; [reflexivity|].
    apply (cappedVisitInv_extend _ _ _ _ _ _ Hc Hcur Hinv);
      [apply Hinv | apply Hinv | apply Hinv | apply refines_refl |].
    intros w Hst Hle. rewrite (Hw _ Hst) in Hle. unfold g' in Hover. lia. }
  assert (Hchain' : walk map mt s (parentChain cur ++ [v]) v g')
    by (by eapply walk_move).
  destruct (list_find _ openSet) as [[i ex]|] eqn:Hfind.
  - apply list_find_Some in Hfind as (Hi & Hpos & Hfirst).
    assert (Hex : ex ∈ openSet) by (apply list_elem_of_lookup; eauto).
    destruct (Z.ltb_spec g' (gCost ex)) as [Hlt|Hge].
    + eexists. split; [reflexivity|].
      set (nn := {| position := position ex; gCost := g'; hCost := hCost ex;
                    fCost := g' + hCost ex; parent := Some cur |}).
      pose proof (cvis_open _ _ _ _ Hinv) as Hopen.
      assert (Hexok : openOk map mt s e closedSet ex)
        by (rewrite Forall_forall in Hopen; by apply Hopen).
      apply (cappedVisitInv_extend _ _ _ _ _ _ Hc Hcur Hinv).
      * apply Forall_insert; [exact Hopen|].
        destruct Hexok as (_ & Hh & _ & Hcl).
        split; [unfold chainOk; simpl; by rewrite Hpos|].
        split; [exact Hh|]. split; [reflexivity | exact Hcl].
      * apply Forall_insert; [apply Hinv|]. by left.
      * rewrite list_fmap_insert. simpl. rewrite list_insert_id.
        -- apply Hinv.
        -- by rewrite list_lookup_fmap, Hi.
      * intros n Hn. apply list_elem_of_lookup in Hn as [j Hj].
        destruct (decide (j = i)) as [->|Hne].
        -- exists nn. split.
           ++ apply list_elem_of_lookup. exists i. apply list_lookup_insert_eq.
              by eapply lookup_lt_Some.
           ++ assert (n = ex) by congruence. subst n. split; [reflexivity | simpl; lia].
        -- exists n. split.
           ++ apply list_elem_of_lookup. exists j. by rewrite list_lookup_insert_ne.
           ++ split; [reflexivity | lia].
      * intros w Hst _. rewrite (Hw _ Hst). right. exists nn. split.
        -- apply list_elem_of_lookup. exists i. apply list_lookup_insert_eq.
           by eapply lookup_lt_Some.
        -- split; [exact Hpos | simpl; unfold g'; lia].
    + exists openSet. split; [reflexivity|].
      apply (cappedVisitInv_extend _ _ _ _ _ _ Hc Hcur Hinv);
        [apply Hinv | apply Hinv | apply Hinv | apply refines_refl |].
      intros w Hst _. rewrite (Hw _ Hst). right. exists ex.
      split; [exact Hex|]. split; [exact Hpos | unfold g' in Hge; lia].
  - apply list_find_None in Hfind.
    eexists. split; [reflexivity|].
    set (nn := {| position := v; gCost := g';
                  hCost := manhattanDistance v e;
                  fCost := g' + manhattanDistance v e; parent := Some cur |}).
    apply (cappedVisitInv_extend _ _ _ _ _ _ Hc Hcur Hinv).
    + apply Forall_app. split; [apply Hinv|].
      constructor; [|constructor]. by repeat split.
    + apply Forall_app. split; [apply Hinv|].
      constructor; [|constructor]. by left.
    + rewrite fmap_app. apply NoDup_app. split; [apply Hinv|]. split.
      * intros p Hp Hp'. apply list_elem_of_singleton in Hp'. simpl in Hp'. subst p.
        apply list_elem_of_fmap in Hp as (n & Hpn & Hn).
        rewrite Forall_forall in Hfind. by apply (Hfind n Hn).
      * apply NoDup_singleton.
    + intros n Hn. exists n. split; [apply elem_of_app; by left|].
      split; [reflexivity | lia].
    + intros w Hst _. rewrite (Hw _ Hst). right. exists nn.
      split; [apply elem_of_app; right; apply list_elem_of_here|].
      split; [reflexivity | simpl; unfold g'; lia].
Qed.

Lemma visitNeighbors_capped cur (closedSet : gmap string PathNode) neighbors :
  forall done openSet,
  map_Forall (closedOk map mt s e) closedSet ->
  closedSet !! posToKey (position cur) = Some cur ->
  (forall v, v ∈ neighbors -> v ∈ getNeighbors (position cur) (width map) (height map)) ->
  cappedVisitInv cur closedSet done openSet ->
  exists openSet' done',
    visitNeighbors map mt e (Some limit) closedSet cur openSet neighbors
      = Some openSet' /\
    cappedVisitInv cur closedSet done' openSet' /\
    forall v, v ∈ neighbors \/ v ∈ done -> v ∈ done'.
Proof.
  induction neighbors as [|v rest IH]; intros done openSet Hc Hcur Hsub Hinv.
  - exists openSet, done. split; [reflexivity|]. split; [exact Hinv|].
    intros v [Hv|Hv]; [by apply elem_of_nil in Hv | exact Hv].
  - destruct (visitNeighbor_capped cur closedSet done openSet v Hc Hcur)
      as (o1 & Heq1 & Hinv1);
      [apply Hsub, list_elem_of_here | exact Hinv |].
    destruct (IH (v :: done) o1 Hc Hcur) as (o2 & done2 & Heq & Hinv2 & Hall);
      [intros v' Hv'; by apply Hsub, list_elem_of_further | exact Hinv1 |].
    exists o2, done2. split; [cbn [visitNeighbors]; by rewrite Heq1|].
    split; [exact Hinv2|].
    intros v' [Hv'|Hv'].
    + apply elem_of_cons in Hv' as [->|Hv'];
        [apply Hall; right; apply list_elem_of_here | apply Hall; by left].
    + apply Hall. right. by apply list_elem_of_further.
Qed.

(** What [findPath] may answer under the cap: a path at the least cost of
    any route, which is a walk from the start to the target within the
    cap (or empty, when the target is the start); or [null] when every
    route costs more than the cap. *)
Definition cappedAnswer (r : option Path) : Prop :=
  match r with
  | Some p =>
      leastCost map mt s e (cost p) /\
      ((walk map mt s (path p) e (cost p) /\ cost p <= limit /\ s <> e)
       \/ (s = e /\ path p = [] /\ cost p = 0))
  | None => s <> e /\ forall c, route map mt s e c -> limit < c
  end.

Lemma findPathLoop_capped (fuel : nat) :
  forall (openSet : list PathNode) (closedSet : gmap string PathNode),
  s <> e ->
  cappedInv openSet closedSet ->
  (length (unclosedCells map s closedSet) < fuel)%nat ->
  exists r,
    findPathLoop map mt fuel e (Some limit) openSet closedSet = Returned r /\
    cappedAnswer r.
Proof.
  induction fuel as [|fuel IH]; intros openSet closedSet Hse Hinv Hfuel; [lia|].
  cbn [findPathLoop]. destruct (sortByFCost openSet) as [|cur open1] eqn:Hsort.
  - pose proof (sortByFCost_perm openSet) as Hp. rewrite Hsort in Hp.
    symmetry in Hp. apply Permutation_nil_r in Hp. subst openSet.
    exists None. split; [reflexivity|]. split; [exact Hse|]. intros c Hr.
    destruct (decide (c <= limit)) as [Hle|?]; [|lia].
    destruct (frontier_capped [] closedSet e c Hinv Hr Hle) as [[n Hn]|(n & Hin & _)].
    + destruct (cap_closed _ _ Hinv _ _ Hn) as (Hk & _ & Hne & _).
      apply (inj posToKey) in Hk. congruence.
    + by apply elem_of_nil in Hin.
  - destruct (sortByFCost_head _ _ _ Hsort) as [Hp Hmin].
    assert (Hinv' : cappedInv (cur :: open1) closedSet)
      by (eapply cappedInv_perm; [symmetry; exact Hp | exact Hinv]).
    pose proof (cap_open _ _ Hinv') as Hopen.
    apply Forall_cons in Hopen as [(Hchain & Hh & Hf & Hnone) Hopen1].
    pose proof (cap_limit _ _ Hinv') as Hlim.
    apply Forall_cons in Hlim as [Hlimcur Hlim1].
    pose proof (walk_route _ _ _ _ _ _ Hchain) as Hroute.
    assert (Hleast : leastCost map mt s (position cur) (gCost cur)).
    { split; [exact Hroute|]. intros c Hr.
      destruct (decide (c <= limit)) as [Hle|Hgt].
      - destruct (frontier_capped _ closedSet _ c Hinv' Hr Hle)
          as [[n Hn]|(n & Hin & Hfn)]; [congruence|].
        rewrite Hp in Hin. specialize (Hmin n Hin). lia.
      - destruct Hlimcur as [?|Hz]; [lia|].
        pose proof (route_nonneg map mt Hwf _ _ _ Hr). lia. }
    case_bool_decide as Hgoal.
    + exists (Some (reconstructPath cur)). split; [reflexivity|].
      simpl. rewrite <- Hgoal. split; [exact Hleast|]. left.
      split; [exact Hchain|]. split; [|congruence].
      destruct Hlimcur as [?|Hz]; [done|].
      destruct (route_zero map mt Hwf _ _ _ Hroute) as [Hs _]; [lia|]. congruence.
    + set (closedSet' := <[ posToKey (position cur) := cur ]> closedSet).
      pose proof (cap_nodup _ _ Hinv') as Hnd.
      rewrite fmap_cons in Hnd. apply NoDup_cons in Hnd as [Hfresh Hnd1].
      assert (Hc' : map_Forall (closedOk map mt s e) closedSet').
      { apply map_Forall_insert_2; [|apply Hinv].
        split; [reflexivity|]. split; [exact Hleast|]. split; [exact Hgoal | exact Hchain]. }
      assert (Hcur : closedSet' !! posToKey (position cur) = Some cur)
        by apply lookup_insert_eq.
      assert (Hmono : forall k, is_Some (closedSet !! k) -> is_Some (closedSet' !! k)).
      { intros k Hk. unfold closedSet'. apply lookup_insert_is_Some.
        destruct (decide (posToKey (position cur) = k)); [by left | by right]. }
      assert (Hvis : cappedVisitInv cur closedSet' [] open1).
      { split.
        - rewrite Forall_forall in Hopen1. apply Forall_forall. intros n Hn.
          destruct (Hopen1 n Hn) as (? & ? & ? & Hcl). repeat split; try done.
          unfold closedSet'. rewrite lookup_insert_ne; [exact Hcl|].
          intros Heq. apply (inj posToKey) in Heq. apply Hfresh.
          rewrite Heq. apply list_elem_of_fmap. by exists n.
        - exact Hlim1.
        - exact Hnd1.
        - intros k n v w Hk Hst Hle [Hne|Hin]; [|by apply elem_of_nil in Hin].
          unfold closedSet' in Hk. rewrite lookup_insert_ne in Hk.
          2:{ intros <-. rewrite lookup_insert_eq in Hk. congruence. }
          destruct (cap_relaxed _ _ Hinv' _ _ _ _ Hk Hst Hle)
            as [Hcl|(n' & Hin & Hpn & Hg)]; [left; by apply Hmono|].
          apply elem_of_cons in Hin as [->|Hin].
          + left. rewrite <- Hpn. by rewrite Hcur.
          + right. by exists n'.
        - destruct (cap_start _ _ Hinv') as [Hcl|(n' & Hin & Hpn & Hg)];
            [left; by apply Hmono|].
          apply elem_of_cons in Hin as [->|Hin].
          + left. rewrite <- Hpn. by rewrite Hcur.
          + right. by exists n'. }
      destruct (visitNeighbors_capped cur closedSet'
                  (getNeighbors (position cur) (width map) (height map))
                  [] open1 Hc' Hcur (fun v H => H) Hvis)
        as (open2 & done' & -> & Hvis2 & Hall).
      apply IH; [exact Hse | |].
      * destruct Hvis2 as [Ho Hl Hn Hr Hs].
        split; [exact Ho | exact Hl | exact Hn | exact Hc' | | exact Hs].
        intros k n v w Hk Hst Hle.
        destruct (decide (position n = position cur)) as [Heq|Hne].
        -- apply (Hr k n v w Hk Hst Hle). right. apply Hall. left.
           destruct Hst as [Hnb _]. by rewrite <- Heq.
        -- apply (Hr k n v w Hk Hst Hle). by left.
      * assert (Hcell : position cur ∈ s :: gridCells map).
        { destruct (route_cell map mt s _ _ Hroute) as [->|Hb].
          - apply list_elem_of_here.
          - apply list_elem_of_further. by apply gridCells_elem. }
        pose proof (unclosedCells_insert map s closedSet (position cur) cur Hnone Hcell).
        fold closedSet' in H. lia.
Qed.

(** [findPath] under a cap, on a well-formed map: it returns, and its
    answer is right. *)
Lemma findPath_capped :
  exists r, findPath map mt s e (Some limit) = Returned r /\ cappedAnswer r.
Proof.
  unfold findPath. case_bool_decide as Hse.
  - exists (Some {| path := []; cost := 0 |}). split; [reflexivity|]. simpl.
    subst e. split; [|by right].
    split; [constructor|]. intros c Hr. by eapply route_nonneg.
  - apply findPathLoop_capped; [exact Hse | |].
    + split.
      * constructor; [|constructor]. repeat split; simpl; try done. constructor.
      * constructor; [|constructor]. by right.
      * simpl. apply NoDup_singleton.
      * apply map_Forall_empty.
      * intros k n v w Hk. by rewrite lookup_empty in Hk.
      * right. eexists. split; [apply list_elem_of_here|]. simpl. split; [reflexivity | lia].
    + unfold findPathFuel. pose proof (unclosedCells_bound map s ∅). lia.
Qed.

End CappedSearch.

Lemma pathCost_snoc map mt l v :
  l <> [] -> pathCost map mt (l ++ [v]) = pathCost map mt l + entryCost map mt v.
Proof.
  destruct l as [|a l]; [done|]. intros _. unfold pathCost. simpl.
  induction l as [|b l IH]; simpl; lia.
Qed.

Lemma walk_shape map mt s l v c :
  walk map mt s l v c ->
  head l = Some s /\ last l = Some v /\
  c = pathCost map mt l /\
  (forall i u u', l !! i = Some u -> l !! S i = Some u' -> legalMove map mt u u').
Proof.
  induction 1 as [|l u v c w Hw IH Hs].
  - split; [reflexivity|]. split; [reflexivity|]. split; [reflexivity|].
    intros i u u' _ Hi. destruct i; discriminate.
  - destruct IH as (Hhd & Hlast & Hcost & Hadj).
    assert (Hne : l <> []) by (intros ->; discriminate).
    split; [destruct l; [done | exact Hhd]|].
    split; [by rewrite last_snoc|].
    split.
    { rewrite pathCost_snoc by exact Hne. rewrite Hcost. f_equal.
      destruct Hs as (_ & t & Ht & _ & ->). unfold entryCost. by rewrite Ht. }
    intros i a a' Hi Hi'.
    destruct (decide (S i < length l)%nat) as [Hlt|Hge].
    + rewrite lookup_app_l in Hi by lia. rewrite lookup_app_l in Hi' by lia.
      by eapply Hadj.
    + assert (Hi2 : S i = length l).
      { apply lookup_lt_Some in Hi'. rewrite length_app in Hi'. simpl in Hi'. lia. }
      rewrite lookup_app_l in Hi by lia.
      rewrite Hi2, lookup_app_r in Hi' by lia.
      rewrite Nat.sub_diag in Hi'. injection Hi' as <-.
      rewrite last_lookup in Hlast.
      replace (pred (length l)) with i in Hlast by lia.
      assert (a = u) by congruence. subst a.
      destruct Hs as (Hn & t & Ht & Htr & _). split; [exact Hn|]. by exists t.
Qed.

Lemma walk_length map mt (Hwf : wellFormedMap map) s l v c :
  walk map mt s l v c -> Z.of_nat (length l) - 1 <= c.
Proof.
  induction 1 as [|l u v c w Hw IH Hs]; [simpl; lia|].
  pose proof (step_cost_pos map mt Hwf _ _ _ Hs).
  rewrite length_app. simpl. lia.
Qed.

(** X13. [findPath] with a cap on the movement points, on a well-formed
    map, always returns.  To the start itself it answers the empty path
    at cost 0.  To another target it answers a path exactly when some
    route costs no more than the cap; the cost it reports is then the
    least cost of any route, and its path is a walk from the start to the
    target at that cost.  It answers null exactly when every route costs
    more than the cap. *)
Theorem findPath_within_cap (map : GameMap) (mt : MovementType.t)
    (startPos endPos : GridPosition) (maxMovementPoints : Z) :
  wellFormedMap map ->
  exists r,
    findPath map mt startPos endPos (Some maxMovementPoints) = Returned r /\
    match r with
    | Some found =>
        leastCost map mt startPos endPos (cost found) /\
        (startPos = endPos -> path found = [] /\ cost found = 0) /\
        (startPos <> endPos ->
           cost found <= maxMovementPoints /\
           walk map mt startPos (path found) endPos (cost found))
    | None =>
        startPos <> endPos /\
        forall c, route map mt startPos endPos c -> maxMovementPoints < c
    end.
Proof.
  intros Hwf.
  destruct (findPath_capped map mt Hwf startPos endPos maxMovementPoints)
    as ([found|] & Heq & Hans); simpl in Hans.
  - exists (Some found). split; [exact Heq|].
    destruct Hans as [Hleast [(Hwalk & Hle & Hne)|(Hse & Hnil & Hz)]].
    + split; [exact Hleast|]. split; [done | done].
    + split; [exact Hleast|]. split; [done | done].
  - exists None. split; [exact Heq | exact Hans].
Qed.

Lemma findPath_within_cap_witness :
  wellFormedMap sampleMap /\
  exists r,
    findPath sampleMap MovementType.GROUND (mkPos 0 0) (mkPos 2 2) (Some 3)
      = Returned r.
Proof.
  split; [exact sampleMap_wellFormed|].
  destruct (findPath_within_cap sampleMap MovementType.GROUND
              (mkPos 0 0) (mkPos 2 2) 3 sampleMap_wellFormed) as (r & Hr & _).
  by exists r.
Defined.

(** X14. The shape of a path that [findPath] returns to a target other
    than the start, with or without a cap: it begins at the start and
    ends at the target, every position after the first is a neighbour of
    the one before with a tile the movement type may enter, the reported
    cost is the sum of the prices of entering the positions after the
    first, the number of moves is at most that cost, and the cost is
    within the cap when there is one. *)
Theorem findPath_path_shape (map : GameMap) (mt : MovementType.t)
    (startPos endPos : GridPosition) (maxMovementPoints : option Z)
    (found : Path) :
  wellFormedMap map ->
  startPos <> endPos ->
  findPath map mt startPos endPos maxMovementPoints = Returned (Some found) ->
  head (path found) = Some startPos /\
  last (path found) = Some endPos /\
  (forall i u v, path found !! i = Some u -> path found !! S i = Some v ->
     legalMove map mt u v) /\
  cost found = pathCost map mt (path found) /\
  Z.of_nat (length (path found)) - 1 <= cost found /\
  (forall limit, maxMovementPoints = Some limit -> cost found <= limit).
Proof.
  intros Hwf Hne Heq.
  assert (Hwalk : walk map mt startPos (path found) endPos (cost found) /\
                  forall limit, maxMovementPoints = Some limit -> cost found <= limit).
  { destruct maxMovementPoints as [limit|].
    - destruct (findPath_capped map mt Hwf startPos endPos limit) as (r & Hr & Hans).
      rewrite Heq in Hr. injection Hr as <-. simpl in Hans.
      destruct Hans as [_ [(Hwalk & Hle & _)|(Hse & _)]]; [|done].
      split; [exact Hwalk|]. by intros ? [= <-].
    - destruct (findPath_correct map mt Hwf startPos endPos) as (r & Hr & Hans).
      rewrite Heq in Hr. injection Hr as <-. simpl in Hans.
      destruct Hans as [_ [Hwalk|(Hse & _)]]; [|done].
      split; [exact Hwalk | discriminate]. }
  destruct Hwalk as [Hwalk Hcap].
  destruct (walk_shape _ _ _ _ _ _ Hwalk) as (Hhd & Hlast & Hcost & Hadj).
  split; [exact Hhd|]. split; [exact Hlast|]. split; [exact Hadj|].
  split; [exact Hcost|]. split; [by eapply walk_length | exact Hcap].
Qed.

Lemma findPath_path_shape_witness :
  exists found,
    findPath sampleMap MovementType.GROUND (mkPos 0 0) (mkPos 2 2) (Some 4)
      = Returned (Some found) /\
    head (path found) = Some (mkPos 0 0) /\
    last (path found) = Some (mkPos 2 2) /\
    cost found <= 4.
Proof.
  destruct (findPath sampleMap MovementType.GROUND (mkPos 0 0) (mkPos 2 2) (Some 4))
    as [[found|]| |] eqn:Heq; try (vm_compute in Heq; discriminate).
  exists found. split; [reflexivity|].
  destruct (findPath_path_shape sampleMap MovementType.GROUND (mkPos 0 0) (mkPos 2 2)
              (Some 4) found sampleMap_wellFormed ltac:(discriminate) Heq)
    as (Hhd & Hlast & _ & _ & _ & Hcap).
  split; [exact Hhd|]. split; [exact Hlast|]. by apply Hcap.
Defined.

(** ** Pathfinding: the table of [findMovementRange] *)

Lemma findMovementRange_inv map mt (Hwf : wellFormedMap map) s budget :
  exists reachableTiles,
    findMovementRange map mt s budget = Returned reachableTiles /\
    rangeInv map mt s budget everywhere reachableTiles [].
Proof.
  unfold findMovementRange.
  apply (movementRangeLoop_correct map mt Hwf s budget).
  - split.
    + apply lookup_insert_eq.
    + intros k c Hk. apply lookup_insert_Some in Hk as [[<- <-]|[_ Hk]].
      * exists s. split; [reflexivity | constructor].
      * by rewrite lookup_empty in Hk.
    + intros k c Hk. apply lookup_insert_Some in Hk as [[_ <-]|[_ Hk]]; [by right|].
      by rewrite lookup_empty in Hk.
    + intros u [r Hr]. apply list_elem_of_singleton in Hr. injection Hr as -> _.
      rewrite lookup_insert_eq. by eexists.
    + intros u cu Hu. apply lookup_insert_Some in Hu as [[Hk _]|[_ Hu]].
      * apply (inj posToKey) in Hk. subst u. left. exists budget. apply list_elem_of_here.
      * by rewrite lookup_empty in Hu.
  - unfold movementRangeFuel. pose proof (slack_initial map budget s). simpl. lia.
Qed.

(** The entries of the table, in full. *)
Lemma findMovementRange_entries map mt (Hwf : wellFormedMap map) s budget :
  exists reachableTiles,
    findMovementRange map mt s budget = Returned reachableTiles /\
    reachableTiles !! posToKey s = Some 0 /\
    (forall k c, reachableTiles !! k = Some c ->
       exists p, k = posToKey p /\ leastCost map mt s p c /\
                 (c <= budget \/ (p = s /\ c = 0))) /\
    (forall p c, leastCost map mt s p c -> c <= budget ->
       reachableTiles !! posToKey p = Some c).
Proof.
  destruct (findMovementRange_inv map mt Hwf s budget) as (r & Heq & Hinv).
  exists r. split; [exact Heq|].
  destruct (rangeInv_final map mt Hwf s budget r Hinv) as [Hcomplete Hleast].
  split; [apply Hinv|]. split.
  - intros k c Hk. destruct (rng_route _ _ _ _ _ _ _ Hinv _ _ Hk) as (p & -> & Hr).
    exists p. split; [reflexivity|]. split; [by apply Hleast|].
    destruct (rng_budget _ _ _ _ _ _ _ Hinv _ _ Hk) as [?| ->]; [by left|].
    destruct (route_zero map mt Hwf _ _ _ Hr) as [-> _]; [lia|]. by right.
  - intros p c [Hr Hmin] Hle.
    destruct (Hcomplete p c Hr Hle) as (c' & Hc' & Hle').
    destruct (Hleast p c' Hc') as [Hr' _]. specialize (Hmin c' Hr').
    assert (c' = c) by lia. by subst c'.
Qed.

(** X15. The table of [findMovementRange] on a well-formed map: the start
    is recorded at cost 0 whatever the budget; every key of the table is
    the key of a position, recorded at the least cost of a route to it,
    and that cost is between 0 and the budget (but for the start under a
    negative budget); every position whose least cost fits the budget is
    recorded.  With a budget of 0 or less the table holds the start and
    nothing else. *)
Theorem findMovementRange_table (map : GameMap) (mt : MovementType.t)
    (position : GridPosition) (movementPoints : Z) :
  wellFormedMap map ->
  exists reachableTiles,
    findMovementRange map mt position movementPoints = Returned reachableTiles /\
    reachableTiles !! posToKey position = Some 0 /\
    (forall k c, reachableTiles !! k = Some c ->
       exists p, k = posToKey p /\ (p = position \/ inBounds map p) /\
                 leastCost map mt position p c /\ 0 <= c /\
                 (c <= movementPoints \/ p = position)) /\
    (forall p c, leastCost map mt position p c -> c <= movementPoints ->
       reachableTiles !! posToKey p = Some c) /\
    (movementPoints <= 0 -> reachableTiles = {[ posToKey position := 0 ]}).
Proof.
  intros Hwf.
  destruct (findMovementRange_entries map mt Hwf position movementPoints)
    as (r & Heq & Hstart & Hentries & Hcomplete).
  exists r. split; [exact Heq|]. split; [exact Hstart|].
  split; [|split; [exact Hcomplete|]].
  - intros k c Hk. destruct (Hentries k c Hk) as (p & -> & Hleast & Hc).
    exists p. split; [reflexivity|].
    split; [by eapply route_cell, Hleast|]. split; [exact Hleast|].
    split; [by eapply route_nonneg, Hleast|]. tauto.
  - intros Hb. apply map_eq. intros k.
    destruct (decide (k = posToKey position)) as [->|Hk].
    + by rewrite Hstart, lookup_singleton_eq.
    + rewrite lookup_singleton_ne by done.
      destruct (r !! k) as [c|] eqn:Hc; [|reflexivity].
      destruct (Hentries k c Hc) as (p & -> & [Hr _] & Hcb).
      destruct (route_zero map mt Hwf _ _ _ Hr) as [-> _]; [lia|]. done.
Qed.

Lemma findMovementRange_table_witness :
  wellFormedMap sampleMap /\
  exists reachableTiles,
    findMovementRange sampleMap MovementType.GROUND (mkPos 0 0) 0
      = Returned reachableTiles /\
    reachableTiles = {[ posToKey (mkPos 0 0) := 0 ]}.
Proof.
  split; [exact sampleMap_wellFormed|].
  destruct (findMovementRange_table sampleMap MovementType.GROUND (mkPos 0 0) 0
              sampleMap_wellFormed) as (r & Heq & _ & _ & _ & Hzero).
  exists r. split; [exact Heq|]. apply Hzero. lia.
Defined.

(** X16. A smaller budget gives the same table cut down: for budgets
    0 <= b1 <= b2, the table for b1 holds exactly the entries of the
    table for b2 whose cost is at most b1, at the same costs. *)
Theorem findMovementRange_budget_monotone (map : GameMap) (mt : MovementType.t)
    (position : GridPosition) (b1 b2 : Z) :
  wellFormedMap map ->
  0 <= b1 <= b2 ->
  exists table1 table2,
    findMovementRange map mt position b1 = Returned table1 /\
    findMovementRange map mt position b2 = Returned table2 /\
    table1 = filter (fun entry => entry.2 <= b1) table2.
Proof.
  intros Hwf Hb.
  destruct (findMovementRange_entries map mt Hwf position b1)
    as (t1 & Heq1 & Hs1 & He1 & Hc1).
  destruct (findMovementRange_entries map mt Hwf position b2)
    as (t2 & Heq2 & Hs2 & He2 & Hc2).
  exists t1, t2. split; [exact Heq1|]. split; [exact Heq2|].
  apply map_eq. intros k.
  destruct (t1 !! k) as [c|] eqn:Hk1.
  - symmetry. apply map_lookup_filter_Some.
    destruct (He1 k c Hk1) as (p & -> & Hleast & Hc).
    assert (c <= b1) by lia.
    split; [apply Hc2; [exact Hleast | lia] | done].
  - symmetry. apply map_lookup_filter_None.
    destruct (t2 !! k) as [c|] eqn:Hk2; [|by left]. right.
    intros c' [= <-] Hle. simpl in Hle.
    destruct (He2 k c Hk2) as (p & -> & Hleast & _).
    rewrite (Hc1 p c Hleast Hle) in Hk1. discriminate.
Qed.

Lemma findMovementRange_budget_monotone_witness :
  exists table1 table2,
    findMovementRange sampleMap MovementType.GROUND (mkPos 0 0) 2 = Returned table1 /\
    findMovementRange sampleMap MovementType.GROUND (mkPos 0 0) 4 = Returned table2 /\
    table1 = filter (fun entry => entry.2 <= 2) table2.
Proof.
  apply (findMovementRange_budget_monotone sampleMap MovementType.GROUND
           (mkPos 0 0) 2 4 sampleMap_wellFormed).
  lia.
Defined.

(** X17. The movement range and the capped search agree: with the same
    movement points as budget and as cap, a position other than the
    start is in the table of [findMovementRange] exactly when [findPath]
    finds a path to it, and the cost recorded in the table is the cost of
    that path. *)
Theorem movement_range_matches_capped_findPath (map : GameMap)
    (mt : MovementType.t) (position : GridPosition) (movementPoints : Z) :
  wellFormedMap map ->
  exists reachableTiles,
    findMovementRange map mt position movementPoints = Returned reachableTiles /\
    forall target, target <> position ->
      exists r,
        findPath map mt position target (Some movementPoints) = Returned r /\
        reachableTiles !! posToKey target = cost <$> r.
Proof.
  intros Hwf.
  destruct (findMovementRange_entries map mt Hwf position movementPoints)
    as (t & Heq & Hs & He & Hc).
  exists t. split; [exact Heq|]. intros target Hne.
  destruct (findPath_capped map mt Hwf position target movementPoints)
    as ([found|] & Hr & Hans); simpl in Hans.
  - exists (Some found). split; [exact Hr|]. simpl.
    destruct Hans as [Hleast [(_ & Hle & _)|(Hse & _)]]; [|congruence].
    by apply Hc.
  - exists None. split; [exact Hr|]. simpl.
    destruct Hans as [_ Hfar].
    destruct (t !! posToKey target) as [c|] eqn:Hk; [|reflexivity].
    destruct (He _ c Hk) as (p & Hp & [Hroute _] & Hcb).
    apply (inj posToKey) in Hp. subst p.
    specialize (Hfar c Hroute). destruct Hcb as [?|[? _]]; [lia | congruence].
Qed.

Lemma movement_range_matches_capped_findPath_witness :
  wellFormedMap sampleMap /\
  exists reachableTiles r,
    findMovementRange sampleMap MovementType.GROUND (mkPos 0 0) 4
      = Returned reachableTiles /\
    findPath sampleMap MovementType.GROUND (mkPos 0 0) (mkPos 2 2) (Some 4)
      = Returned r /\
    reachableTiles !! posToKey (mkPos 2 2) = cost <$> r.
Proof.
  split; [exact sampleMap_wellFormed|].
  destruct (movement_range_matches_capped_findPath sampleMap MovementType.GROUND
              (mkPos 0 0) 4 sampleMap_wellFormed) as (t & Heq & Hall).
  destruct (Hall (mkPos 2 2) ltac:(discriminate)) as (r & Hr & Hk).
  by exists t, r.
Defined.

(** ** Supply routes *)

Lemma orderedPairs_elem {A} (l : list A) (a b : A) :
  (a, b) ∈ SupplySystem.orderedPairs l ->
  exists i j, (i < j)%nat /\ l !! i = Some a /\ l !! j = Some b.
Proof.
  induction l as [|a0 l IH]; simpl; [intros H; by apply elem_of_nil in H|].
  intros [Hin|Hin]%elem_of_app.
  - apply list_elem_of_In, in_map_iff in Hin as (b' & [= <- <-] & Hb).
    apply list_elem_of_In, list_elem_of_lookup in Hb as [j Hj].
    exists 0%nat, (S j). split; [lia|]. split; [reflexivity | exact Hj].
  - destruct (IH Hin) as (i & j & Hlt & Hi & Hj).
    exists (S i), (S j). split; [lia|]. split; [exact Hi | exact Hj].
Qed.

Lemma orderedPairs_complete {A} (l : list A) (i j : nat) (a b : A) :
  (i < j)%nat -> l !! i = Some a -> l !! j = Some b ->
  (a, b) ∈ SupplySystem.orderedPairs l.
Proof.
  revert i j. induction l as [|a0 l IH]; intros i j Hlt Hi Hj; [discriminate|].
  simpl. apply elem_of_app. destruct i as [|i].
  - left. injection Hi as ->. destruct j as [|j]; [lia|]. simpl in Hj.
    apply list_elem_of_In, in_map_iff. exists b. split; [reflexivity|].
    apply list_elem_of_In, list_elem_of_lookup. by exists j.
  - right. destruct j as [|j]; [lia|]. apply (IH i j); [lia | exact Hi | exact Hj].
Qed.

Lemma orderedPairs_length {A} (l : list A) :
  (2 * length (SupplySystem.orderedPairs l) = length l * (length l - 1))%nat.
Proof.
  induction l as [|a l IH]; [reflexivity|].
  simpl. rewrite length_app, length_map. nia.
Qed.

Lemma addRoute_fold map (Hwf : wellFormedMap map) pairs :
  forall acc,
  exists new,
    foldl (SupplySystem.addRoute map) (Returned acc) pairs = Returned (acc ++ new) /\
    (length new <= length pairs)%nat /\
    Forall (fun r => exists pair, pair ∈ pairs /\ routeBetween map pair r) new /\
    (forall pair c, pair ∈ pairs ->
       route map MovementType.GROUND
         (SupplySystem.basePosition pair.1) (SupplySystem.basePosition pair.2) c ->
       exists r, r ∈ new /\ routeBetween map pair r).
Proof.
  induction pairs as [|pair pairs IH]; intros acc.
  - exists []. rewrite app_nil_r. split; [reflexivity|]. split; [reflexivity|].
    split; [constructor|]. intros pair c Hin. by apply elem_of_nil in Hin.
  - cbn [foldl]. unfold SupplySystem.addRoute at 2.
    destruct (findPath_correct map MovementType.GROUND Hwf
                (SupplySystem.basePosition pair.1) (SupplySystem.basePosition pair.2))
      as (r & Hr & Hans).
    rewrite Hr. destruct r as [found|]; simpl in Hans.
    + destruct (IH (acc ++ [ {| SupplySystem.routeStart := pair.1;
                                SupplySystem.routeEnd := SupplySystem.basePosition pair.2;
                                SupplySystem.routePath := PathFinder.path found;
                                SupplySystem.routeCost := PathFinder.cost found;
                                SupplySystem.routeType := SupplySystem.BOTH |} ]))
        as (new & Heq & Hlen & Hall & Hcomplete).
      eexists (_ :: new). split; [rewrite Heq; by rewrite <- app_assoc|].
      split; [simpl; lia|].
      assert (Hthis : routeBetween map pair
                {| SupplySystem.routeStart := pair.1;
                   SupplySystem.routeEnd := SupplySystem.basePosition pair.2;
                   SupplySystem.routePath := PathFinder.path found;
                   SupplySystem.routeCost := PathFinder.cost found;
                   SupplySystem.routeType := SupplySystem.BOTH |}).
      { destruct Hans as [Hleast Hwalk].
        split; [reflexivity|]. split; [reflexivity|]. split; [reflexivity|].
        split; [exact Hleast | exact Hwalk]. }
      split.
      * constructor; [exists pair; split; [apply list_elem_of_here | exact Hthis]|].
        eapply Forall_impl; [exact Hall|]. intros r (pr & Hpr & Hb).
        exists pr. split; [by apply list_elem_of_further | exact Hb].
      * intros pr c [->|Hin]%elem_of_cons Hroute.
        -- eexists. split; [apply list_elem_of_here | exact Hthis].
        -- destruct (Hcomplete pr c Hin Hroute) as (r & Hrin & Hb).
           exists r. split; [by apply list_elem_of_further | exact Hb].
    + destruct (IH acc) as (new & Heq & Hlen & Hall & Hcomplete).
      exists new. split; [exact Heq|]. split; [simpl; lia|]. split.
      * eapply Forall_impl; [exact Hall|]. intros r (pr & Hpr & Hb).
        exists pr. split; [by apply list_elem_of_further | exact Hb].
      * intros pr c [->|Hin]%elem_of_cons Hroute; [destruct (Hans c Hroute)|].
        by apply (Hcomplete pr c).
Qed.

(** X18. [calculateSupplyRoutes] on a well-formed map returns, for the
    bases of the faction in their order, one route for every pair of an
    earlier and a later base that a ground route connects, and nothing
    else: each route starts at the earlier base, ends at the position of
    the later one, reports the least ground cost between the two and a
    path that walks from one to the other at that cost (the empty path
    when both stand on the same position).  So n bases give at most
    n (n - 1) / 2 routes. *)
Theorem calculateSupplyRoutes_spec (ss : SupplySystem.t) (map : GameMap)
    (f : Faction.t) :
  wellFormedMap map ->
  let factionalBases := SupplySystem.getBasesByFaction ss f in
  exists routes,
    SupplySystem.calculateSupplyRoutes ss map f = Returned routes /\
    (2 * length routes <= length factionalBases * (length factionalBases - 1))%nat /\
    (forall r, r ∈ routes ->
       exists i j start finish,
         (i < j)%nat /\ factionalBases !! i = Some start /\
         factionalBases !! j = Some finish /\
         routeBetween map (start, finish) r) /\
    (forall i j start finish c,
       (i < j)%nat -> factionalBases !! i = Some start ->
       factionalBases !! j = Some finish ->
       route map MovementType.GROUND
         (SupplySystem.basePosition start) (SupplySystem.basePosition finish) c ->
       exists r, r ∈ routes /\ routeBetween map (start, finish) r).
Proof.
  intros Hwf factionalBases. unfold SupplySystem.calculateSupplyRoutes.
  fold factionalBases.
  destruct (addRoute_fold map Hwf (SupplySystem.orderedPairs factionalBases) [])
    as (routes & Heq & Hlen & Hall & Hcomplete).
  exists routes. split; [exact Heq|]. split.
  { pose proof (orderedPairs_length factionalBases). lia. }
  split.
  - intros r Hr. rewrite Forall_forall in Hall.
    destruct (Hall r Hr) as ([start finish] & Hin & Hb).
    destruct (orderedPairs_elem _ _ _ Hin) as (i & j & Hlt & Hi & Hj).
    by exists i, j, start, finish.
  - intros i j start finish c Hlt Hi Hj Hroute.
    apply (Hcomplete (start, finish) c); [|exact Hroute].
    by eapply orderedPairs_complete.
Qed.

Lemma calculateSupplyRoutes_spec_witness :
  wellFormedMap sampleMap /\
  exists routes,
    SupplySystem.calculateSupplyRoutes (SupplySystem.new sampleMap) sampleMap
      Faction.NEUTRAL = Returned routes /\
    (2 * length routes <= 3 * 2)%nat.
Proof.
  split; [exact sampleMap_wellFormed|].
  destruct (calculateSupplyRoutes_spec (SupplySystem.new sampleMap) sampleMap
              Faction.NEUTRAL sampleMap_wellFormed) as (routes & Heq & Hlen & _).
  exists routes. split; [exact Heq | exact Hlen].
Defined.

(** ** Behavior trees: the composite nodes *)

Section Trees.
Context {Leaf : Type}.
Variable executeLeaf : Leaf -> NodeState.t * Leaf.
Variable leafState : Leaf -> NodeState.t.

Abbreviation BehaviorNode := (@BehaviorTree.BehaviorNode Leaf).
Abbreviation execute := (BehaviorTree.execute executeLeaf).

(** The state that executing a node returns. *)
Definition returned (node : BehaviorNode) : NodeState.t := (execute node).1.

(** The node as its execution leaves it. *)
Definition executed (node : BehaviorNode) : BehaviorNode := (execute node).2.

Lemma BehaviorNode_induction (P : BehaviorNode -> Prop) :
  (forall children s, Forall P children -> P (BehaviorTree.SelectorNode children s)) ->
  (forall children s, Forall P children -> P (BehaviorTree.SequenceNode children s)) ->
  (forall child s, P child -> P (BehaviorTree.InverterNode child s)) ->
  (forall children r s, Forall P children ->
     P (BehaviorTree.ParallelNode children r s)) ->
  (forall leaf, P (BehaviorTree.LeafNode leaf)) ->
  forall node, P node.
Proof.
  intros Hsel Hseq Hinv Hpar Hleaf. fix IH 1.
  intros [children s|children s|child s|children r s|leaf].
  - apply Hsel. induction children as [|c cs IHcs]; constructor; [apply IH | exact IHcs].
  - apply Hseq. induction children as [|c cs IHcs]; constructor; [apply IH | exact IHcs].
  - apply Hinv, IH.
  - apply Hpar. induction children as [|c cs IHcs]; constructor; [apply IH | exact IHcs].
  - apply Hleaf.
Qed.

Lemma runSelector_cons child rest :
  BehaviorTree.runSelector execute (child :: rest) =
    if bool_decide (returned child <> NodeState.FAILURE)
    then (returned child, executed child :: rest)
    else ((BehaviorTree.runSelector execute rest).1,
          executed child :: (BehaviorTree.runSelector execute rest).2).
Proof.
  unfold returned, executed. cbn [BehaviorTree.runSelector].
  destruct (execute child) as [st c']. cbn [fst snd].
  destruct (bool_decide _); [reflexivity|].
  by destruct (BehaviorTree.runSelector execute rest).
Qed.

Lemma runSequence_cons child rest :
  BehaviorTree.runSequence execute (child :: rest) =
    if bool_decide (returned child <> NodeState.SUCCESS)
    then (returned child, executed child :: rest)
    else ((BehaviorTree.runSequence execute rest).1,
          executed child :: (BehaviorTree.runSequence execute rest).2).
Proof.
  unfold returned, executed. cbn [BehaviorTree.runSequence].
  destruct (execute child) as [st c']. cbn [fst snd].
  destruct (bool_decide _); [reflexivity|].
  by destruct (BehaviorTree.runSequence execute rest).
Qed.

Lemma runParallel_cons child rest count :
  BehaviorTree.runParallel execute (child :: rest) count =
    match returned child with
    | NodeState.SUCCESS =>
        ((BehaviorTree.runParallel execute rest (count + 1)).1,
         executed child :: (BehaviorTree.runParallel execute rest (count + 1)).2)
    | NodeState.RUNNING => (None, executed child :: rest)
    | NodeState.FAILURE =>
        ((BehaviorTree.runParallel execute rest count).1,
         executed child :: (BehaviorTree.runParallel execute rest count).2)
    end.
Proof.
  unfold returned, executed. cbn [BehaviorTree.runParallel].
  destruct (execute child) as [st c']. cbn [fst snd].
  destruct st; try reflexivity;
    by destruct (BehaviorTree.runParallel execute rest _).
Qed.

Lemma returned_selector children s :
  returned (BehaviorTree.SelectorNode children s)
  = (BehaviorTree.runSelector execute children).1.
Proof.
  unfold returned. cbn [BehaviorTree.execute].
  by destruct (BehaviorTree.runSelector _ children).
Qed.

Lemma returned_sequence children s :
  returned (BehaviorTree.SequenceNode children s)
  = (BehaviorTree.runSequence execute children).1.
Proof.
  unfold returned. cbn [BehaviorTree.execute].
  by destruct (BehaviorTree.runSequence _ children).
Qed.

Lemma returned_inverter child s :
  returned (BehaviorTree.InverterNode child s)
  = match returned child with
    | NodeState.SUCCESS => NodeState.FAILURE
    | NodeState.FAILURE => NodeState.SUCCESS
    | NodeState.RUNNING => NodeState.RUNNING
    end.
Proof.
  unfold returned. cbn [BehaviorTree.execute].
  by destruct (execute child) as [[] ?].
Qed.

Lemma returned_parallel children r s :
  returned (BehaviorTree.ParallelNode children r s)
  = match (BehaviorTree.runParallel execute children 0).1 with
    | None => NodeState.RUNNING
    | Some successCount =>
        if r <=? successCount then NodeState.SUCCESS else NodeState.FAILURE
    end.
Proof.
  unfold returned. cbn [BehaviorTree.execute].
  by destruct (BehaviorTree.runParallel _ children 0) as [[?|] ?].
Qed.

(** The first state in a list that differs from [skip], or [skip] when
    there is none. *)
Definition firstOther (skip : NodeState.t) (states : list NodeState.t)
  : NodeState.t :=
  default skip (head (filter (fun s => s <> skip) states)).

Lemma runSelector_state children :
  (BehaviorTree.runSelector execute children).1
  = firstOther NodeState.FAILURE (returned <$> children).
Proof.
  induction children as [|c cs IH]; [reflexivity|].
  rewrite runSelector_cons, fmap_cons. unfold firstOther.
  rewrite filter_cons. case_bool_decide as Hc.
  - rewrite decide_True by exact Hc. reflexivity.
  - rewrite decide_False by (intros H; apply H, Hc). exact IH.
Qed.

Lemma runSequence_state children :
  (BehaviorTree.runSequence execute children).1
  = firstOther NodeState.SUCCESS (returned <$> children).
Proof.
  induction children as [|c cs IH]; [reflexivity|].
  rewrite runSequence_cons, fmap_cons. unfold firstOther.
  rewrite filter_cons. case_bool_decide as Hc.
  - rewrite decide_True by exact Hc. reflexivity.
  - rewrite decide_False by (intros H; apply H, Hc). exact IH.
Qed.

(** The children of a composite after a run that child number [k]
    decided: the children up to [k] have been executed, the others are
    as they were. *)
Definition executedUpTo (k : nat) (children : list BehaviorNode)
  : list BehaviorNode :=
  (executed <$> take (S k) children) ++ drop (S k) children.

Lemma runSelector_children children :
  (BehaviorTree.runSelector execute children).2
  = match list_find (fun c => returned c <> NodeState.FAILURE) children with
    | Some (k, _) => executedUpTo k children
    | None => executed <$> children
    end.
Proof.
  induction children as [|c cs IH]; [reflexivity|].
  rewrite runSelector_cons. cbn [list_find]. case_bool_decide as Hc.
  - rewrite decide_True by exact Hc. cbn [fst snd].
    unfold executedUpTo. cbn [take drop fmap list_fmap]. by rewrite take_0.
  - rewrite decide_False by (intros H; apply H, Hc). cbn [fst snd]. rewrite IH.
    destruct (list_find _ cs) as [[k c']|]; [|reflexivity].
    reflexivity.
Qed.

Lemma runSequence_children children :
  (BehaviorTree.runSequence execute children).2
  = match list_find (fun c => returned c <> NodeState.SUCCESS) children with
    | Some (k, _) => executedUpTo k children
    | None => executed <$> children
    end.
Proof.
  induction children as [|c cs IH]; [reflexivity|].
  rewrite runSequence_cons. cbn [list_find]. case_bool_decide as Hc.
  - rewrite decide_True by exact Hc. cbn [fst snd].
    unfold executedUpTo. cbn [take drop fmap list_fmap]. by rewrite take_0.
  - rewrite decide_False by (intros H; apply H, Hc). cbn [fst snd]. rewrite IH.
    destruct (list_find _ cs) as [[k c']|]; [|reflexivity].
    reflexivity.
Qed.

Lemma firstOther_skip skip states :
  firstOther skip states = skip <-> Forall (fun s => s = skip) states.
Proof.
  unfold firstOther. induction states as [|s states IH]; [by split|].
  rewrite filter_cons. case_decide as Hs.
  - simpl. split; [congruence|]. intros H. by apply Forall_cons in H as [? _].
  - rewrite IH. split.
    + intros H. by constructor.
    + intros H. by apply Forall_cons in H as [_ ?].
Qed.

(** X19. A selector returns the state of its first child that does not
    fail, and failure when all fail or there is none; a sequence returns
    the state of its first child that does not succeed, and success when
    all succeed or there is none.  Either stops at that child: the
    children up to it have been executed, the ones after it are as they
    were. *)
Theorem selector_sequence_semantics (children : list BehaviorNode)
    (s : NodeState.t) :
  let selector := BehaviorTree.SelectorNode children s in
  let sequence := BehaviorTree.SequenceNode children s in
  returned selector = firstOther NodeState.FAILURE (returned <$> children) /\
  returned sequence = firstOther NodeState.SUCCESS (returned <$> children) /\
  (returned selector = NodeState.FAILURE <->
     Forall (fun c => returned c = NodeState.FAILURE) children) /\
  (returned sequence = NodeState.SUCCESS <->
     Forall (fun c => returned c = NodeState.SUCCESS) children) /\
  executed selector =
    BehaviorTree.SelectorNode
      match list_find (fun c => returned c <> NodeState.FAILURE) children with
      | Some (k, _) => executedUpTo k children
      | None => executed <$> children
      end
      (returned selector) /\
  executed sequence =
    BehaviorTree.SequenceNode
      match list_find (fun c => returned c <> NodeState.SUCCESS) children with
      | Some (k, _) => executedUpTo k children
      | None => executed <$> children
      end
      (returned sequence).
Proof.
  intros selector sequence.
  assert (Hsel : returned selector
                 = firstOther NodeState.FAILURE (returned <$> children)).
  { unfold selector. by rewrite returned_selector, runSelector_state. }
  assert (Hseq : returned sequence
                 = firstOther NodeState.SUCCESS (returned <$> children)).
  { unfold sequence. by rewrite returned_sequence, runSequence_state. }
  split; [exact Hsel|]. split; [exact Hseq|].
  split; [rewrite Hsel, firstOther_skip; by rewrite Forall_fmap|].
  split; [rewrite Hseq, firstOther_skip; by rewrite Forall_fmap|].
  split.
  - rewrite <- runSelector_children.
    unfold executed, returned, selector. cbn [BehaviorTree.execute].
    by destruct (BehaviorTree.runSelector _ children).
  - rewrite <- runSequence_children.
    unfold executed, returned, sequence. cbn [BehaviorTree.execute].
    by destruct (BehaviorTree.runSequence _ children).
Qed.

(** The state an inverter makes of its child's. *)
Definition inverted (s : NodeState.t) : NodeState.t :=
  match s with
  | NodeState.SUCCESS => NodeState.FAILURE
  | NodeState.FAILURE => NodeState.SUCCESS
  | NodeState.RUNNING => NodeState.RUNNING
  end.

Lemma firstOther_inverted states :
  inverted (firstOther NodeState.FAILURE states)
  = firstOther NodeState.SUCCESS (inverted <$> states) /\
  inverted (firstOther NodeState.SUCCESS states)
  = firstOther NodeState.FAILURE (inverted <$> states).
Proof.
  unfold firstOther. induction states as [|s states [IH1 IH2]]; [done|].
  rewrite fmap_cons, !filter_cons.
  destruct s; simpl; repeat case_decide; try done.
Qed.

(** X20. Inverter, selector and sequence obey De Morgan's laws on the
    returned state: inverting a selector gives what the sequence of the
    inverted children gives, inverting a sequence gives what the selector
    of the inverted children gives, and inverting twice gives the state
    of the node itself. *)
Theorem inverter_duality (children : list BehaviorNode) (node : BehaviorNode)
    (s1 s2 s3 s4 : NodeState.t) :
  let invert := fun child => BehaviorTree.InverterNode child s1 in
  returned (invert (BehaviorTree.SelectorNode children s2))
    = returned (BehaviorTree.SequenceNode (invert <$> children) s3) /\
  returned (invert (BehaviorTree.SequenceNode children s2))
    = returned (BehaviorTree.SelectorNode (invert <$> children) s3) /\
  returned (BehaviorTree.InverterNode (invert node) s4) = returned node.
Proof.
  intros invert.
  assert (Hmap : returned <$> (invert <$> children)
                 = inverted <$> (returned <$> children)).
  { rewrite <- !list_fmap_compose. apply list_fmap_ext. intros i c _. simpl.
    unfold invert. by rewrite returned_inverter. }
  subst invert. cbv beta in *.
  rewrite !returned_inverter, !returned_selector, !returned_sequence.
  rewrite !runSelector_state, !runSequence_state, Hmap.
  destruct (firstOther_inverted (returned <$> children)) as [H1 H2].
  fold (inverted (firstOther NodeState.FAILURE (returned <$> children))).
  fold (inverted (firstOther NodeState.SUCCESS (returned <$> children))).
  split; [exact H1|]. split; [exact H2|].
  by destruct (returned node).
Qed.

(** The successes among the children. *)
Definition successes (children : list BehaviorNode) : Z :=
  Z.of_nat (length (filter (fun c => returned c = NodeState.SUCCESS) children)).

Lemma runParallel_count children : forall count,
  Forall (fun c => returned c <> NodeState.RUNNING) children ->
  BehaviorTree.runParallel execute children count
  = (Some (count + successes children), executed <$> children).
Proof.
  unfold successes.
  induction children as [|c cs IH]; intros count Hall.
  - simpl. by rewrite Z.add_0_r.
  - apply Forall_cons in Hall as [Hc Hcs].
    rewrite runParallel_cons, filter_cons.
    destruct (returned c) eqn:Hr; [| |done].
    + rewrite decide_True by reflexivity. rewrite (IH _ Hcs). cbn [fst snd].
      rewrite fmap_cons. f_equal. f_equal. simpl length. lia.
    + rewrite decide_False by discriminate. rewrite (IH _ Hcs). cbn [fst snd].
      by rewrite fmap_cons.
Qed.

Section NoRunningLeaf.
Hypothesis leaves_decide :
  forall leaf, (executeLeaf leaf).1 <> NodeState.RUNNING.

Lemma returned_not_running (node : BehaviorNode) :
  returned node <> NodeState.RUNNING.
Proof.
  induction node as [cs s IH|cs s IH|c s IH|cs r s IH|leaf]
    using BehaviorNode_induction.
  - rewrite returned_selector, runSelector_state. unfold firstOther.
    induction IH as [|c cs Hc _ IHcs]; [discriminate|].
    rewrite fmap_cons, filter_cons. case_decide; [exact Hc | exact IHcs].
  - rewrite returned_sequence, runSequence_state. unfold firstOther.
    induction IH as [|c cs Hc _ IHcs]; [discriminate|].
    rewrite fmap_cons, filter_cons. case_decide; [exact Hc | exact IHcs].
  - rewrite returned_inverter. by destruct (returned c).
  - rewrite returned_parallel, (runParallel_count _ _ IH). cbn [fst].
    by destruct (_ <=? _).
  - unfold returned. cbn [BehaviorTree.execute].
    specialize (leaves_decide leaf). by destruct (executeLeaf leaf).
Qed.

End NoRunningLeaf.

Lemma firstOther_decided states :
  Forall (fun s => s <> NodeState.RUNNING) states ->
  let count := Z.of_nat (length (filter (fun s => s = NodeState.SUCCESS) states)) in
  firstOther NodeState.FAILURE states
    = (if decide (1 <= count) then NodeState.SUCCESS else NodeState.FAILURE) /\
  firstOther NodeState.SUCCESS states
    = (if decide (Z.of_nat (length states) <= count)
       then NodeState.SUCCESS else NodeState.FAILURE).
Proof.
  unfold firstOther. induction 1 as [|s states Hs Hall IH]; [done|].
  cbv zeta in *. destruct IH as [IH1 IH2].
  pose proof (length_filter (fun s => s = NodeState.SUCCESS) states) as Hlen.
  destruct s; [| |done]; rewrite !filter_cons.
  - destruct (decide (NodeState.SUCCESS <> NodeState.FAILURE)) as [_|Hn];
      [|by destruct Hn].
    destruct (decide (NodeState.SUCCESS = NodeState.SUCCESS)) as [_|Hn];
      [|by destruct Hn].
    destruct (decide (NodeState.SUCCESS <> NodeState.SUCCESS)) as [Hn|_];
      [by destruct Hn|].
    cbn [head default length]. split; [by rewrite decide_True by lia|].
    rewrite IH2. repeat case_decide; (reflexivity || lia).
  - destruct (decide (NodeState.FAILURE <> NodeState.FAILURE)) as [Hn|_];
      [by destruct Hn|].
    destruct (decide (NodeState.FAILURE = NodeState.SUCCESS)) as [Hn|_];
      [discriminate Hn|].
    destruct (decide (NodeState.FAILURE <> NodeState.SUCCESS)) as [_|Hn];
      [|by destruct Hn].
    cbn [head default length]. split; [exact IH1|]. by rewrite decide_False by lia.
Qed.

Lemma successes_states children :
  successes children
  = Z.of_nat (length (filter (fun s => s = NodeState.SUCCESS) (returned <$> children))).
Proof.
  unfold successes. f_equal.
  induction children as [|c cs IH]; [reflexivity|].
  rewrite fmap_cons, !filter_cons. case_decide; simpl; by rewrite IH.
Qed.

(** X21. When no leaf ever reports running, no tree does.  A parallel
    node then executes all its children and succeeds exactly when at
    least the required number of them succeed; so with requirement 1 it
    returns what the selector of the same children returns, with the
    number of children as requirement what their sequence returns, and
    with a requirement of 0 or less it succeeds even without children. *)
Theorem trees_without_running (node : BehaviorNode)
    (children : list BehaviorNode) (requiredSuccesses : Z) (s : NodeState.t) :
  (forall leaf, (executeLeaf leaf).1 <> NodeState.RUNNING) ->
  let parallel := BehaviorTree.ParallelNode children in
  returned node <> NodeState.RUNNING /\
  returned (parallel requiredSuccesses s) =
    (if decide (requiredSuccesses <= successes children)
     then NodeState.SUCCESS else NodeState.FAILURE) /\
  executed (parallel requiredSuccesses s) =
    BehaviorTree.ParallelNode (executed <$> children) requiredSuccesses
      (returned (parallel requiredSuccesses s)) /\
  returned (parallel 1 s) = returned (BehaviorTree.SelectorNode children s) /\
  returned (parallel (Z.of_nat (length children)) s)
    = returned (BehaviorTree.SequenceNode children s) /\
  (requiredSuccesses <= 0 ->
   returned (parallel requiredSuccesses s) = NodeState.SUCCESS).
Proof.
  intros Hleaves parallel.
  assert (Hall : Forall (fun c => returned c <> NodeState.RUNNING) children).
  { apply Forall_forall. intros c _. by apply returned_not_running. }
  assert (Hpar : forall r,
    returned (parallel r s) =
      (if decide (r <= successes children)
       then NodeState.SUCCESS else NodeState.FAILURE)).
  { intros r. unfold parallel.
    rewrite returned_parallel, (runParallel_count _ _ Hall). cbn [fst].
    rewrite Z.add_0_l. destruct (Z.leb_spec r (successes children));
      [by rewrite decide_True | by rewrite decide_False by lia]. }
  assert (Hstates : Forall (fun s => s <> NodeState.RUNNING) (returned <$> children))
    by (by rewrite Forall_fmap).
  destruct (firstOther_decided _ Hstates) as [Hsel Hseq].
  rewrite <- successes_states in Hsel, Hseq. rewrite length_fmap in Hseq.
  split; [by apply returned_not_running|].
  split; [apply Hpar|]. split.
  { unfold executed, returned, parallel. cbn [BehaviorTree.execute].
    rewrite (runParallel_count _ _ Hall). reflexivity. }
  split; [by rewrite Hpar, returned_selector, runSelector_state, Hsel|].
  split; [by rewrite Hpar, returned_sequence, runSequence_state, Hseq|].
  intros Hr. rewrite Hpar, decide_True; [reflexivity|].
  unfold successes. lia.
Qed.

Section SettledLeaves.
Hypothesis leaf_cached :
  forall leaf, leafState (executeLeaf leaf).2 = (executeLeaf leaf).1.
Hypothesis leaf_settled :
  forall leaf, executeLeaf (executeLeaf leaf).2 = executeLeaf leaf.

Abbreviation settled := (fun node : BehaviorNode => execute (executed node) = execute node).

Lemma settled_returned node :
  settled node -> returned (executed node) = returned node.
Proof.
  cbv beta. intros H. unfold returned at 1. rewrite H. reflexivity.
Qed.

Lemma settled_executed node :
  settled node -> executed (executed node) = executed node.
Proof.
  cbv beta. intros H. unfold executed at 1. rewrite H. reflexivity.
Qed.

Lemma runSelector_settled children :
  Forall settled children ->
  BehaviorTree.runSelector execute (BehaviorTree.runSelector execute children).2
  = BehaviorTree.runSelector execute children.
Proof.
  induction 1 as [|c cs Hc _ IH]; [reflexivity|].
  rewrite runSelector_cons. case_bool_decide as Hr; cbn [fst snd].
  - rewrite runSelector_cons, (settled_returned _ Hc), (settled_executed _ Hc).
    by rewrite bool_decide_eq_true_2.
  - rewrite runSelector_cons, (settled_returned _ Hc), (settled_executed _ Hc).
    rewrite bool_decide_eq_false_2 by (intros H; apply H, Hr). by rewrite IH.
Qed.

Lemma runSequence_settled children :
  Forall settled children ->
  BehaviorTree.runSequence execute (BehaviorTree.runSequence execute children).2
  = BehaviorTree.runSequence execute children.
Proof.
  induction 1 as [|c cs Hc _ IH]; [reflexivity|].
  rewrite runSequence_cons. case_bool_decide as Hr; cbn [fst snd].
  - rewrite runSequence_cons, (settled_returned _ Hc), (settled_executed _ Hc).
    by rewrite bool_decide_eq_true_2.
  - rewrite runSequence_cons, (settled_returned _ Hc), (settled_executed _ Hc).
    rewrite bool_decide_eq_false_2 by (intros H; apply H, Hr). by rewrite IH.
Qed.

Lemma runParallel_settled children :
  Forall settled children -> forall count,
  BehaviorTree.runParallel execute
    (BehaviorTree.runParallel execute children count).2 count
  = BehaviorTree.runParallel execute children count.
Proof.
  induction 1 as [|c cs Hc _ IH]; intros count; [reflexivity|].
  rewrite runParallel_cons. destruct (returned c) eqn:Hr; cbn [fst snd];
    rewrite runParallel_cons, (settled_returned _ Hc), (settled_executed _ Hc), Hr;
    try reflexivity; by rewrite IH.
Qed.

Lemma execute_settled (node : BehaviorNode) : settled node.
Proof.
  induction node as [cs s IH|cs s IH|c s IH|cs r s IH|leaf]
    using BehaviorNode_induction.
  - unfold executed. cbn [BehaviorTree.execute].
    pose proof (runSelector_settled cs IH) as Hrun.
    destruct (BehaviorTree.runSelector execute cs) as [st cs'] eqn:Heq.
    cbn [fst snd] in *. cbn [BehaviorTree.execute]. by rewrite Hrun.
  - unfold executed. cbn [BehaviorTree.execute].
    pose proof (runSequence_settled cs IH) as Hrun.
    destruct (BehaviorTree.runSequence execute cs) as [st cs'] eqn:Heq.
    cbn [fst snd] in *. cbn [BehaviorTree.execute]. by rewrite Hrun.
  - unfold executed in *. cbn [BehaviorTree.execute].
    destruct (execute c) as [st c'] eqn:Heq. cbn [fst snd] in *.
    cbn [BehaviorTree.execute]. by rewrite IH.
  - unfold executed. cbn [BehaviorTree.execute].
    pose proof (runParallel_settled cs IH 0) as Hrun.
    destruct (BehaviorTree.runParallel execute cs 0) as [[n|] cs'] eqn:Heq;
      cbn [fst snd] in *; cbn [BehaviorTree.execute]; by rewrite Hrun.
  - unfold executed. cbn [BehaviorTree.execute].
    pose proof (leaf_settled leaf) as Hl.
    destruct (executeLeaf leaf) as [st leaf'] eqn:Heq. cbn [fst snd] in *.
    cbn [BehaviorTree.execute]. by rewrite Hl.
Qed.

End SettledLeaves.

(** X22. When every leaf caches the state it returns and returns the
    same again when executed again, so does every tree: the [state] of an
    executed node is the state that the execution returned, and
    executing the node once more returns the same state and leaves the
    node as it is. *)
Theorem execute_caches_and_settles (node : BehaviorNode) :
  (forall leaf, leafState (executeLeaf leaf).2 = (executeLeaf leaf).1) ->
  (forall leaf, executeLeaf (executeLeaf leaf).2 = executeLeaf leaf) ->
  BehaviorTree.state leafState (executed node) = returned node /\
  execute (executed node) = execute node /\
  executed (executed node) = executed node.
Proof.
  intros Hcached Hsettled.
  pose proof (execute_settled Hsettled node) as Hs.
  split; [|split; [exact Hs | by apply settled_executed]].
  unfold executed, returned.
  destruct node as [cs s|cs s|c s|cs r s|leaf]; cbn [BehaviorTree.execute].
  - by destruct (BehaviorTree.runSelector execute cs).
  - by destruct (BehaviorTree.runSequence execute cs).
  - by destruct (execute c).
  - by destruct (BehaviorTree.runParallel execute cs 0) as [[?|] ?].
  - specialize (Hcached leaf). by destruct (executeLeaf leaf).
Qed.

End Trees.

Lemma repositoryLeaf_decides leaf :
  (executeRepositoryLeaf leaf).1 <> NodeState.RUNNING.
Proof.
  destruct leaf as [node|node|node|node]; cbn [executeRepositoryLeaf fst].
  - unfold CheckEnemyByDiplomacyNode.execute. cbn [fst].
    by destruct (0 <? _)%nat.
  - unfold CheckSupplyLevelNode.execute. cbn [fst].
    by match goal with |- (if ?b then _ else _) <> _ => destruct b end.
  - unfold FindNearestSupplyBaseNode.execute.
    by destruct (List.filter _ _).
  - unfold IsEnemyInRangeNode.execute. cbn [fst]. by destruct (existsb _ _).
Qed.

Lemma repositoryLeaf_cached leaf :
  repositoryLeafState (executeRepositoryLeaf leaf).2
  = (executeRepositoryLeaf leaf).1.
Proof.
  destruct leaf as [node|node|node|node];
    cbn [executeRepositoryLeaf fst snd repositoryLeafState]; try reflexivity.
  unfold FindNearestSupplyBaseNode.execute. by destruct (List.filter _ _).
Qed.

Lemma repositoryLeaf_settled leaf :
  executeRepositoryLeaf (executeRepositoryLeaf leaf).2
  = executeRepositoryLeaf leaf.
Proof.
  destruct leaf as [node|node|node|node];
    cbn [executeRepositoryLeaf fst snd]; try reflexivity.
  unfold FindNearestSupplyBaseNode.execute.
  destruct (List.filter _ (FindNearestSupplyBaseNode.supplyBases node))
    as [|first rest] eqn:Hf; cbn [fst snd FindNearestSupplyBaseNode.unit
      FindNearestSupplyBaseNode.supplyBases FindNearestSupplyBaseNode.position
      FindNearestSupplyBaseNode.result]; rewrite Hf; reflexivity.
Qed.

Lemma trees_without_running_witness :
  returned executeRepositoryLeaf
    (BehaviorTree.ParallelNode [sampleTree] 0 NodeState.FAILURE)
  = NodeState.SUCCESS.
Proof.
  destruct (trees_without_running executeRepositoryLeaf sampleTree [sampleTree] 0
              NodeState.FAILURE repositoryLeaf_decides) as (_ & _ & _ & _ & _ & H).
  apply H. lia.
Defined.

Lemma execute_caches_and_settles_witness :
  BehaviorTree.state repositoryLeafState (executed executeRepositoryLeaf sampleTree)
  = returned executeRepositoryLeaf sampleTree.
Proof.
  exact (proj1 (execute_caches_and_settles executeRepositoryLeaf repositoryLeafState
                  sampleTree repositoryLeaf_cached repositoryLeaf_settled)).
Defined.

(** ** Behavior trees: the supply nodes *)

Lemma lessEq_divide current max threshold :
  JsNumber.lessEq (JsNumber.divide current max) (JsNumber.Finite threshold) = true
  <-> lowOn current max threshold.
Proof.
  unfold JsNumber.divide, lowOn.
  destruct (Z.eqb_spec max 0) as [->|Hmax].
  - destruct (Z.ltb_spec 0 current); [|destruct (Z.ltb_spec current 0)]; simpl;
      split; try discriminate; try (intros [[? _]|[_ ?]]; (done || lia)).
    intros _. right. split; [reflexivity | lia].
  - simpl. rewrite Qle_bool_iff. split; [intros H; by left|].
    intros [[_ H]|[? _]]; [exact H | done].
Qed.

(** X23. The supply check succeeds exactly when fuel is checked and the
    ratio of current to maximal fuel is at most the threshold, or
    ammunition is checked and its ratio is; otherwise it fails, so with
    both checks switched off it always fails.  The threshold in force is
    the given one clamped to [0, 1], and 0.2 when none is given.  A unit
    with a maximum of zero counts as low only when its current value is
    negative.  The returned state is the one cached in the node. *)
Theorem checkSupplyLevel_execute (unit : UnitData) (threshold : option Q)
    (checkFuel checkAmmo : option bool) :
  let node := CheckSupplyLevelNode.new unit threshold checkFuel checkAmmo in
  let limit := CheckSupplyLevelNode.threshold node in
  (limit == Qmax 0 (Qmin 1 (default 0.2 threshold)))%Q /\
  (0 <= limit <= 1)%Q /\
  ((CheckSupplyLevelNode.execute node).1 = NodeState.SUCCESS <->
     (default true checkFuel = true /\
      lowOn (fuelCurrent unit) (fuelMax unit) limit) \/
     (default true checkAmmo = true /\
      lowOn (ammunitionCurrent unit) (ammunitionMax unit) limit)) /\
  ((CheckSupplyLevelNode.execute node).1 <> NodeState.SUCCESS ->
   (CheckSupplyLevelNode.execute node).1 = NodeState.FAILURE) /\
  CheckSupplyLevelNode._state (CheckSupplyLevelNode.execute node).2
    = (CheckSupplyLevelNode.execute node).1.
Proof.
  intros node limit.
  split; [reflexivity|]. split.
  { unfold limit, node, CheckSupplyLevelNode.new; simpl. split.
    - apply Q.le_max_l.
    - apply Q.max_lub; [discriminate | apply Q.le_min_l]. }
  pose proof (lessEq_divide (fuelCurrent unit) (fuelMax unit) limit) as Hfuel.
  pose proof (lessEq_divide (ammunitionCurrent unit) (ammunitionMax unit) limit)
    as Hammo.
  unfold CheckSupplyLevelNode.execute. cbn [fst snd CheckSupplyLevelNode._state].
  change (CheckSupplyLevelNode.unit node) with unit.
  change (CheckSupplyLevelNode.checkFuel node) with (default true checkFuel).
  change (CheckSupplyLevelNode.checkAmmo node) with (default true checkAmmo).
  fold limit.
  destruct (default true checkFuel), (default true checkAmmo);
    destruct (JsNumber.lessEq (JsNumber.divide (fuelCurrent unit) (fuelMax unit)) _);
    destruct (JsNumber.lessEq
                (JsNumber.divide (ammunitionCurrent unit) (ammunitionMax unit)) _);
    cbn [negb andb];
    (split; [|split; [by intros; (reflexivity || congruence) | reflexivity]]);
    split; try discriminate; try reflexivity;
    try (intros _; first [left; split; [reflexivity | by apply Hfuel]
                        | right; split; [reflexivity | by apply Hammo]]);
    intros [[Hc Hl]|[Hc Hl]]; try discriminate Hc;
    first [apply Hfuel in Hl; discriminate Hl | apply Hammo in Hl; discriminate Hl].
Qed.

Lemma nearer_fold position rest : forall acc,
  acc.2 = manhattanDistance position acc.1.1 ->
  let found := foldl (FindNearestSupplyBaseNode.nearer position) acc rest in
  found.2 = manhattanDistance position found.1.1 /\
  found.1 ∈ acc.1 :: rest /\
  forall base, base ∈ acc.1 :: rest ->
    found.2 <= manhattanDistance position base.1.
Proof.
  induction rest as [|b rest IH]; intros acc Hacc; cbn [foldl].
  - split; [exact Hacc|]. split; [apply list_elem_of_here|].
    intros base ->%list_elem_of_singleton. lia.
  - set (acc' := FindNearestSupplyBaseNode.nearer position acc b).
    assert (Hacc' : acc'.2 = manhattanDistance position acc'.1.1 /\
                    acc'.1 ∈ [acc.1; b] /\
                    acc'.2 <= acc.2 /\ acc'.2 <= manhattanDistance position b.1).
    { unfold acc', FindNearestSupplyBaseNode.nearer.
      destruct (Z.ltb_spec (manhattanDistance position b.1) acc.2); cbn [fst snd].
      - split; [reflexivity|].
        split; [apply list_elem_of_further, list_elem_of_here | lia].
      - split; [exact Hacc|]. split; [apply list_elem_of_here | lia]. }
    destruct Hacc' as (H1 & H2 & H3 & H4).
    destruct (IH acc' H1) as (Hd & Hin & Hmin). cbv zeta in *.
    split; [exact Hd|]. split.
    + apply elem_of_cons in Hin as [Hin|Hin];
        [|by apply list_elem_of_further, list_elem_of_further].
      rewrite Hin. apply elem_of_cons in H2 as [->|H2]; [apply list_elem_of_here|].
      apply list_elem_of_singleton in H2 as ->.
      apply list_elem_of_further, list_elem_of_here.
    + intros base Hbase.
      pose proof (Hmin acc'.1 (list_elem_of_here _ _)) as Hfirst.
      apply elem_of_cons in Hbase as [->|Hbase]; [lia|].
      apply elem_of_cons in Hbase as [->|Hbase]; [lia|].
      apply Hmin. by apply list_elem_of_further.
Qed.

(** X24. The search for the nearest supply base succeeds exactly when
    the list holds a base of the unit's own faction.  The position it
    then files is that of such a base, and no base of that faction is
    nearer to the unit.  When it fails it files nothing: the result is
    the one the node held before, which is none for a new node. *)
Theorem findNearestSupplyBase_execute (node : FindNearestSupplyBaseNode.t) :
  let friendly := fun base : GridPosition * Faction.t =>
    base ∈ FindNearestSupplyBaseNode.supplyBases node /\
    base.2 = faction (FindNearestSupplyBaseNode.unit node) in
  let r := FindNearestSupplyBaseNode.execute node in
  (r.1 = NodeState.SUCCESS <-> exists base, friendly base) /\
  (r.1 = NodeState.FAILURE <-> ~ exists base, friendly base) /\
  FindNearestSupplyBaseNode._state r.2 = r.1 /\
  match r.1 with
  | NodeState.SUCCESS =>
      exists base,
        FindNearestSupplyBaseNode.getResult r.2 = Some base.1 /\
        friendly base /\
        forall other, friendly other ->
          manhattanDistance (FindNearestSupplyBaseNode.position node) base.1
          <= manhattanDistance (FindNearestSupplyBaseNode.position node) other.1
  | _ =>
      FindNearestSupplyBaseNode.getResult r.2
        = FindNearestSupplyBaseNode.getResult node
  end.
Proof.
  intros friendly r.
  assert (Hfriendly : forall base, friendly base <->
            base ∈ List.filter
                     (fun base => bool_decide
                        (base.2 = faction (FindNearestSupplyBaseNode.unit node)))
                     (FindNearestSupplyBaseNode.supplyBases node)).
  { intros base. unfold friendly. split.
    - intros [Hin Hb]. apply list_elem_of_In, filter_In.
      split; [by apply list_elem_of_In | by apply bool_decide_eq_true].
    - intros H. apply list_elem_of_In, filter_In in H as [Hin Hb].
      split; [by apply list_elem_of_In | by apply bool_decide_eq_true in Hb]. }
  subst r. unfold FindNearestSupplyBaseNode.execute.
  destruct (List.filter _ _) as [|first rest] eqn:Hf; cbn [fst snd].
  - split; [split; [discriminate|]|].
    { intros [base Hb]. apply Hfriendly in Hb. by apply elem_of_nil in Hb. }
    split; [|done]. split; [|reflexivity].
    intros _ [base Hb]. apply Hfriendly in Hb. by apply elem_of_nil in Hb.
  - split; [split; [intros _|reflexivity]|].
    { exists first. apply Hfriendly, list_elem_of_here. }
    split; [split; [discriminate|]|].
    { intros Hno. exfalso. apply Hno. exists first.
      apply Hfriendly, list_elem_of_here. }
    split; [reflexivity|].
    destruct (nearer_fold (FindNearestSupplyBaseNode.position node) rest
                (first, manhattanDistance (FindNearestSupplyBaseNode.position node)
                          first.1) eq_refl) as (Hd & Hin & Hmin).
    cbv zeta in *. cbn [fst snd] in *.
    eexists. split; [reflexivity|]. split; [by apply Hfriendly|].
    intros other Hother. rewrite <- Hd. apply Hmin. by apply Hfriendly.
Qed.

(** ** Utility scoring: attack, retreat, patrol and the decision *)

Lemma Qgtb_true a b : UtilityAI.Qgtb a b = true <-> (b < a)%Q.
Proof.
  unfold UtilityAI.Qgtb. rewrite negb_true_iff. split.
  - intros H. apply Qnot_le_lt. intros Hle. apply Qle_bool_iff in Hle. congruence.
  - intros H. destruct (Qle_bool a b) eqn:Hle; [|reflexivity].
    apply Qle_bool_iff in Hle. exfalso. exact (Qlt_not_le _ _ H Hle).
Qed.

Lemma Qgtb_false a b : UtilityAI.Qgtb a b = false <-> (a <= b)%Q.
Proof.
  unfold UtilityAI.Qgtb. rewrite negb_false_iff. apply Qle_bool_iff.
Qed.

(** A scan that keeps the first candidate with the strictly highest
    score keeps [bestTarget]. *)
Lemma bestTarget_scan (eligible : UnitData * GridPosition -> bool)
    (scoreOf : UnitData * GridPosition -> Q)
    (consider : Q * option UnitData * option GridPosition ->
                UnitData * GridPosition ->
                Q * option UnitData * option GridPosition) :
  (forall acc e, eligible e = true ->
     consider acc e = if UtilityAI.Qgtb (scoreOf e) acc.1.1
                      then (scoreOf e, Some e.1, Some e.2) else acc) ->
  (forall acc e, eligible e = false -> consider acc e = acc) ->
  forall (candidates seen : list (UnitData * GridPosition)) acc,
  bestTarget eligible scoreOf seen acc ->
  bestTarget eligible scoreOf (seen ++ candidates) (foldl consider acc candidates).
Proof.
  intros Hyes Hno candidates.
  induction candidates as [|e rest IH]; intros seen acc Hacc.
  - by rewrite app_nil_r.
  - cbn [foldl]. replace (seen ++ e :: rest) with ((seen ++ [e]) ++ rest)
      by (by rewrite <- app_assoc).
    apply IH. destruct Hacc as [Hmax Hfound].
    destruct (eligible e) eqn:He.
    + rewrite (Hyes acc e He).
      destruct (UtilityAI.Qgtb (scoreOf e) acc.1.1) eqn:Hgt.
      * apply Qgtb_true in Hgt. split.
        -- intros e' [Hin|Hin]%elem_of_app He'; cbn [fst].
           ++ apply Qle_trans with acc.1.1; [by apply Hmax | by apply Qlt_le_weak].
           ++ apply list_elem_of_singleton in Hin as ->. apply Qle_refl.
        -- right. exists e. split; [apply elem_of_app; right; apply list_elem_of_here|].
           split; [exact He|]. split; [reflexivity|].
           destruct Hfound as [->|(e0 & _ & _ & -> & Hpos)]; cbn [fst] in Hgt.
           ++ exact Hgt.
           ++ by apply Qlt_trans with (scoreOf e0).
      * apply Qgtb_false in Hgt. split.
        -- intros e' [Hin|Hin]%elem_of_app He'; [by apply Hmax|].
           by apply list_elem_of_singleton in Hin as ->.
        -- destruct Hfound as [->|(e0 & Hin0 & He0 & -> & Hpos)]; [by left|].
           right. exists e0. split; [apply elem_of_app; by left | done].
    + rewrite (Hno acc e He). split.
      * intros e' [Hin|Hin]%elem_of_app He'; [by apply Hmax|].
        apply list_elem_of_singleton in Hin as ->. congruence.
      * destruct Hfound as [->|(e0 & Hin0 & He0 & -> & Hpos)]; [by left|].
        right. exists e0. split; [apply elem_of_app; by left | done].
Qed.

Lemma evaluateAttack_bestTarget context :
  let r := UtilityAI.evaluateAttack context in
  UtilityAI.action r = AIAction.ATTACK /\
  bestTarget (inAttackRange (UtilityAI.unit context) (UtilityAI.position context))
    (fun e => attackScore (UtilityAI.unit context) e.1)
    (UtilityAI.enemies context)
    (UtilityAI.score r, UtilityAI.targetUnit r, UtilityAI.targetPosition r).
Proof.
  unfold UtilityAI.evaluateAttack.
  pose proof (bestTarget_scan
    (inAttackRange (UtilityAI.unit context) (UtilityAI.position context))
    (fun e => attackScore (UtilityAI.unit context) e.1)
    (UtilityAI.considerAttack (UtilityAI.unit context) (UtilityAI.position context)))
    as Hscan.
  specialize (Hscan
    ltac:(intros [[hs tu] tp] e He; unfold UtilityAI.considerAttack;
          unfold inAttackRange in He; rewrite He; reflexivity)
    ltac:(intros [[hs tu] tp] e He; unfold UtilityAI.considerAttack;
          unfold inAttackRange in He; rewrite He; reflexivity)
    (UtilityAI.enemies context) [] (0%Q, None, None)).
  destruct (foldl _ _ _) as [[hs tu] tp]. cbn [UtilityAI.action UtilityAI.score
    UtilityAI.targetUnit UtilityAI.targetPosition].
  split; [reflexivity|]. apply Hscan. split; [|by left].
  intros e He. by apply elem_of_nil in He.
Qed.

Lemma evaluateMoveToEnemy_bestTarget context :
  let r := UtilityAI.evaluateMoveToEnemy context in
  UtilityAI.action r = AIAction.MOVE_TO_ENEMY /\
  bestTarget (inPursuitBand (UtilityAI.unit context) (UtilityAI.position context))
    (fun e => computedPursuitScore (UtilityAI.unit context)
                (manhattanDistance (UtilityAI.position context) e.2))
    (UtilityAI.enemies context)
    (UtilityAI.score r, UtilityAI.targetUnit r, UtilityAI.targetPosition r).
Proof.
  unfold UtilityAI.evaluateMoveToEnemy.
  destruct (UtilityAI.enemies context) as [|e0 rest] eqn:Hen.
  { simpl. split; [reflexivity|]. split; [|by left].
    intros e He. by apply elem_of_nil in He. }
  pose proof (bestTarget_scan
    (inPursuitBand (UtilityAI.unit context) (UtilityAI.position context))
    (fun e => computedPursuitScore (UtilityAI.unit context)
                (manhattanDistance (UtilityAI.position context) e.2))
    (UtilityAI.considerPursuit (UtilityAI.unit context) (UtilityAI.position context)))
    as Hscan.
  specialize (Hscan
    ltac:(intros [[hs tu] tp] e He; unfold UtilityAI.considerPursuit;
          unfold inPursuitBand in He; rewrite He; reflexivity)
    ltac:(intros [[hs tu] tp] e He; unfold UtilityAI.considerPursuit;
          unfold inPursuitBand in He; rewrite He; reflexivity)
    (e0 :: rest) [] (0%Q, None, None)).
  destruct (foldl _ _ _) as [[hs tu] tp]. cbn [UtilityAI.action UtilityAI.score
    UtilityAI.targetUnit UtilityAI.targetPosition].
  split; [reflexivity|]. apply Hscan. split; [|by left].
  intros e He. by apply elem_of_nil in He.
Qed.

(** X25. [evaluateAttack] considers the enemies within the attack range
    and nobody else.  Its score is never negative and is at least the
    attack score of every enemy in range.  Either it names no target and
    scores 0, or it names an enemy of the list that is within the attack
    range, whose attack score is positive and is the score it reports;
    so it names a target exactly when its score is positive. *)
Theorem evaluateAttack_target (context : UtilityAI.AIContext) :
  let unit := UtilityAI.unit context in
  let position := UtilityAI.position context in
  let r := UtilityAI.evaluateAttack context in
  UtilityAI.action r = AIAction.ATTACK /\
  (0 <= UtilityAI.score r)%Q /\
  (forall e, e ∈ UtilityAI.enemies context ->
     manhattanDistance position e.2 <= attackRange unit ->
     (attackScore unit e.1 <= UtilityAI.score r)%Q) /\
  ((UtilityAI.score r = 0%Q /\
    UtilityAI.targetUnit r = None /\ UtilityAI.targetPosition r = None) \/
   (exists e, e ∈ UtilityAI.enemies context /\
      manhattanDistance position e.2 <= attackRange unit /\
      UtilityAI.targetUnit r = Some e.1 /\
      UtilityAI.targetPosition r = Some e.2 /\
      UtilityAI.score r = attackScore unit e.1 /\
      (0 < UtilityAI.score r)%Q)).
Proof.
  intros unit position r.
  destruct (evaluateAttack_bestTarget context) as [Hact [Hmax Hfound]].
  fold r unit position in Hact, Hmax, Hfound. cbn [fst snd] in Hmax.
  split; [exact Hact|].
  assert (Hcases :
    (UtilityAI.score r = 0%Q /\
     UtilityAI.targetUnit r = None /\ UtilityAI.targetPosition r = None) \/
    (exists e, e ∈ UtilityAI.enemies context /\
       manhattanDistance position e.2 <= attackRange unit /\
       UtilityAI.targetUnit r = Some e.1 /\
       UtilityAI.targetPosition r = Some e.2 /\
       UtilityAI.score r = attackScore unit e.1 /\
       (0 < UtilityAI.score r)%Q)).
  { destruct Hfound as [[= H1 H2 H3]|(e & Hin & He & [= H1 H2 H3] & Hpos)].
    - by left.
    - right. exists e. unfold inAttackRange in He. apply Z.leb_le in He.
      rewrite H1. done. }
  split.
  { destruct Hcases as [(-> & _)|(e & _ & _ & _ & _ & _ & Hpos)];
      [apply Qle_refl | by apply Qlt_le_weak]. }
  split; [|exact Hcases].
  intros e Hin Hd. apply Hmax; [exact Hin|]. by apply Z.leb_le.
Qed.

(** ** Utility scoring: the decision *)

Lemma insertByScore_not_nil r l : UtilityAI.insertByScore r l <> [].
Proof. destruct l; simpl; [|destruct (Qle_bool _ _)]; discriminate. Qed.

Lemma sortByScore_first (l : list UtilityAI.UtilityResult)
    (d : UtilityAI.UtilityResult) :
  l <> [] ->
  let best := hd d (UtilityAI.sortByScore l) in
  exists i,
    l !! i = Some best /\
    (forall e, e ∈ l -> (UtilityAI.score e <= UtilityAI.score best)%Q) /\
    (forall j e, (j < i)%nat -> l !! j = Some e ->
       (UtilityAI.score e < UtilityAI.score best)%Q).
Proof.
  induction l as [|a l IH]; [done|]. intros _. cbn [UtilityAI.sortByScore foldr].
  fold (UtilityAI.sortByScore l).
  destruct l as [|b l'].
  { exists 0%nat. simpl. split; [reflexivity|]. split.
    - intros e ->%list_elem_of_singleton. apply Qle_refl.
    - intros j e Hj. lia. }
  destruct (IH ltac:(discriminate)) as (i & Hi & Hmax & Hbefore).
  set (l := b :: l') in *.
  destruct (UtilityAI.sortByScore l) as [|m sorted] eqn:Hs.
  { exfalso. unfold l in Hs. cbn [UtilityAI.sortByScore foldr] in Hs.
    by apply insertByScore_not_nil in Hs. }
  cbn [hd] in Hi, Hmax, Hbefore. cbn [UtilityAI.insertByScore].
  destruct (Qle_bool (UtilityAI.score m) (UtilityAI.score a)) eqn:Hle; cbn [hd].
  - apply Qle_bool_iff in Hle. exists 0%nat. split; [reflexivity|]. split.
    + intros e [->|He]%elem_of_cons; [apply Qle_refl|].
      apply Qle_trans with (UtilityAI.score m); [by apply Hmax | exact Hle].
    + intros j e Hj. lia.
  - assert (Hlt : (UtilityAI.score a < UtilityAI.score m)%Q).
    { apply Qnot_le_lt. intros H. apply Qle_bool_iff in H. congruence. }
    exists (S i). split; [exact Hi|]. split.
    + intros e [->|He]%elem_of_cons; [by apply Qlt_le_weak | by apply Hmax].
    + intros [|j] e Hj He.
      * injection He as <-. exact Hlt.
      * apply (Hbefore j e); [lia | exact He].
Qed.

(** X26. For a unit with positive maximal health and detection range,
    by which the pursuit score divides: the decision of
    [evaluateBestAction] is one of the five evaluations, and none of them
    scores higher.  Among equal scores the
    earlier of attack, pursuit, retreat, patrol wins.  Since patrol
    always scores 0.2 and idling 0.1, the decision is never to idle and
    its score is at least 0.2.  A decision to attack names an enemy
    within the attack range, and a decision to pursue names an enemy
    beyond the attack range and within the detection range. *)
Theorem evaluateBestAction_decision (map : GameMap)
    (context : UtilityAI.AIContext) (randomX randomY : Q) :
  0 < maxHealth (UtilityAI.unit context) ->
  0 < detectionRange (UtilityAI.unit context) ->
  let unit := UtilityAI.unit context in
  let position := UtilityAI.position context in
  let attack := UtilityAI.evaluateAttack context in
  let pursuit := UtilityAI.evaluateMoveToEnemy context in
  let retreat := UtilityAI.evaluateRetreat map context in
  let patrol := UtilityAI.evaluatePatrol map context randomX randomY in
  let decision := UtilityAI.evaluateBestAction map context randomX randomY in
  (forall e, e ∈ [attack; pursuit; retreat; patrol] ->
     (UtilityAI.score e <= UtilityAI.score decision)%Q) /\
  (0.2 <= UtilityAI.score decision)%Q /\
  match UtilityAI.action decision with
  | AIAction.ATTACK =>
      decision = attack /\
      exists e, e ∈ UtilityAI.enemies context /\
        manhattanDistance position e.2 <= attackRange unit /\
        UtilityAI.targetUnit decision = Some e.1 /\
        UtilityAI.targetPosition decision = Some e.2
  | AIAction.MOVE_TO_ENEMY =>
      decision = pursuit /\
      (UtilityAI.score attack < UtilityAI.score pursuit)%Q /\
      exists e, e ∈ UtilityAI.enemies context /\
        attackRange unit < manhattanDistance position e.2 <= detectionRange unit /\
        UtilityAI.targetUnit decision = Some e.1 /\
        UtilityAI.targetPosition decision = Some e.2
  | AIAction.RETREAT =>
      decision = retreat /\
      (UtilityAI.score attack < UtilityAI.score retreat)%Q /\
      (UtilityAI.score pursuit < UtilityAI.score retreat)%Q
  | AIAction.PATROL =>
      decision = patrol /\
      (UtilityAI.score attack < 0.2)%Q /\
      (UtilityAI.score pursuit < 0.2)%Q /\
      (UtilityAI.score retreat < 0.2)%Q
  | AIAction.IDLE => False
  end.
Proof.
  intros _ _ unit position attack pursuit retreat patrol decision.
  set (idle := UtilityAI.evaluateIdle context).
  destruct (sortByScore_first [attack; pursuit; retreat; patrol; idle] idle
              ltac:(discriminate)) as (i & Hi & Hmax & Hbefore).
  change (hd idle (UtilityAI.sortByScore [attack; pursuit; retreat; patrol; idle]))
    with decision in Hi, Hmax, Hbefore.
  assert (Hpatrol : (0.2 <= UtilityAI.score decision)%Q).
  { apply (Hmax patrol). do 3 apply list_elem_of_further. apply list_elem_of_here. }
  split.
  { intros e He. apply Hmax. apply elem_of_cons in He as [->|He]; [apply list_elem_of_here|].
    apply list_elem_of_further.
    apply elem_of_cons in He as [->|He]; [apply list_elem_of_here|].
    apply list_elem_of_further.
    apply elem_of_cons in He as [->|He]; [apply list_elem_of_here|].
    apply list_elem_of_further.
    apply list_elem_of_singleton in He as ->. apply list_elem_of_here. }
  split; [exact Hpatrol|].
  destruct i as [|[|[|[|[|i]]]]]; cbn in Hi; try discriminate Hi;
    injection Hi as Hi; rewrite <- Hi in *.
  - (* attack *)
    destruct (evaluateAttack_bestTarget context) as [Hact [_ Hfound]].
    fold attack unit position in Hact, Hfound. rewrite Hact.
    split; [reflexivity|].
    destruct Hfound as [[= Hz _ _]|(e & Hin & He & [= H1 H2 H3] & Hpos)].
    + rewrite Hz in Hpatrol. exfalso. revert Hpatrol. vm_compute. intros H. by apply H.
    + exists e. unfold inAttackRange in He. apply Z.leb_le in He. done.
  - (* pursuit *)
    destruct (evaluateMoveToEnemy_bestTarget context) as [Hact [_ Hfound]].
    fold pursuit unit position in Hact, Hfound. rewrite Hact.
    split; [reflexivity|].
    split; [apply (Hbefore 0%nat attack); [lia | reflexivity]|].
    destruct Hfound as [[= Hz _ _]|(e & Hin & He & [= H1 H2 H3] & Hpos)].
    + rewrite Hz in Hpatrol. exfalso. revert Hpatrol. vm_compute. intros H. by apply H.
    + exists e. unfold inPursuitBand in He.
      apply andb_true_iff in He as [Hlo Hhi].
      apply Z.ltb_lt in Hlo. apply Z.leb_le in Hhi. done.
  - (* retreat *)
    change (UtilityAI.action retreat) with AIAction.RETREAT. cbv iota.
    split; [reflexivity|].
    split; [apply (Hbefore 0%nat attack); [lia | reflexivity]
           | apply (Hbefore 1%nat pursuit); [lia | reflexivity]].
  - (* patrol *)
    change (UtilityAI.action patrol) with AIAction.PATROL. cbv iota.
    split; [reflexivity|].
    split; [apply (Hbefore 0%nat attack); [lia | reflexivity]|].
    split; [apply (Hbefore 1%nat pursuit); [lia | reflexivity]
           | apply (Hbefore 2%nat retreat); [lia | reflexivity]].
  - (* idle *)
    exfalso. pose proof (Hbefore 3%nat patrol ltac:(lia) eq_refl) as Hlt.
    revert Hlt. vm_compute. discriminate.
Qed.

Lemma evaluateBestAction_decision_witness :
  (0.2 <= UtilityAI.score
            (UtilityAI.evaluateBestAction sampleMap pursuitContext 0.5 0.5))%Q.
Proof.
  exact (proj1 (proj2 (evaluateBestAction_decision sampleMap pursuitContext 0.5 0.5
                         ltac:(reflexivity) ltac:(reflexivity)))).
Defined.

Lemma nearerAlly_fold position allies : forall acc,
  (acc = (None, None) \/
   exists p d, acc = (Some p, Some d) /\ d = manhattanDistance position p /\ 0 < d) ->
  let found := foldl (UtilityAI.nearerAlly position) acc allies in
  match found.1 with
  | Some p =>
      0 < manhattanDistance position p /\
      (acc.1 = Some p \/ exists a, a ∈ allies /\ a.2 = p) /\
      (forall a, a ∈ allies -> 0 < manhattanDistance position a.2 ->
         manhattanDistance position p <= manhattanDistance position a.2) /\
      found.2 = Some (manhattanDistance position p) /\
      (forall p0, acc.1 = Some p0 ->
         manhattanDistance position p <= manhattanDistance position p0)
  | None =>
      acc = (None, None) /\
      forall a, a ∈ allies -> manhattanDistance position a.2 <= 0
  end.
Proof.
  induction allies as [|a allies IH]; intros acc Hacc; cbn [foldl].
  - destruct Hacc as [->|(p & d & -> & -> & Hpos)]; cbn [fst snd].
    + split; [reflexivity|]. intros a Ha. by apply elem_of_nil in Ha.
    + split; [exact Hpos|]. split; [by left|].
      split; [intros a Ha; by apply elem_of_nil in Ha|].
      split; [reflexivity|]. intros p0 [= <-]. lia.
  - set (acc' := UtilityAI.nearerAlly position acc a).
    assert (Hstep :
      (acc' = acc /\
       (0 < manhattanDistance position a.2 ->
        exists p d, acc = (Some p, Some d) /\ d <= manhattanDistance position a.2)) \/
      (acc' = (Some a.2, Some (manhattanDistance position a.2)) /\
       0 < manhattanDistance position a.2 /\
       forall p d, acc = (Some p, Some d) -> manhattanDistance position a.2 < d)).
    { unfold acc', UtilityAI.nearerAlly.
      destruct Hacc as [->|(p & d & -> & -> & Hpos)]; cbn [fst snd].
      - destruct (Z.ltb_spec 0 (manhattanDistance position a.2)); cbn [andb].
        + right. split; [reflexivity|]. split; [lia|]. intros ? ? [=].
        + left. split; [reflexivity|]. lia.
      - destruct (Z.ltb_spec (manhattanDistance position a.2)
                    (manhattanDistance position p));
          destruct (Z.ltb_spec 0 (manhattanDistance position a.2)); cbn [andb].
        + right. split; [reflexivity|]. split; [lia|]. intros ? ? [= <- <-]. lia.
        + left. split; [reflexivity|]. lia.
        + left. split; [reflexivity|]. intros _. eexists _, _.
          split; [reflexivity | lia].
        + left. split; [reflexivity|]. lia. }
    assert (Hacc' : acc' = (None, None) \/
              exists p d, acc' = (Some p, Some d) /\
                          d = manhattanDistance position p /\ 0 < d).
    { destruct Hstep as [[-> _]|(-> & Hpos & _)]; [exact Hacc|].
      right. by eexists _, _. }
    specialize (IH acc' Hacc'). cbv zeta in IH.
    destruct (foldl (UtilityAI.nearerAlly position) acc' allies).1 as [p|] eqn:Hfound.
    + destruct IH as (Hpos & Hfrom & Hmin & Hd & Hle).
      split; [exact Hpos|].
      destruct Hstep as [[Heq Hkeep]|(Heq & Hapos & Hlt)].
      * rewrite Heq in *. split.
        { destruct Hfrom as [?|(a' & Ha' & ?)]; [by left|].
          right. exists a'. split; [by apply list_elem_of_further | done]. }
        split; [|split; [exact Hd | exact Hle]].
        intros a' [->|Ha']%elem_of_cons Hpos'; [|by apply Hmin].
        destruct (Hkeep Hpos') as (p0 & d0 & Hacc0 & Hd0).
        destruct Hacc as [->|(p1 & d1 & -> & -> & _)]; [discriminate|].
        injection Hacc0 as <- <-. specialize (Hle p1 eq_refl). lia.
      * rewrite Heq in Hfrom, Hle. cbn [fst] in Hfrom, Hle. split.
        { right. destruct Hfrom as [[= <-]|(a' & Ha' & ?)].
          - exists a. split; [apply list_elem_of_here | reflexivity].
          - exists a'. split; [by apply list_elem_of_further | done]. }
        split.
        { intros a' [->|Ha']%elem_of_cons Hpos'; [by apply Hle | by apply Hmin]. }
        split; [exact Hd|].
        intros p0 Hp0. specialize (Hle a.2 eq_refl).
        destruct Hacc as [->|(p1 & d1 & -> & -> & _)]; [discriminate|].
        injection Hp0 as <-. specialize (Hlt _ _ eq_refl). lia.
    + destruct IH as [Hnone Hall].
      destruct Hstep as [[Heq Hkeep]|(Heq & _)]; [|rewrite Heq in Hnone; discriminate].
      rewrite Heq in Hnone. split; [exact Hnone|].
      intros a' [->|Ha']%elem_of_cons; [|by apply Hall].
      destruct (Z.le_gt_cases (manhattanDistance position a.2) 0) as [?|Hgt]; [done|].
      destruct (Hkeep ltac:(lia)) as (p0 & d0 & Hacc0 & _).
      rewrite Hnone in Hacc0. discriminate.
Qed.

Lemma clamp_inBounds (map : GameMap) (vx vy : Z) :
  1 <= width map -> 1 <= height map ->
  inBounds map (mkPos (Z.max 0 (Z.min (width map - 1) vx))
                      (Z.max 0 (Z.min (height map - 1) vy))).
Proof. unfold inBounds. simpl. lia. Qed.

Lemma random_offset (r : Q) :
  (0 <= r)%Q -> (r < 1)%Q -> 0 <= Qfloor (r * inject_Z (3 * 2 + 1)) <= 6.
Proof.
  intros H0 H1. split.
  - change 0 with (Qfloor 0). apply Qfloor_resp_le.
    apply Qmult_le_0_compat; [exact H0 | discriminate].
  - assert (Hlt : (r * inject_Z (3 * 2 + 1) < inject_Z 7)%Q).
    { change (inject_Z 7) with (1 * inject_Z (3 * 2 + 1))%Q.
      apply Qmult_lt_r; [reflexivity | exact H1]. }
    pose proof (Qfloor_le (r * inject_Z (3 * 2 + 1))) as Hfl.
    assert (Hz : (inject_Z (Qfloor (r * inject_Z (3 * 2 + 1))) < inject_Z 7)%Q)
      by (eapply Qle_lt_trans; eassumption).
    rewrite <- Zlt_Qlt in Hz. lia.
Qed.

Lemma sum_upper {A} (f : A -> Z) (l : list A) (hi : Z) :
  (forall e, e ∈ l -> f e <= hi) ->
  foldl (fun sum e => sum + f e) 0 l <= Z.of_nat (length l) * hi.
Proof.
  assert (H : forall acc,
    (forall e, e ∈ l -> f e <= hi) ->
    foldl (fun sum e => sum + f e) acc l <= acc + Z.of_nat (length l) * hi).
  { induction l as [|a l IH]; intros acc Hall; [simpl; lia|].
    cbn [foldl]. pose proof (Hall a (list_elem_of_here _ _)).
    specialize (IH (acc + f a) (fun e He => Hall e (list_elem_of_further _ _ _ He))).
    cbn [length]. lia. }
  intros Hall. specialize (H 0 Hall). lia.
Qed.

Lemma sum_lower {A} (f : A -> Z) (l : list A) (lo : Z) :
  (forall e, e ∈ l -> lo <= f e) ->
  Z.of_nat (length l) * lo <= foldl (fun sum e => sum + f e) 0 l.
Proof.
  assert (H : forall acc,
    (forall e, e ∈ l -> lo <= f e) ->
    acc + Z.of_nat (length l) * lo <= foldl (fun sum e => sum + f e) acc l).
  { induction l as [|a l IH]; intros acc Hall; [simpl; lia|].
    cbn [foldl]. pose proof (Hall a (list_elem_of_here _ _)).
    specialize (IH (acc + f a) (fun e He => Hall e (list_elem_of_further _ _ _ He))).
    cbn [length]. lia. }
  intros Hall. specialize (H 0 Hall). lia.
Qed.

(** The side of the mean on which a coordinate lies. *)
Lemma beyond_mean (coordinate sum : Z) (count : nat) :
  (0 < count)%nat ->
  (sum <= Z.of_nat count * (coordinate - 1) ->
   UtilityAI.Qgtb (inject_Z coordinate)
     (inject_Z sum / inject_Z (Z.of_nat count)) = true) /\
  (Z.of_nat count * coordinate <= sum ->
   UtilityAI.Qgtb (inject_Z coordinate)
     (inject_Z sum / inject_Z (Z.of_nat count)) = false).
Proof.
  intros Hn.
  assert (Hc : (0 < inject_Z (Z.of_nat count))%Q).
  { change 0%Q with (inject_Z 0). rewrite <- Zlt_Qlt. lia. }
  split; intros H.
  - apply Qgtb_true. apply Qlt_shift_div_r; [exact Hc|].
    rewrite <- inject_Z_mult, <- Zlt_Qlt. nia.
  - apply Qgtb_false. apply Qle_shift_div_l; [exact Hc|].
    rewrite <- inject_Z_mult, <- Zle_Qle. nia.
Qed.

(** X27. Where retreat and patrol lead, on a map of at least one cell.
    [evaluatePatrol] always scores 0.2 and names a position of the map,
    at most 3 cells away in either coordinate from a unit that stands on
    the map.  [evaluateRetreat] names the position of an ally at the
    least positive distance when some ally stands elsewhere than the
    unit.  Failing that, and with an enemy nearby, it names a position of
    the map, at most 2 cells away in either coordinate from a unit on the
    map, and not on the side of the nearby enemies: not to the left when
    they all stand strictly to the left, not to the right when none
    stands to the left, and likewise up and down.  With no ally elsewhere
    and no enemy nearby it names no position. *)
Theorem retreat_and_patrol_targets (map : GameMap)
    (context : UtilityAI.AIContext) (randomX randomY : Q) :
  1 <= width map -> 1 <= height map ->
  (0 <= randomX)%Q -> (randomX < 1)%Q -> (0 <= randomY)%Q -> (randomY < 1)%Q ->
  let unit := UtilityAI.unit context in
  let position := UtilityAI.position context in
  let distanceTo := fun other : UnitData * GridPosition =>
    manhattanDistance position other.2 in
  let patrol := UtilityAI.evaluatePatrol map context randomX randomY in
  let retreat := UtilityAI.evaluateRetreat map context in
  UtilityAI.score patrol = 0.2%Q /\
  (exists p, UtilityAI.targetPosition patrol = Some p /\ inBounds map p /\
     (inBounds map position ->
      Z.abs (x p - x position) <= 3 /\ Z.abs (y p - y position) <= 3)) /\
  match UtilityAI.targetPosition retreat with
  | Some p =>
      (exists ally, ally ∈ UtilityAI.allies context /\ ally.2 = p /\
         0 < distanceTo ally /\
         forall other, other ∈ UtilityAI.allies context -> 0 < distanceTo other ->
           distanceTo ally <= distanceTo other) \/
      ((forall ally, ally ∈ UtilityAI.allies context -> distanceTo ally <= 0) /\
       (exists enemy, enemy ∈ UtilityAI.enemies context /\
          nearby unit position enemy) /\
       inBounds map p /\
       (inBounds map position ->
        Z.abs (x p - x position) <= 2 /\ Z.abs (y p - y position) <= 2 /\
        ((forall enemy, enemy ∈ UtilityAI.enemies context ->
            nearby unit position enemy -> x enemy.2 < x position) ->
         x position <= x p) /\
        ((forall enemy, enemy ∈ UtilityAI.enemies context ->
            nearby unit position enemy -> x position <= x enemy.2) ->
         x p <= x position) /\
        ((forall enemy, enemy ∈ UtilityAI.enemies context ->
            nearby unit position enemy -> y enemy.2 < y position) ->
         y position <= y p) /\
        ((forall enemy, enemy ∈ UtilityAI.enemies context ->
            nearby unit position enemy -> y position <= y enemy.2) ->
         y p <= y position)))
  | None =>
      (forall ally, ally ∈ UtilityAI.allies context -> distanceTo ally <= 0) /\
      (forall enemy, enemy ∈ UtilityAI.enemies context ->
         ~ nearby unit position enemy)
  end.
Proof.
  intros Hw Hh Hx0 Hx1 Hy0 Hy1 unit position distanceTo patrol retreat.
  split; [reflexivity|]. split.
  { eexists. split; [reflexivity|]. split; [by apply clamp_inBounds|].
    intros [Hbx Hby]. cbn [x y].
    pose proof (random_offset randomX Hx0 Hx1).
    pose proof (random_offset randomY Hy0 Hy1).
    fold position. lia. }
  unfold retreat, UtilityAI.evaluateRetreat. cbn [UtilityAI.targetPosition].
  fold unit position.
  pose proof (nearerAlly_fold position (UtilityAI.allies context) (None, None)
                (or_introl eq_refl)) as Hally.
  cbv zeta in Hally.
  destruct (foldl (UtilityAI.nearerAlly position) (None, None)
              (UtilityAI.allies context)).1 as [p|].
  { left. destruct Hally as (Hpos & [[=]|(ally & Hin & <-)] & Hmin & _).
    exists ally. done. }
  destruct Hally as [_ Hnone].
  set (nearbyEnemies :=
         List.filter (fun e => manhattanDistance position e.2 <=? detectionRange unit)
           (UtilityAI.enemies context)).
  assert (Hnearby : forall e, e ∈ nearbyEnemies <->
            e ∈ UtilityAI.enemies context /\ nearby unit position e).
  { intros e. unfold nearbyEnemies, nearby. split.
    - intros H. apply list_elem_of_In, filter_In in H as [Hin Hd].
      split; [by apply list_elem_of_In | by apply Z.leb_le].
    - intros [Hin Hd]. apply list_elem_of_In, filter_In.
      split; [by apply list_elem_of_In | by apply Z.leb_le]. }
  destruct (Nat.ltb_spec 0 (length nearbyEnemies)) as [Hsome|Hempty].
  - right. split; [exact Hnone|]. split.
    { destruct nearbyEnemies as [|e rest] eqn:Hne; [simpl in Hsome; lia|].
      exists e. apply Hnearby. apply list_elem_of_here. }
    split; [by apply clamp_inBounds|].
    intros [Hbx Hby]. cbn [x y].
    destruct (beyond_mean (x position)
                (foldl (fun sum e => sum + x e.2) 0 nearbyEnemies)
                (length nearbyEnemies) Hsome) as [Hxr Hxl].
    destruct (beyond_mean (y position)
                (foldl (fun sum e => sum + y e.2) 0 nearbyEnemies)
                (length nearbyEnemies) Hsome) as [Hyr Hyl].
    split; [destruct (UtilityAI.Qgtb (inject_Z (x position)) _); lia|].
    split; [destruct (UtilityAI.Qgtb (inject_Z (y position)) _); lia|].
    split; [|split; [|split]].
    + intros Hleft. rewrite Hxr; [lia|].
      apply (sum_upper (fun e : UnitData * GridPosition => x e.2)).
      intros e He. apply Hnearby in He as [Hin Hnear].
      specialize (Hleft e Hin Hnear). lia.
    + intros Hright. rewrite Hxl; [lia|].
      apply (sum_lower (fun e : UnitData * GridPosition => x e.2)).
      intros e He. apply Hnearby in He as [Hin Hnear]. by apply Hright.
    + intros Hup. rewrite Hyr; [lia|].
      apply (sum_upper (fun e : UnitData * GridPosition => y e.2)).
      intros e He. apply Hnearby in He as [Hin Hnear].
      specialize (Hup e Hin Hnear). lia.
    + intros Hdown. rewrite Hyl; [lia|].
      apply (sum_lower (fun e : UnitData * GridPosition => y e.2)).
      intros e He. apply Hnearby in He as [Hin Hnear]. by apply Hdown.
  - split; [exact Hnone|]. intros enemy Hin Hnear.
    assert (He : enemy ∈ nearbyEnemies) by (by apply Hnearby).
    destruct nearbyEnemies; [by apply elem_of_nil in He | simpl in Hempty; lia].
Qed.

Lemma retreat_and_patrol_targets_witness :
  UtilityAI.score (UtilityAI.evaluatePatrol sampleMap pursuitContext 0.5 0.5)
  = 0.2%Q.
Proof.
  exact (proj1 (retreat_and_patrol_targets sampleMap pursuitContext 0.5 0.5
                  ltac:(vm_compute; discriminate) ltac:(vm_compute; discriminate)
                  ltac:(vm_compute; discriminate) ltac:(reflexivity)
                  ltac:(vm_compute; discriminate) ltac:(reflexivity))).
Defined.

(** ** Unit controller: moving and retreating *)

Lemma walk_two_positions map mt s l v c :
  walk map mt s l v c -> s <> v -> (2 <= length l)%nat.
Proof.
  induction 1 as [|l u v c w Hw IH Hs]; [done|]. intros _.
  rewrite length_app. simpl.
  destruct (walk_shape _ _ _ _ _ _ Hw) as (Hhd & _).
  destruct l; [discriminate Hhd | simpl; lia].
Qed.

(** The two ways in which [executeMove] ends on a well-formed map. *)
Lemma executeMove_cases (uc : UnitController.t) (unit : UnitData)
    (currentPos targetPos : GridPosition) (message : option string) :
  wellFormedMap (UnitController.map uc) ->
  (exists reason,
     UnitController.executeMove uc unit currentPos targetPos message
       = Returned (UnitController.failure reason, uc, unit) /\
     (currentPos = targetPos \/
      (forall c, route (UnitController.map uc) (movementType unit)
                   currentPos targetPos c -> movementPoints unit < c) \/
      (exists found,
         PathFinder.findPath (UnitController.map uc) (movementType unit)
           currentPos targetPos (Some (movementPoints unit))
           = Returned (Some found) /\
         fuelCurrent unit
         < (Z.of_nat (length (PathFinder.path found)) - 1)
           * fuelConsumptionRate unit))) \/
  (exists found,
     PathFinder.findPath (UnitController.map uc) (movementType unit)
       currentPos targetPos (Some (movementPoints unit))
       = Returned (Some found) /\
     currentPos <> targetPos /\
     walk (UnitController.map uc) (movementType unit) currentPos
       (PathFinder.path found) targetPos (PathFinder.cost found) /\
     PathFinder.cost found <= movementPoints unit /\
     let moves := Z.of_nat (length (PathFinder.path found)) - 1 in
     moves * fuelConsumptionRate unit <= fuelCurrent unit /\
     UnitController.executeMove uc unit currentPos targetPos message
       = Returned
           ({| UnitController.success := true;
               UnitController.newPosition := Some targetPos;
               UnitController.targetUnit := None;
               UnitController.combatOccurred := None;
               UnitController.unitKilled := None;
               UnitController.message :=
                 Some (UnitController.orElse message
                         ("Moved to (" +:+ pretty (x targetPos) +:+ ", "
                            +:+ pretty (y targetPos) +:+ ")"));
               UnitController.resourcesConsumed :=
                 Some {| UnitController.fuel := moves * fuelConsumptionRate unit;
                         UnitController.ammo := 0 |};
               UnitController.diplomaticAction :=
                 (territoryEntered uc unit targetPos).2 |},
            {| UnitController.map := UnitController.map uc;
               UnitController.diplomacySystem :=
                 (territoryEntered uc unit targetPos).1.1;
               UnitController.supplySystem :=
                 (territoryEntered uc unit targetPos).1.2 |},
            set_fuelCurrent
              (fuelCurrent unit - moves * fuelConsumptionRate unit) unit)).
Proof.
  intros Hwf.
  destruct (findPath_capped (UnitController.map uc) (movementType unit) Hwf
              currentPos targetPos (movementPoints unit))
    as ([found|] & Hfind & Hans); simpl in Hans.
  2:{ left. exists "No valid path found"%string. unfold UnitController.executeMove.
      rewrite Hfind. split; [reflexivity|]. right. left. apply Hans. }
  destruct Hans as [_ [(Hwalk & Hcost & Hne)|(Hse & Hnil & _)]].
  2:{ left. exists "No valid path found"%string. unfold UnitController.executeMove.
      rewrite Hfind, Hnil. split; [reflexivity | by left]. }
  pose proof (walk_two_positions _ _ _ _ _ _ Hwalk Hne) as Hlen.
  pose proof (walk_length _ _ Hwf _ _ _ _ Hwalk) as Hmoves.
  destruct (walk_shape _ _ _ _ _ _ Hwalk) as (_ & Hlast & _ & _).
  pose proof (canUnitMove_spec unit (PathFinder.path found)) as Hcan.
  cbv zeta in Hcan. destruct Hcan as (Hfuel & _ & Hcan & Hreason).
  replace (Z.of_nat (length (PathFinder.path found) - 1))
    with (Z.of_nat (length (PathFinder.path found)) - 1) in * by lia.
  destruct (SupplySystem.canUnitMove unit (PathFinder.path found)).1 eqn:Hok.
  - right. exists found. split; [exact Hfind|]. split; [exact Hne|].
    split; [exact Hwalk|]. split; [exact Hcost|]. cbv zeta.
    split; [by apply Hcan|].
    unfold UnitController.executeMove. rewrite Hfind.
    destruct (Nat.leb_spec (length (PathFinder.path found)) 1) as [?|_]; [lia|].
    rewrite Hok. cbn [negb].
    rewrite Z.min_r by lia.
    destruct (Z.leb_spec 0 (Z.of_nat (length (PathFinder.path found)) - 1)) as [_|?];
      [|lia].
    replace (Z.to_nat (Z.of_nat (length (PathFinder.path found)) - 1))
      with (pred (length (PathFinder.path found))) by lia.
    rewrite <- last_lookup, Hlast.
    assert (Hslice : UnitController.sliceTo (PathFinder.path found)
                       (Z.of_nat (length (PathFinder.path found)) - 1 + 1)
                     = PathFinder.path found).
    { unfold UnitController.sliceTo.
      destruct (Z.ltb_spec (Z.of_nat (length (PathFinder.path found)) - 1 + 1) 0);
        [lia|]. apply take_ge. lia. }
    rewrite Hslice, Hfuel. unfold territoryEntered.
    destruct (SupplySystem.getBaseAtPosition _ targetPos) as [base|]; [|reflexivity].
    case_bool_decide; [|reflexivity].
    destruct (SupplySystem.capturable base); reflexivity.
  - left. eexists. unfold UnitController.executeMove. rewrite Hfind.
    destruct (Nat.leb_spec (length (PathFinder.path found)) 1) as [?|_]; [lia|].
    rewrite Hok. cbn [negb]. split; [reflexivity|]. right. right.
    exists found. split; [reflexivity|].
    destruct (Z.lt_ge_cases (fuelCurrent unit)
                ((Z.of_nat (length (PathFinder.path found)) - 1)
                 * fuelConsumptionRate unit)) as [?|Hge]; [done|].
    apply Hcan in Hge. discriminate.
Qed.

(** X28. [executeMove] on a well-formed map always returns.  When it
    succeeds, the target differs from the current position and the unit
    arrives at the target itself: the path that [findPath] finds under
    the cap of the unit's movement points has at most that many moves,
    so none of it is cut off.  The unit pays its fuel rate for every
    move, which it could afford, so its fuel does not become negative,
    and nothing else of the unit changes.  When it fails, because the
    target is the current position, because no route fits the movement
    points, or because the fuel does not suffice for the path, the
    controller and the unit are as they were. *)
Theorem executeMove_reaches_target (uc : UnitController.t) (unit : UnitData)
    (currentPos targetPos : GridPosition) (message : option string) :
  wellFormedMap (UnitController.map uc) ->
  exists r uc' unit',
    UnitController.executeMove uc unit currentPos targetPos message
      = Returned (r, uc', unit') /\
    if UnitController.success r
    then
      currentPos <> targetPos /\
      UnitController.newPosition r = Some targetPos /\
      UnitController.map uc' = UnitController.map uc /\
      exists found,
        PathFinder.findPath (UnitController.map uc) (movementType unit)
          currentPos targetPos (Some (movementPoints unit))
          = Returned (Some found) /\
        let moves := Z.of_nat (length (PathFinder.path found)) - 1 in
        1 <= moves <= movementPoints unit /\
        UnitController.resourcesConsumed r
          = Some {| UnitController.fuel := moves * fuelConsumptionRate unit;
                    UnitController.ammo := 0 |} /\
        unit' = set_fuelCurrent
                  (fuelCurrent unit - moves * fuelConsumptionRate unit) unit /\
        0 <= fuelCurrent unit'
    else
      uc' = uc /\ unit' = unit /\
      UnitController.newPosition r = None /\
      UnitController.resourcesConsumed r = None /\
      UnitController.diplomaticAction r = None /\
      (currentPos = targetPos \/
       (forall c, route (UnitController.map uc) (movementType unit)
                    currentPos targetPos c -> movementPoints unit < c) \/
       (exists found,
          PathFinder.findPath (UnitController.map uc) (movementType unit)
            currentPos targetPos (Some (movementPoints unit))
            = Returned (Some found) /\
          fuelCurrent unit
          < (Z.of_nat (length (PathFinder.path found)) - 1)
            * fuelConsumptionRate unit)).
Proof.
  intros Hwf.
  destruct (executeMove_cases uc unit currentPos targetPos message Hwf)
    as [(reason & Heq & Hwhy)|(found & Hfind & Hne & Hwalk & Hcost & Hrest)].
  - eexists _, _, _. split; [exact Heq|]. cbn [UnitController.success
      UnitController.failure]. done.
  - cbv zeta in Hrest. destruct Hrest as [Hfuel Heq].
    eexists _, _, _. split; [exact Heq|]. cbn [UnitController.success].
    split; [exact Hne|]. split; [reflexivity|]. split; [reflexivity|].
    exists found. split; [exact Hfind|]. cbv zeta.
    pose proof (walk_two_positions _ _ _ _ _ _ Hwalk Hne).
    pose proof (walk_length _ _ Hwf _ _ _ _ Hwalk).
    split; [lia|]. split; [reflexivity|]. split; [reflexivity|].
    simpl. lia.
Qed.

Lemma executeMove_reaches_target_witness :
  wellFormedMap (UnitController.map (UnitController.new sampleMap)) /\
  exists r uc' unit',
    UnitController.executeMove (UnitController.new sampleMap) UnitTypes_infantry
      (mkPos 0 0) (mkPos 2 2) None = Returned (r, uc', unit').
Proof.
  split; [exact sampleMap_wellFormed|].
  destruct (executeMove_reaches_target (UnitController.new sampleMap)
              UnitTypes_infantry (mkPos 0 0) (mkPos 2 2) None sampleMap_wellFormed)
    as (r & uc' & unit' & Heq & _).
  by exists r, uc', unit'.
Defined.

Lemma find_index {A} (f : A -> bool) (l : list A) (a : A) :
  List.find f l = Some a ->
  exists i, l !! i = Some a /\ f a = true /\
    forall j b, (j < i)%nat -> l !! j = Some b -> f b = false.
Proof.
  induction l as [|a0 l IH]; [discriminate|]. simpl.
  destruct (f a0) eqn:Ha0.
  - intros [= <-]. exists 0%nat. split; [reflexivity|]. split; [exact Ha0|].
    intros j b Hj. lia.
  - intros Hfind. destruct (IH Hfind) as (i & Hi & Ha & Hbefore).
    exists (S i). split; [exact Hi|]. split; [exact Ha|].
    intros [|j] b Hj Hb; [by injection Hb as <-|].
    apply (Hbefore j b); [lia | exact Hb].
Qed.

Lemma find_at {A} (f : A -> bool) (l : list A) (i : nat) (a : A) :
  l !! i = Some a -> f a = true ->
  (forall j b, (j < i)%nat -> l !! j = Some b -> f b = false) ->
  List.find f l = Some a.
Proof.
  revert i. induction l as [|a0 l IH]; intros i Hi Ha Hbefore; [discriminate|].
  destruct i as [|i].
  - injection Hi as ->. simpl. by rewrite Ha.
  - simpl. rewrite (Hbefore 0%nat a0 ltac:(lia) eq_refl).
    apply (IH i Hi Ha). intros j b Hj Hb. apply (Hbefore (S j) b); [lia | exact Hb].
Qed.

(** The base standing on a position is the base that a capture by its
    id addresses, when no two bases share an id. *)
Lemma captureBase_at_position (ss : SupplySystem.t) (position : GridPosition)
    (base : SupplySystem.SupplyBase) (f : Faction.t) :
  NoDup (SupplySystem.baseId <$> SupplySystem.bases ss) ->
  SupplySystem.getBaseAtPosition ss position = Some base ->
  SupplySystem.capturable base = true ->
  SupplySystem.getBaseAtPosition
    (SupplySystem.captureBase ss (SupplySystem.baseId base) f).2 position
  = Some (SupplySystem.withFaction f base).
Proof.
  intros Hnd Hfind Hcap. unfold SupplySystem.getBaseAtPosition in *.
  apply find_index in Hfind as (i & Hi & Hpos & Hbefore).
  assert (Hid : list_find (fun b => SupplySystem.baseId b = SupplySystem.baseId base)
                  (SupplySystem.bases ss) = Some (i, base)).
  { apply list_find_Some. split; [exact Hi|]. split; [reflexivity|].
    intros j b Hj Hlt Hsame.
    assert (Hji : j = i); [|lia].
    eapply NoDup_lookup; [exact Hnd| |].
    - rewrite list_lookup_fmap, Hj. reflexivity.
    - rewrite list_lookup_fmap, Hi. simpl. by rewrite Hsame. }
  unfold SupplySystem.captureBase. rewrite Hid, Hcap. cbn [negb snd SupplySystem.bases].
  apply (find_at _ _ i).
  - apply list_lookup_insert_eq. by eapply lookup_lt_Some.
  - exact Hpos.
  - intros j b Hj Hb. rewrite list_lookup_insert_ne in Hb by lia.
    by apply (Hbefore j b).
Qed.

(** X29. What a successful move does to diplomacy and supply.  Arriving
    on no base, or on a base of the unit's own faction, changes neither
    and reports no diplomatic action.  Arriving on a base of another
    faction lowers the relation between the two factions by 5 and
    reports "ENTER_TERRITORY"; if the base is capturable the relation
    is lowered by a further 50, "CAPTURE_BASE" is reported instead, and,
    ids being unique, the base on that position then belongs to the
    unit's faction.  Each lowering is clamped at -100 and leaves one
    entry in the action history. *)
Theorem executeMove_territory (uc : UnitController.t) (unit : UnitData)
    (currentPos targetPos : GridPosition) (message : option string)
    (r : UnitController.UnitActionResult) (uc' : UnitController.t)
    (unit' : UnitData) :
  wellFormedMap (UnitController.map uc) ->
  UnitController.executeMove uc unit currentPos targetPos message
    = Returned (r, uc', unit') ->
  UnitController.success r = true ->
  let diplomacy := UnitController.diplomacySystem uc in
  let supply := UnitController.supplySystem uc in
  let diplomacy' := UnitController.diplomacySystem uc' in
  let supply' := UnitController.supplySystem uc' in
  let lowered := fun score delta => Z.max (-100) (Z.min 100 (score + delta)) in
  match SupplySystem.getBaseAtPosition supply targetPos with
  | Some base =>
      let owner := SupplySystem.baseFaction base in
      if decide (owner = faction unit)
      then diplomacy' = diplomacy /\ supply' = supply /\
           UnitController.diplomaticAction r = None
      else if SupplySystem.capturable base
      then
        UnitController.diplomaticAction r
          = Some {| UnitController.diplomaticType := "CAPTURE_BASE";
                    UnitController.diplomaticValue := -50 |} /\
        DiplomacySystem.getRelation diplomacy' (faction unit) owner
          = lowered
              (lowered (DiplomacySystem.getRelation diplomacy (faction unit) owner)
                 (-5))
              (-50) /\
        length (DiplomacySystem.getActionHistory diplomacy')
          = S (S (length (DiplomacySystem.getActionHistory diplomacy))) /\
        supply' = (SupplySystem.captureBase supply (SupplySystem.baseId base)
                     (faction unit)).2 /\
        (NoDup (SupplySystem.baseId <$> SupplySystem.getBases supply) ->
         SupplySystem.getBaseAtPosition supply' targetPos
           = Some (SupplySystem.withFaction (faction unit) base))
      else
        UnitController.diplomaticAction r
          = Some {| UnitController.diplomaticType := "ENTER_TERRITORY";
                    UnitController.diplomaticValue := -5 |} /\
        DiplomacySystem.getRelation diplomacy' (faction unit) owner
          = lowered (DiplomacySystem.getRelation diplomacy (faction unit) owner)
              (-5) /\
        length (DiplomacySystem.getActionHistory diplomacy')
          = S (length (DiplomacySystem.getActionHistory diplomacy)) /\
        supply' = supply
  | None =>
      diplomacy' = diplomacy /\ supply' = supply /\
      UnitController.diplomaticAction r = None
  end.
Proof.
  intros Hwf Heq Hsucc diplomacy supply diplomacy' supply' lowered.
  destruct (executeMove_cases uc unit currentPos targetPos message Hwf)
    as [(reason & Heq' & _)|(found & _ & _ & _ & _ & Hrest)].
  { rewrite Heq in Heq'. injection Heq' as -> _ _. discriminate Hsucc. }
  cbv zeta in Hrest. destruct Hrest as [_ Heq']. rewrite Heq in Heq'.
  injection Heq' as Hr Huc _.
  subst diplomacy' supply'. rewrite Hr, Huc.
  cbn [UnitController.diplomacySystem UnitController.supplySystem
       UnitController.diplomaticAction].
  unfold territoryEntered. fold supply diplomacy.
  destruct (SupplySystem.getBaseAtPosition supply targetPos) as [base|] eqn:Hbase;
    [|done].
  cbv zeta. case_bool_decide as Hown.
  2:{ rewrite decide_True; [done | first [exact Hown | by apply dec_stable]]. }
  rewrite decide_False by exact Hown.
  assert (Hne : faction unit <> SupplySystem.baseFaction base) by congruence.
  destruct (SupplySystem.capturable base) eqn:Hcap; cbn [fst snd].
  - split; [reflexivity|]. split.
    { by rewrite !getRelation_modifyRelation by exact Hne. }
    split.
    { unfold DiplomacySystem.getActionHistory, DiplomacySystem.modifyRelation.
      simpl. rewrite !length_app. simpl. lia. }
    split; [reflexivity|].
    intros Hnd. by apply captureBase_at_position.
  - split; [reflexivity|]. split.
    { by rewrite getRelation_modifyRelation by exact Hne. }
    split; [|reflexivity].
    unfold DiplomacySystem.getActionHistory, DiplomacySystem.modifyRelation.
    simpl. rewrite !length_app. simpl. lia.
Qed.

Lemma executeMove_territory_witness :
  exists r uc' unit',
    UnitController.executeMove (UnitController.new sampleMap) UnitTypes_infantry
      (mkPos 0 0) (mkPos 2 2) None = Returned (r, uc', unit') /\
    UnitController.success r = true /\
    UnitController.diplomaticAction r = None.
Proof.
  destruct (UnitController.executeMove (UnitController.new sampleMap)
              UnitTypes_infantry (mkPos 0 0) (mkPos 2 2) None)
    as [[[r uc'] unit']| |] eqn:Heq; try (vm_compute in Heq; discriminate).
  exists r, uc', unit'. split; [reflexivity|].
  assert (Hs : UnitController.success r = true).
  { vm_compute in Heq. injection Heq as <- _ _. reflexivity. }
  split; [exact Hs|].
  pose proof (executeMove_territory (UnitController.new sampleMap)
                UnitTypes_infantry (mkPos 0 0) (mkPos 2 2) None r uc' unit'
                sampleMap_wellFormed Heq Hs) as H.
  cbv zeta in H.
  change (SupplySystem.getBaseAtPosition
            (UnitController.supplySystem (UnitController.new sampleMap)) (mkPos 2 2))
    with (Some (SupplySystem.Build_SupplyBase "player-hq" (mkPos 2 2) Faction.PLAYER
                  "Player HQ" 20 15 8 false)) in H.
  cbv beta iota in H. rewrite decide_True in H by reflexivity. apply H.
Defined.

Lemma nearerFriendlyBase_fold currentPos bases : forall acc,
  let distance := fun base : SupplySystem.SupplyBase =>
    manhattanDistance (SupplySystem.basePosition base) currentPos in
  let found := foldl (UnitController.nearerFriendlyBase currentPos) acc bases in
  found.2 <= acc.2 /\
  (found = acc \/ (found.1 ∈ bases /\ found.2 = distance found.1)) /\
  forall other, other ∈ bases -> found.2 <= distance other.
Proof.
  induction bases as [|b bases IH]; intros acc; cbn [foldl].
  - split; [lia|]. split; [by left|]. intros other H. by apply elem_of_nil in H.
  - destruct (IH (UnitController.nearerFriendlyBase currentPos acc b))
      as (Hle & Hfrom & Hmin). cbv zeta in *.
    assert (Hstep :
      (UnitController.nearerFriendlyBase currentPos acc b = acc /\
       acc.2 <= manhattanDistance (SupplySystem.basePosition b) currentPos) \/
      (UnitController.nearerFriendlyBase currentPos acc b
       = (b, manhattanDistance (SupplySystem.basePosition b) currentPos) /\
       manhattanDistance (SupplySystem.basePosition b) currentPos < acc.2)).
    { unfold UnitController.nearerFriendlyBase, manhattanDistance.
      destruct (Z.ltb_spec
                  (Z.abs (x (SupplySystem.basePosition b) - x currentPos)
                   + Z.abs (y (SupplySystem.basePosition b) - y currentPos)) acc.2);
        [by right | by left]. }
    destruct Hstep as [[Heq Hge]|[Heq Hlt]]; rewrite Heq in *; cbn [fst snd] in *.
    + split; [exact Hle|]. split.
      * destruct Hfrom as [?|[Hin ?]]; [by left|]. right.
        split; [by apply list_elem_of_further | done].
      * intros other [->|Hin]%elem_of_cons; [lia | by apply Hmin].
    + split; [lia|]. split.
      * right. destruct Hfrom as [->|[Hin ?]]; cbn [fst snd].
        -- split; [apply list_elem_of_here | reflexivity].
        -- split; [by apply list_elem_of_further | done].
      * intros other [->|Hin]%elem_of_cons; [lia | by apply Hmin].
Qed.

(** X30. [executeRetreat] fails, and changes nothing, when the unit's
    faction owns no base.  Otherwise it is the move to the position of a
    base of the unit's faction, under the message given or else
    "Retreating to nearest friendly base"; no base of the faction is
    nearer to the unit than that one, unless it is
    [Number.MAX_SAFE_INTEGER] cells away or more. *)
Theorem executeRetreat_heads_for_nearest_base (uc : UnitController.t)
    (unit : UnitData) (currentPos : GridPosition) (message : option string) :
  let friendlyBases :=
    SupplySystem.getBasesByFaction (UnitController.supplySystem uc) (faction unit) in
  let distance := fun base : SupplySystem.SupplyBase =>
    manhattanDistance (SupplySystem.basePosition base) currentPos in
  (friendlyBases = [] ->
   UnitController.executeRetreat uc unit currentPos message
   = Returned (UnitController.failure "No friendly bases to retreat to", uc, unit)) /\
  (friendlyBases <> [] ->
   exists base,
     base ∈ friendlyBases /\
     (forall other, other ∈ friendlyBases ->
        distance base <= distance other \/
        UnitController.MAX_SAFE_INTEGER <= distance other) /\
     UnitController.executeRetreat uc unit currentPos message
     = UnitController.executeMove uc unit currentPos
         (SupplySystem.basePosition base)
         (Some (UnitController.orElse message
                  "Retreating to nearest friendly base"))).
Proof.
  intros friendlyBases distance. unfold UnitController.executeRetreat.
  fold friendlyBases. split.
  - intros ->. reflexivity.
  - intros Hne. destruct friendlyBases as [|first rest] eqn:Hfb; [done|].
    destruct (nearerFriendlyBase_fold currentPos (first :: rest)
                (first, UnitController.MAX_SAFE_INTEGER)) as (Hle & Hfrom & Hmin).
    cbv zeta in *. unfold distance.
    set (found := foldl (UnitController.nearerFriendlyBase currentPos)
                    (first, UnitController.MAX_SAFE_INTEGER) (first :: rest)) in *.
    exists found.1. split; [|split; [|reflexivity]].
    + destruct Hfrom as [->|[Hin _]]; [apply list_elem_of_here | exact Hin].
    + intros other Hother. specialize (Hmin other Hother).
      destruct Hfrom as [Heq|[_ Hd]].
      * right. rewrite Heq in Hmin. exact Hmin.
      * left. rewrite <- Hd. exact Hmin.
Qed.
